(** * Pi Control Center: camera stream demuxer and timelapse worker

  A shallow embedding of the two stateful pieces of
  [pi_discovery/demo/server.py]:

  - [cam_stream.gen] (lines 123-137): the generator that spawns the MJPEG
    encoder, accumulates its output in a buffer and yields one multipart
    part per JPEG frame found between the markers 0xFFD8 and 0xFFD9;
  - the timelapse block (lines 312-358): the globals [timelapse_thread] and
    [timelapse_stop], the worker loop [timelapse_worker] and the three
    handlers [timelapse_status], [timelapse_start], [timelapse_stop_route].

  Python [bytes] are lists of [byte]; Python integers are [Z]; the module
  globals are the fields of a record that every handler threads through;
  [threading.Thread] objects live in a table indexed by creation order, and
  a reference to one is its index. *)

From Stdlib Require Import List ZArith Lia Bool String Ascii PeanoNat.
From Stdlib Require Import Sorted Permutation DecimalString.
From Stdlib.Strings Require Import Byte.
Import ListNotations.

(* ===================================================================== *)
(** * Part I: definitions *)
(* ===================================================================== *)

(** ** Python byte strings *)

Module PyBytes.

Definition bytes := list byte.

Local Open Scope Z_scope.

Definition len (b : bytes) : Z := Z.of_nat (List.length b).

(** [b.startswith(sub)] *)
Fixpoint starts_with (sub b : bytes) : bool :=
  match sub, b with
  | [], _ => true
  | _ :: _, [] => false
  | x :: sub', y :: b' => Byte.eqb x y && starts_with sub' b'
  end.

(** Lowest index [>= i] of an occurrence of [sub], counting the head of
    [b] as index [i]; [-1] when there is none. *)
Fixpoint find_from (sub b : bytes) (i : Z) : Z :=
  if starts_with sub b then i
  else match b with
       | [] => -1
       | _ :: b' => find_from sub b' (i + 1)
       end.

(** [b.find(sub)] *)
Definition find (b sub : bytes) : Z := find_from sub b 0.

(** Bound normalisation of a slice: a negative bound counts from the end,
    and every bound is clipped to [0 .. len]. *)
Definition clip (n i : Z) : Z :=
  if i <? 0 then Z.max 0 (i + n) else Z.min i n.

(** [b[lo:hi]] *)
Definition slice (b : bytes) (lo hi : Z) : bytes :=
  let lo' := clip (len b) lo in
  let hi' := clip (len b) hi in
  firstn (Z.to_nat (hi' - lo')) (skipn (Z.to_nat lo') b).

(** [b[lo:]] *)
Definition slice_from (b : bytes) (lo : Z) : bytes :=
  skipn (Z.to_nat (clip (len b) lo)) b.

End PyBytes.

(** ** The camera stream generator, [cam_stream.gen] *)

Module Demux.
Import PyBytes.
Local Open Scope Z_scope.

(** [b'\xff\xd8'] and [b'\xff\xd9'] *)
Definition SOI : bytes := [xff; xd8].
Definition EOI : bytes := [xff; xd9].

Definition CRLF : bytes := [x0d; x0a].

(** [b'--frame\r\nContent-Type: image/jpeg\r\n\r\n'] *)
Definition part_header : bytes :=
  list_byte_of_string "--frame" ++ CRLF
    ++ list_byte_of_string "Content-Type: image/jpeg" ++ CRLF ++ CRLF.

(** The value yielded at line 135 for the frame [f]. *)
Definition part (f : bytes) : bytes := part_header ++ f ++ CRLF.

(** Lines 133-134: the two searches over the whole buffer and the test
    [s != -1 and e != -1 and e > s]. *)
Definition frame_ready (buf : bytes) : bool :=
  let s := find buf SOI in
  let e := find buf EOI in
  negb (s =? -1) && negb (e =? -1) && (e >? s).

(** One pass of the loop body after a non-empty read (lines 132-136):
    the frame yielded, if any, and the buffer the next pass starts from. *)
Definition feed (buf c : bytes) : option bytes * bytes :=
  let buf := buf ++ c in
  let s := find buf SOI in
  let e := find buf EOI in
  if frame_ready buf
  then (Some (slice buf s (e + 2)), slice_from buf (e + 2))
  else (None, buf).

(** *** The generator as a resumable machine *)

(** What [p.stdout.read(4096)] gives back: a chunk (the empty chunk is the
    end of the stream) or an exception. A finite script of reads stands
    for the encoder's output; past its end the stream is at EOF. *)
Inductive read_result :=
| Chunk (c : bytes)
| ReadError.

(** Calls on the child process. *)
Inductive proc_event := Spawn | Terminate.

(** Where the generator frame is parked between two calls of the
    consumer. At the [yield] of line 135 the buffer is still whole and the
    local [e] holds the end marker's index: the trimming of line 136 runs
    on resumption. *)
Inductive gen_state :=
| Fresh
| AtYield (buf : bytes) (e : Z)
| Finished.

(** What a call on the generator returns to the consumer. *)
Inductive gen_result :=
| Yield (v : bytes)
| StopIteration
| Raised.

Record gen := {
  g_state : gen_state;
  g_reads : list read_result;    (* what the child will still deliver *)
  g_trace : list proc_event      (* calls on the child so far, oldest first *)
}.

(** The [while True] loop of lines 129-136, entered with buffer [buf];
    leaving it by [break] or by an exception runs the [finally] clause of
    line 137. *)
Fixpoint loop (buf : bytes) (reads : list read_result) (tr : list proc_event)
  : gen_result * gen :=
  match reads with
  | [] =>
      (StopIteration,
       {| g_state := Finished; g_reads := []; g_trace := tr ++ [Terminate] |})
  | ReadError :: rest =>
      (Raised,
       {| g_state := Finished; g_reads := rest; g_trace := tr ++ [Terminate] |})
  | Chunk [] :: rest =>
      (StopIteration,
       {| g_state := Finished; g_reads := rest; g_trace := tr ++ [Terminate] |})
  | Chunk c :: rest =>
      let buf := buf ++ c in
      if frame_ready buf
      then let s := find buf SOI in
           let e := find buf EOI in
           (Yield (part (slice buf s (e + 2))),
            {| g_state := AtYield buf e; g_reads := rest; g_trace := tr |})
      else loop buf rest tr
  end.

(** [next(g)]. [popen_ok] tells whether [subprocess.Popen] succeeds when
    the body is entered; it raises before the [try] otherwise. *)
Definition gen_next (popen_ok : bool) (g : gen) : gen_result * gen :=
  match g_state g with
  | Fresh =>
      if popen_ok
      then loop [] (g_reads g) (g_trace g ++ [Spawn])
      else (Raised, {| g_state := Finished; g_reads := g_reads g;
                       g_trace := g_trace g |})
  | AtYield buf e => loop (slice_from buf (e + 2)) (g_reads g) (g_trace g)
  | Finished => (StopIteration, g)
  end.

(** [g.close()], which is what the WSGI layer calls on the response
    iterable at teardown, and what dropping the last reference does:
    [GeneratorExit] is raised at the [yield], inside the [try]. A
    generator that was never entered just becomes finished. *)
Definition gen_close (g : gen) : gen :=
  match g_state g with
  | Fresh => {| g_state := Finished; g_reads := g_reads g; g_trace := g_trace g |}
  | AtYield _ _ =>
      {| g_state := Finished; g_reads := g_reads g;
         g_trace := g_trace g ++ [Terminate] |}
  | Finished => g
  end.

(** [g.throw(exc)]: an exception raised at the [yield] (a failed write to
    the client, for one) passes the [finally] clause on its way out. *)
Definition gen_throw (g : gen) : gen_result * gen := (Raised, gen_close g).

(** The consumer's side. *)
Inductive consumer_call := Next (popen_ok : bool) | Close | Throw.

Definition call (g : gen) (a : consumer_call) : gen :=
  match a with
  | Next ok => snd (gen_next ok g)
  | Close => gen_close g
  | Throw => snd (gen_throw g)
  end.

Definition fresh (reads : list read_result) : gen :=
  {| g_state := Fresh; g_reads := reads; g_trace := [] |}.

Definition drive (reads : list read_result) (calls : list consumer_call) : gen :=
  fold_left call calls (fresh reads).

(** Everything the generator yields when it is iterated to exhaustion. *)
Fixpoint drain (fuel : nat) (g : gen) : list bytes :=
  match fuel with
  | O => []
  | S fuel' =>
      match gen_next true g with
      | (Yield v, g') => v :: drain fuel' g'
      | (_, _) => []
      end
  end.

(** The frames that iterating the generator over the chunks [cs] puts
    into its parts: the same loop with the process and the multipart
    wrapping left out. The loop stops at the first empty chunk. *)
Fixpoint frames (buf : bytes) (cs : list bytes) : list bytes :=
  match cs with
  | [] => []
  | [] :: _ => []
  | c :: rest =>
      match feed buf c with
      | (Some f, buf') => f :: frames buf' rest
      | (None, buf') => frames buf' rest
      end
  end.

(** A well-formed frame in the sense of the markers: it opens with the
    start marker, closes with the end marker, and has no end marker
    before that one. *)
Definition well_formed (f : bytes) : bool :=
  (find f SOI =? 0) && (find f EOI =? len f - 2).

(** *** Predicates of the statements *)

(** The body was entered and the encoder spawned: the consumer's first
    call is a [next] on which [Popen] succeeds. (A [close] or [throw] on a
    generator that was never entered finishes it without running any of
    its code, and no later call enters it.) *)
Definition entered (calls : list consumer_call) : bool :=
  match calls with
  | Next true :: _ => true
  | _ => false
  end.

(** What the calls on the child must be for the state the generator is
    in: none before the body is entered; the spawn alone while it is
    parked at the [yield]; once finished, either none (the body was never
    entered, or [Popen] itself raised) or the spawn followed by one
    [terminate]. *)
Definition lifecycle (g : gen) : Prop :=
  match g_state g with
  | Fresh => g_trace g = []
  | AtYield _ _ => g_trace g = [Spawn]
  | Finished => g_trace g = [] \/ g_trace g = [Spawn; Terminate]
  end.

(** The same, told from the consumer's calls [calls] that led to [g]: the
    generator is untouched only while nothing was called; it is parked at
    its [yield] only if the encoder was spawned, and the encoder is then
    running; once it is finished, the encoder was terminated, once, if it
    was ever spawned. *)
Definition accounted (calls : list consumer_call) (g : gen) : Prop :=
  match g_state g with
  | Fresh => calls = [] /\ g_trace g = []
  | AtYield _ _ => entered calls = true /\ g_trace g = [Spawn]
  | Finished =>
      calls <> [] /\
      g_trace g = if entered calls then [Spawn; Terminate] else []
  end.

End Demux.

(** ** Python's true division of integers *)

Module PyFloat.
Local Open Scope Z_scope.

(** A finite binary64 value: [mant * 2^expo], with [|mant| <= 2^53]. *)
Record float := { mant : Z; expo : Z }.

(** What [a / b] on two [int] gives. *)
Inductive div_result :=
| Quotient (x : float)
| ZeroDivisionError
| OverflowError.          (* integer division result too large for a float *)

(** [n / d] rounded to the nearest integer, a tie going to the even one;
    for [0 <= n] and [0 < d]. *)
Definition round_div (n d : Z) : Z :=
  let q := n / d in
  let r := n mod d in
  if 2 * r <? d then q
  else if d <? 2 * r then q + 1
  else if Z.even q then q else q + 1.

(** Numerator and denominator of [a / (b * 2^e)]. *)
Definition scaled (a b e : Z) : Z * Z :=
  if 0 <=? e then (a, b * 2 ^ e) else (a * 2 ^ (- e), b).

(** The exponent at which the quotient of [a] by [b] (both positive) is
    rounded: the one that puts the integer part of [a / (b * 2^e)] in
    [2^52, 2^53), 53 significant bits, and not less than -1074, the
    exponent of the subnormal numbers. *)
Definition exponent (a b : Z) : Z :=
  let e0 := Z.log2 a - Z.log2 b - 53 in
  let '(n, d) := scaled a b e0 in
  Z.max (if n / d <? 2 ^ 53 then e0 else e0 + 1) (-1074).

(** [a / b] on two [int]: the exact quotient correctly rounded to a
    binary64 float. *)
Definition true_div (a b : Z) : div_result :=
  if b =? 0 then ZeroDivisionError
  else if a =? 0 then Quotient {| mant := 0; expo := 0 |}
  else
    let e := exponent (Z.abs a) (Z.abs b) in
    let '(n, d) := scaled (Z.abs a) (Z.abs b) e in
    let m := round_div n d in
    if (0 <=? e) && (2 ^ 1024 <=? m * 2 ^ e) then OverflowError
    else Quotient {| mant := Z.sgn a * Z.sgn b * m; expo := e |}.

(** [int(x)]: the float truncated towards zero. *)
Definition int (x : float) : Z :=
  if 0 <=? expo x then mant x * 2 ^ expo x
  else Z.quot (mant x) (2 ^ (- expo x)).

End PyFloat.

(** ** The timelapse worker and its handlers *)

Module Timelapse.
Import PyFloat.
Local Open Scope Z_scope.

(** An entry of [TIMELAPSE_DIR]: its name and its [st_mtime]. *)
Record file := { name : string; mtime : Z }.

(** [s.endswith(suffix)] *)
Fixpoint ends_with (suffix s : string) : bool :=
  (s =? suffix)%string ||
  match s with
  | EmptyString => false
  | String _ s' => ends_with suffix s'
  end.

(** [TIMELAPSE_DIR.glob('*.jpg')] keeps the entries this accepts. *)
Definition is_jpg (f : file) : bool := ends_with ".jpg" (name f).

(** *** [timelapse_worker] *)

(** Where a [threading.Thread] running [timelapse_worker] stands.
    [AtFor k] and [InSleep k] are inside the [for] loop of line 325 with
    [k] passes still to come. *)
Inductive pc :=
| Created                 (* Thread(...) built, start() not called yet *)
| AtWhile                 (* about to test the condition of line 321 *)
| InCapture               (* inside run_cmd, lines 322-323 *)
| AtFor (k : nat)         (* about to take the next value of the range *)
| InSleep (k : nat)       (* inside time.sleep(1), line 327 *)
| Returned.               (* the function has returned: thread dead *)

Record worker := {
  w_interval : Z;         (* argument [interval] *)
  w_max_shots : Z;        (* argument [max_shots] *)
  w_count : Z;            (* local [count] *)
  w_pc : pc
}.

(** [Thread.is_alive()] *)
Definition is_alive (w : worker) : bool :=
  match w_pc w with
  | Created | Returned => false
  | _ => true
  end.

(** What the worker does to the outside world. A capture attempt carries
    what [rpicam-still] left on disk: nothing when it failed or timed
    out. *)
Inductive event :=
| Shot (out : option file)
| Slept.

Definition goto (w : worker) (p : pc) : worker :=
  {| w_interval := w_interval w; w_max_shots := w_max_shots w;
     w_count := w_count w; w_pc := p |}.

(** What the environment decides about one capture: the stamp that
    [datetime.now()] formats to at line 322 and the modification time of
    the file, or nothing when [rpicam-still] failed or timed out and wrote
    no file. *)
Definition capture := option (string * Z).

(** The file of a capture, [img_<stamp>.jpg]. *)
Definition shot_file (stamp : string) (t : Z) : file :=
  {| name := "img_" ++ stamp ++ ".jpg"; mtime := t |}.

Definition written (c : capture) : option file :=
  match c with
  | Some (stamp, t) => Some (shot_file stamp t)
  | None => None
  end.

(** One step of the worker. [stop] is the value of the global
    [timelapse_stop] at this moment (read at lines 321 and 326 only);
    [out] is the outcome of the capture command if this step runs it. *)
Definition worker_step (stop : bool) (out : option file) (w : worker)
  : worker * list event :=
  match w_pc w with
  | Created => (w, [])
  | AtWhile =>
      if negb stop && ((w_max_shots w =? 0) || (w_count w <? w_max_shots w))
      then (goto w InCapture, [])
      else (goto w Returned, [])
  | InCapture =>
      ({| w_interval := w_interval w; w_max_shots := w_max_shots w;
          w_count := w_count w + 1;
          w_pc := AtFor (Z.to_nat (w_interval w)) |}, [Shot out])
  | AtFor O => (goto w AtWhile, [])
  | AtFor (S k) =>
      if stop then (goto w AtWhile, []) else (goto w (InSleep k), [])
  | InSleep k => (goto w (AtFor k), [Slept])
  | Returned => (w, [])
  end.

(** [timelapse_worker(interval, max_shots)] followed for [n] steps from
    the worker [w], the value of the flag and the outcome of a capture being
    given for each step by [stop] and [out]. The loop need not end, so the
    number of steps is an argument. *)
Fixpoint timelapse_worker (stop : nat -> bool) (out : nat -> option file)
         (n : nat) (w : worker) : worker * list event :=
  match n with
  | O => (w, [])
  | S n' =>
      let '(w1, ev1) := worker_step (stop O) (out O) w in
      let '(w2, ev2) :=
        timelapse_worker (fun i => stop (S i)) (fun i => out (S i)) n' w1 in
      (w2, ev1 ++ ev2)
  end.

Definition is_shot (e : event) : bool :=
  match e with Shot _ => true | Slept => false end.

Definition is_sleep (e : event) : bool :=
  match e with Shot _ => false | Slept => true end.

Definition shots (evs : list event) : nat := List.length (filter is_shot evs).
Definition sleeps (evs : list event) : nat := List.length (filter is_sleep evs).

(** An upper bound, in seconds, on the time an event takes: [run_cmd] is
    called with [timeout=10], [time.sleep] with [1]. *)
Definition seconds (e : event) : Z :=
  match e with Shot _ => 10 | Slept => 1 end.

Definition elapsed (evs : list event) : Z :=
  fold_right (fun e acc => seconds e + acc) 0 evs.

(** *** The module globals and the directory *)

Record state := {
  threads : list worker;            (* every Thread object created so far *)
  timelapse_thread : option nat;    (* the global: None or a reference *)
  timelapse_stop : bool;            (* the global flag *)
  dir : list file                   (* TIMELAPSE_DIR, in glob order *)
}.

Definition init : state :=
  {| threads := []; timelapse_thread := None; timelapse_stop := false;
     dir := [] |}.

Definition thread_alive (st : state) (t : nat) : bool :=
  match nth_error (threads st) t with
  | Some w => is_alive w
  | None => false
  end.

(** [timelapse_thread is not None and timelapse_thread.is_alive()] *)
Definition running (st : state) : bool :=
  match timelapse_thread st with
  | Some t => thread_alive st t
  | None => false
  end.

(** How many worker loops are executing. *)
Definition alive_count (st : state) : nat :=
  List.length (filter is_alive (threads st)).

(** [l[i] = x], for [i] in range. *)
Fixpoint set_nth {A} (i : nat) (x : A) (l : list A) : list A :=
  match l, i with
  | [], _ => []
  | _ :: l', O => x :: l'
  | y :: l', S i' => y :: set_nth i' x l'
  end.

(** *** [timelapse_status] *)

(** Insertion into a list that is already in descending order of
    [mtime]: [f] goes in front of the first entry that is not newer. *)
Fixpoint insert_desc (f : file) (l : list file) : list file :=
  match l with
  | [] => [f]
  | g :: l' =>
      if mtime g >? mtime f then g :: insert_desc f l' else f :: g :: l'
  end.

(** [sorted(l, key=lambda x: x.stat().st_mtime, reverse=True)]: entries
    with equal keys keep their order. *)
Definition sorted_desc (l : list file) : list file :=
  fold_right insert_desc [] l.

Record image := { img_name : string; img_path : string }.

Record status := {
  st_running : bool;
  st_count : Z;
  st_images : list image
}.

Section Status.
(** [str(TIMELAPSE_DIR)] *)
Variable TIMELAPSE_DIR : string.

Definition image_of (f : file) : image :=
  {| img_name := name f; img_path := TIMELAPSE_DIR ++ "/" ++ name f |}.

Definition timelapse_status (st : state) : status * state :=
  let running := running st in
  let images := sorted_desc (filter is_jpg (dir st)) in
  ({| st_running := running;
      st_count := Z.of_nat (List.length images);
      st_images := map image_of (firstn 20 images) |}, st).
End Status.

(** *** [timelapse_start] and [timelapse_stop_route] *)

(** The JSON body: each key present or not. *)
Record request := { interval : option Z; duration : option Z }.

(** [d.get(key, default)] *)
Definition get (o : option Z) (default : Z) : Z :=
  match o with Some v => v | None => default end.

Inductive response :=
| Started (interval : Z)     (* {'success': True, 'interval': interval} *)
| Stopped                    (* {'success': True} *)
| Cleared                    (* {'success': True} *)
| AlreadyRunning             (* {'error': 'Already running'}, 400 *)
| ServerError.               (* an uncaught exception: 500 *)

Definition is_success (r : response) : bool :=
  match r with Started _ | Stopped | Cleared => true | _ => false end.

(** Line 346. *)
Definition clamp_interval (data : request) : Z :=
  Z.max 10 (Z.min 600 (get (interval data) 60)).

(** Lines 347-348. The body values are JSON integers. [duration / interval]
    is Python's true division, which goes through a float, and [int]
    truncates that float; [None] is the [OverflowError] of a quotient
    beyond the range of a float. *)
Definition shots_for (data : request) : option Z :=
  let interval := clamp_interval data in
  let duration := get (duration data) 0 in
  if duration >? 0
  then match true_div duration interval with
       | Quotient x => Some (int x)
       | ZeroDivisionError | OverflowError => None
       end
  else Some 0.

Definition new_worker (interval max_shots : Z) (p : pc) : worker :=
  {| w_interval := interval; w_max_shots := max_shots; w_count := 0;
     w_pc := p |}.

(** The handler run from its first line to its [return] with nothing in
    between. An exception at line 348 leaves the handler before any of its
    writes. *)
Definition timelapse_start (st : state) (data : request) : response * state :=
  if running st then (AlreadyRunning, st)
  else
    let interval := clamp_interval data in
    match shots_for data with
    | None => (ServerError, st)
    | Some max_shots =>
        (Started interval,
         {| threads := threads st ++ [new_worker interval max_shots AtWhile];
            timelapse_thread := Some (List.length (threads st));
            timelapse_stop := false;
            dir := dir st |})
    end.

Definition timelapse_stop_route (st : state) : response * state :=
  (Stopped,
   {| threads := threads st; timelapse_thread := timelapse_thread st;
      timelapse_stop := true; dir := dir st |}).

(** The loop of line 368 over the entries in glob order. [ok f] tells
    whether [f.unlink()] succeeds: it raises on an entry that is a
    directory, or that the server may not remove. The result is whether
    the loop ran to its end, and the directory it leaves: the first
    [unlink()] that raises ends the loop, and the entries after it are not
    visited. *)
Fixpoint unlink_all (ok : file -> bool) (d : list file) : bool * list file :=
  match d with
  | [] => (true, [])
  | f :: d' =>
      if is_jpg f
      then if ok f then unlink_all ok d' else (false, f :: d')
      else let '(done, d'') := unlink_all ok d' in (done, f :: d'')
  end.

(** [timelapse_clear] *)
Definition timelapse_clear (ok : file -> bool) (st : state) : response * state :=
  let '(done, d) := unlink_all ok (dir st) in
  (if done then Cleared else ServerError,
   {| threads := threads st; timelapse_thread := timelapse_thread st;
      timelapse_stop := timelapse_stop st;
      dir := d |}).

(** *** The server with one handler at a time *)

(** A capture that succeeded leaves its file in the directory, in place
    of an older one of the same name. *)
Definition add_file (f : file) (d : list file) : list file :=
  f :: filter (fun g => negb (name g =? name f)%string) d.

Definition write_out (out : option file) (d : list file) : list file :=
  match out with Some f => add_file f d | None => d end.

(** Thread [t] takes one step. *)
Definition tick (st : state) (t : nat) (c : capture)
  : state * list (nat * event) :=
  match nth_error (threads st) t with
  | None => (st, [])
  | Some w =>
      let '(w', evs) := worker_step (timelapse_stop st) (written c) w in
      ({| threads := set_nth t w' (threads st);
          timelapse_thread := timelapse_thread st;
          timelapse_stop := timelapse_stop st;
          dir := match w_pc w with
                 | InCapture => write_out (written c) (dir st)
                 | _ => dir st
                 end |},
       map (fun e => (t, e)) evs)
  end.

Inductive action :=
| ReqStart (data : request)
| ReqStop
| ReqStatus
| ReqClear (ok : file -> bool)
| Tick (t : nat) (c : capture).

Definition step (st : state) (a : action) : state * list (nat * event) :=
  match a with
  | ReqStart data => (snd (timelapse_start st data), [])
  | ReqStop => (snd (timelapse_stop_route st), [])
  | ReqStatus => (snd (timelapse_status "" st), [])
  | ReqClear ok => (snd (timelapse_clear ok st), [])
  | Tick t c => tick st t c
  end.

Fixpoint run (st : state) (acts : list action) : state * list (nat * event) :=
  match acts with
  | [] => (st, [])
  | a :: rest =>
      let '(st1, ev1) := step st a in
      let '(st2, ev2) := run st1 rest in
      (st2, ev1 ++ ev2)
  end.

(** The events of thread [t] in a log. *)
Definition events_of (t : nat) (log : list (nat * event)) : list event :=
  map snd (filter (fun p => Nat.eqb (fst p) t) log).

Definition is_tick (t : nat) (a : action) : bool :=
  match a with Tick t' _ => Nat.eqb t' t | _ => false end.

Definition ticks_of (t : nat) (acts : list action) : nat :=
  List.length (filter (is_tick t) acts).

(** *** The server as it runs: handlers interleaved line by line *)

(** The server is started with [threaded=True] (line 500): every request
    is handled on a thread of its own, and between any two lines of a
    handler another thread can run. A call of [timelapse_start] in flight
    is the line it stands at and its locals. *)
Inductive start_pc :=
| L343                       (* the test of the guard *)
| L345                       (* lines 345-348: locals from the body *)
| L349                       (* timelapse_stop = False *)
| L350                       (* timelapse_thread = Thread(...) *)
| L351                       (* timelapse_thread.start() *)
| L352                       (* return success *)
| Replied (r : response).

Record start_call := {
  c_data : request;
  c_interval : Z;
  c_max_shots : Z;
  c_pc : start_pc
}.

Definition at_line (c : start_call) (p : start_pc) : start_call :=
  {| c_data := c_data c; c_interval := c_interval c;
     c_max_shots := c_max_shots c; c_pc := p |}.

Definition new_call (data : request) : start_call :=
  {| c_data := data; c_interval := 0; c_max_shots := 0; c_pc := L343 |}.

(** [Thread.start()] on the object the global refers to: a thread can be
    started once only. *)
Definition start_thread (st : state) : option state :=
  match timelapse_thread st with
  | None => None
  | Some t =>
      match nth_error (threads st) t with
      | Some w =>
          match w_pc w with
          | Created =>
              Some {| threads := set_nth t (goto w AtWhile) (threads st);
                      timelapse_thread := timelapse_thread st;
                      timelapse_stop := timelapse_stop st;
                      dir := dir st |}
          | _ => None
          end
      | None => None
      end
  end.

(** One line of a call in flight. *)
Definition start_step (st : state) (c : start_call) : state * start_call :=
  match c_pc c with
  | L343 =>
      if running st then (st, at_line c (Replied AlreadyRunning))
      else (st, at_line c L345)
  | L345 =>
      match shots_for (c_data c) with
      | None => (st, at_line c (Replied ServerError))
      | Some max_shots =>
          (st, {| c_data := c_data c;
                  c_interval := clamp_interval (c_data c);
                  c_max_shots := max_shots;
                  c_pc := L349 |})
      end
  | L349 =>
      ({| threads := threads st; timelapse_thread := timelapse_thread st;
          timelapse_stop := false; dir := dir st |}, at_line c L350)
  | L350 =>
      ({| threads :=
            threads st ++ [new_worker (c_interval c) (c_max_shots c) Created];
          timelapse_thread := Some (List.length (threads st));
          timelapse_stop := timelapse_stop st; dir := dir st |},
       at_line c L351)
  | L351 =>
      match start_thread st with
      | Some st' => (st', at_line c L352)
      | None => (st, at_line c (Replied ServerError))
      end
  | L352 => (st, at_line c (Replied (Started (c_interval c))))
  | Replied _ => (st, c)
  end.

(** A call run for [n] lines with nothing in between. *)
Fixpoint start_steps (n : nat) (st : state) (c : start_call)
  : state * start_call :=
  match n with
  | O => (st, c)
  | S n' => let '(st', c') := start_step st c in start_steps n' st' c'
  end.

Record server := {
  globals : state;
  calls : list start_call       (* the calls of timelapse_start so far *)
}.

(** What the scheduler can pick next. *)
Inductive choice :=
| Arrive (data : request)              (* a POST /api/timelapse/start comes in *)
| Line (i : nat)                       (* call [i] executes its next line *)
| StopReq                              (* a POST /api/timelapse/stop, whole *)
| Work (t : nat) (c : capture).        (* worker thread [t] takes a step *)

Definition schedule_step (sv : server) (ch : choice) : server :=
  match ch with
  | Arrive data =>
      {| globals := globals sv; calls := calls sv ++ [new_call data] |}
  | Line i =>
      match nth_error (calls sv) i with
      | Some c =>
          let '(st', c') := start_step (globals sv) c in
          {| globals := st'; calls := set_nth i c' (calls sv) |}
      | None => sv
      end
  | StopReq =>
      {| globals := snd (timelapse_stop_route (globals sv));
         calls := calls sv |}
  | Work t c =>
      {| globals := fst (tick (globals sv) t c); calls := calls sv |}
  end.

Definition schedule (sv : server) (chs : list choice) : server :=
  fold_left schedule_step chs sv.

Definition boot : server := {| globals := init; calls := [] |}.

Definition replies (sv : server) : list start_pc := map c_pc (calls sv).

(** *** Predicates of the statements *)

(** A flag that is never set. *)
Definition never : nat -> bool := fun _ => false.

(** Every live worker is the one the global refers to. *)
Definition current_only (st : state) : Prop :=
  forall (t : nat) (w : worker),
    nth_error (threads st) t = Some w -> is_alive w = true ->
    timelapse_thread st = Some t.


(** What a worker can still do once the flag is set: the steps it needs
    to return, and the sleeps and captures it can still complete. *)
Definition steps_left (p : pc) : nat :=
  match p with
  | InSleep _ | InCapture => 3
  | AtFor _ => 2
  | AtWhile => 1
  | Created | Returned => 0
  end.

Definition sleeps_left (p : pc) : nat :=
  match p with InSleep _ => 1 | _ => 0 end.

Definition shots_left (p : pc) : nat :=
  match p with InCapture => 1 | _ => 0 end.

(** Thread [t] is on its way out: it has returned, or it is the current
    thread, alive, with the flag set. *)
Definition draining (t : nat) (st : state) (w : worker) : Prop :=
  nth_error (threads st) t = Some w /\
  (w_pc w = Returned \/
   (timelapse_thread st = Some t /\ timelapse_stop st = true /\
    is_alive w = true)).

(** A call of [timelapse_start] that has not passed its guard, or has
    replied: it has no write still to make. *)
Definition at_guard (c : start_call) : bool :=
  match c_pc c with
  | L343 | Replied _ => true
  | _ => false
  end.

(** The same on the threaded server: while the thread is alive, no call
    of [timelapse_start] stands between its guard and its last line. *)
Definition draining_unraced (t : nat) (sv : server) (w : worker) : Prop :=
  nth_error (threads (globals sv)) t = Some w /\
  (w_pc w = Returned \/
   (timelapse_thread (globals sv) = Some t /\
    timelapse_stop (globals sv) = true /\
    is_alive w = true /\
    forallb at_guard (calls sv) = true)).

Definition is_work (t : nat) (ch : choice) : bool :=
  match ch with Work t' _ => Nat.eqb t' t | _ => false end.

(** The steps thread [t] takes in a schedule. *)
Definition works_of (t : nat) (chs : list choice) : nat :=
  List.length (filter (is_work t) chs).

End Timelapse.

(** ** Whole runs of the camera stream generator *)

Module DemuxRuns.
Import PyBytes Demux.

(** What the loop reads before it ends: the chunks up to the first empty
    one, joined. *)
Fixpoint stream (cs : list bytes) : bytes :=
  match cs with
  | [] => []
  | [] :: _ => []
  | c :: rest => c ++ stream rest
  end.

(** The local [buf] when the loop ends. *)
Fixpoint buffer_after (buf : bytes) (cs : list bytes) : bytes :=
  match cs with
  | [] => buf
  | [] :: _ => buf
  | c :: rest => buffer_after (snd (feed buf c)) rest
  end.

(** A byte string delivered one byte per read. *)
Definition byte_chunks (b : bytes) : list bytes := map (fun x => [x]) b.

(** The generator of one request iterated to exhaustion over the reads
    [cs]: every part it yields. *)
Definition parts (cs : list bytes) : list bytes :=
  drain (S (List.length cs)) (fresh (map Chunk cs)).

(** The first end marker of the buffer has no start marker in front of
    it. *)
Definition stale_end (b : bytes) : Prop :=
  (find b EOI <> -1 /\ (find b SOI = -1 \/ find b EOI < find b SOI))%Z.

End DemuxRuns.

(** ** Whole runs of the timelapse worker *)

Module TimelapseRuns.
Import Timelapse.
Local Open Scope Z_scope.

(** A worker of a job bounded by [m] shots that has not overdrawn its
    limit: the counter is within the limit, and strictly below it while a
    capture is in flight (the counter is incremented after the capture,
    line 324). *)
Definition within_limit (m : Z) (w : worker) : Prop :=
  0 < m /\ w_max_shots w = m /\
  w_count w <= m /\
  (w_pc w = InCapture -> w_count w < m).

Definition is_start (a : action) : bool :=
  match a with ReqStart _ => true | _ => false end.

(** An entry that does not stop the loop of [timelapse_clear]: it is no
    [.jpg] entry, or its [unlink()] succeeds. *)
Definition removable (ok : file -> bool) (f : file) : bool :=
  negb (is_jpg f) || ok f.

(** No start request among the actions. *)
Definition no_start (acts : list action) : bool :=
  forallb (fun a => negb (is_start a)) acts.

End TimelapseRuns.

(** ** Python text *)

(** A Python [str] is a [string] whose characters are the code points
    below 256. *)
Module PyStr.

(** [c.isspace()]: the code points 9-13, 28-32, 133 and 160. *)
Definition is_space (c : ascii) : bool :=
  let n := nat_of_ascii c in
  ((9 <=? n) && (n <=? 13)) || ((28 <=? n) && (n <=? 32))
  || (n =? 133) || (n =? 160).

(** [s.lstrip()] *)
Fixpoint lstrip (s : string) : string :=
  match s with
  | EmptyString => EmptyString
  | String c s' => if is_space c then lstrip s' else s
  end.

(** [s.rstrip()] *)
Fixpoint rstrip (s : string) : string :=
  match s with
  | EmptyString => EmptyString
  | String c s' =>
      match rstrip s' with
      | EmptyString => if is_space c then EmptyString else String c EmptyString
      | r => String c r
      end
  end.

(** [s.strip()] *)
Definition strip (s : string) : string := rstrip (lstrip s).

Definition starts_word (s : string) : bool :=
  match s with
  | EmptyString => false
  | String c _ => negb (is_space c)
  end.

(** [s.split()]: the maximal runs of characters that are not white
    space. *)
Fixpoint split_ws (s : string) : list string :=
  match s with
  | EmptyString => []
  | String c s' =>
      if is_space c then split_ws s'
      else if starts_word s'
           then match split_ws s' with
                | w :: ws => String c w :: ws
                | [] => [String c EmptyString]
                end
           else String c EmptyString :: split_ws s'
  end.

(** No white space in [w]. *)
Fixpoint no_space (w : string) : bool :=
  match w with
  | EmptyString => true
  | String c w' => negb (is_space c) && no_space w'
  end.

(** [tl] is empty or begins with white space: a word can end in front of
    it. *)
Definition word_end (tl : string) : bool := negb (starts_word tl).

(** [s.startswith(p)] *)
Fixpoint starts_with (p s : string) : bool :=
  match p, s with
  | EmptyString, _ => true
  | String _ _, EmptyString => false
  | String a p', String b s' => Ascii.eqb a b && starts_with p' s'
  end.

(** [s[n:]] for [n >= 0] *)
Fixpoint drop (n : nat) (s : string) : string :=
  match n, s with
  | O, _ => s
  | S _, EmptyString => EmptyString
  | S n', String _ s' => drop n' s'
  end.

(** [sep in s] *)
Fixpoint occurs (sep s : string) : bool :=
  starts_with sep s ||
  match s with
  | EmptyString => false
  | String _ s' => occurs sep s'
  end.

(** [s.split(sep, 1)] when [sep] occurs in [s]: what is in front of the
    first occurrence and what is behind it; [None] when [sep in s] is
    false. *)
Fixpoint split_once (sep s : string) : option (string * string) :=
  if starts_with sep s then Some (EmptyString, drop (String.length sep) s)
  else match s with
       | EmptyString => None
       | String c s' =>
           match split_once sep s' with
           | Some (a, b) => Some (String c a, b)
           | None => None
           end
       end.

(** [s.replace(old, new)] for a non-empty [old]; [skip] characters of an
    occurrence just replaced are still to be passed over. *)
Fixpoint replace_from (old new s : string) (skip : nat) : string :=
  match s with
  | EmptyString => EmptyString
  | String c s' =>
      match skip with
      | S k => replace_from old new s' k
      | O =>
          if starts_with old s
          then (new ++ replace_from old new s' (String.length old - 1))%string
          else String c (replace_from old new s' 0)
      end
  end.

Definition replace (old new s : string) : string := replace_from old new s 0.

Definition newline : ascii := "010"%char.

(** [s.split('\n')] *)
Fixpoint split_nl (s : string) : list string :=
  match s with
  | EmptyString => [EmptyString]
  | String c s' =>
      match split_nl s' with
      | l :: ls =>
          if Ascii.eqb c newline then EmptyString :: l :: ls
          else String c l :: ls
      | [] => []
      end
  end.

(** ['\n'.join(ls)] *)
Fixpoint join_nl (ls : list string) : string :=
  match ls with
  | [] => EmptyString
  | [l] => l
  | l :: rest => (l ++ String newline (join_nl rest))%string
  end.

(** [l[lo:]] on a list, for any integer [lo]: a negative bound counts from
    the end. *)
Definition list_from {A} (l : list A) (lo : Z) : list A :=
  skipn (Z.to_nat (PyBytes.clip (Z.of_nat (List.length l)) lo)) l.

(** [str(z)] *)
Definition str_of_int (z : Z) : string :=
  DecimalString.NilZero.string_of_int (Z.to_int z).

Fixpoint last_char (s : string) : option ascii :=
  match s with
  | EmptyString => None
  | String c EmptyString => Some c
  | String _ s' => last_char s'
  end.

End PyStr.

(** ** The other handlers of the server *)

Module Server.
Import PyStr.
Local Open Scope Z_scope.

(** *** [run_cmd] *)

(** What [subprocess.run] does with a command: it exits, or it raises
    (missing binary, timeout). *)
Inductive proc_result :=
| Exited (stdout stderr : string) (code : Z)
| Raised.

Definition run_cmd (r : proc_result) : option string * string * Z :=
  match r with
  | Exited out err code => (Some (strip out), strip err, code)
  | Raised => (None, "error"%string, 1)
  end.

(** Truth value of an optional string: [None] and [''] are false. *)
Definition truthy_str (o : option string) : bool :=
  match o with
  | Some s => negb (s =? "")%string
  | None => false
  end.

(** *** [terminal] *)

Definition allowed : list string :=
  ["ls"; "pwd"; "date"; "uptime"; "df"; "free"; "echo"; "hostname"; "uname";
   "vcgencmd"]%string.

Definition mem_str (s : string) (l : list string) : bool :=
  existsb (String.eqb s) l.

Inductive terminal_response :=
| NotAllowed                                         (* 403 *)
| Output (out : option string) (err : option string)
| TerminalError.                                     (* IndexError: 500 *)

(** The handler, given the shell: its answer and the commands it handed to
    the shell. [command] is the body's ['command'] key, if present. *)
Definition terminal (sh : string -> proc_result) (command : option string)
  : terminal_response * list string :=
  let cmd := strip (match command with Some c => c | None => ""%string end) in
  if (cmd =? "")%string then (NotAllowed, [])
  else match split_ws cmd with
       | [] => (TerminalError, [])
       | w :: _ =>
           if negb (mem_str w allowed) then (NotAllowed, [])
           else let '(out, err, code) := run_cmd (sh cmd) in
                (Output out (if code =? 0 then None else Some err), [cmd])
       end.

(** *** The address in [info], [play_announcement] and [announce_ready] *)

(** [out.split()[0] if out else fallback] on the output of [hostname -I];
    [None] is the [IndexError] of an empty split. *)
Definition first_address (r : proc_result) (fallback : string) : option string :=
  let '(out, _, _) := run_cmd r in
  if truthy_str out
  then match out with
       | Some o => hd_error (split_ws o)
       | None => None
       end
  else Some fallback.

(** *** [pisugar] *)

(** [reply] is what [s.recv(1024).decode()] gives, or [None] when the
    exchange with the battery daemon raises. *)
Definition pisugar (reply : option string) : option string :=
  match reply with
  | None => None
  | Some raw =>
      let r := strip raw in
      match split_once ": " r with
      | Some (_, v) => Some v
      | None => Some r
      end
  end.

(** *** [log_read] *)

Definition LOG_SOURCES : list (string * list string) :=
  [("syslog", ["journalctl"; "-n"; "{lines}"; "--no-pager"]);
   ("dmesg", ["dmesg"; "--human"; "-T"]);
   ("auth", ["journalctl"; "-u"; "ssh"; "-n"; "{lines}"; "--no-pager"]);
   ("pi-control-center",
    ["journalctl"; "-u"; "pi-control-center"; "-n"; "{lines}"; "--no-pager"]);
   ("kernel", ["journalctl"; "-k"; "-n"; "{lines}"; "--no-pager"])]%string.

Fixpoint assoc {V} (k : string) (l : list (string * V)) : option V :=
  match l with
  | [] => None
  | (k', v) :: l' => if (k =? k')%string then Some v else assoc k l'
  end.

(** A query argument read with [int(...)]: absent, an integer, or text
    that [int] rejects. *)
Inductive int_arg := NoArg | IntArg (z : Z) | BadArg.

Inductive log_response :=
| UnknownSource                                   (* 400 *)
| LogError                                        (* ValueError: 500 *)
| Log (source : string) (lines : Z) (content : string).

(** [a or b] on strings *)
Definition or_str (a : option string) (b : string) : string :=
  match a with
  | Some s => if (s =? "")%string then b else s
  | None => b
  end.

(** Line 399: the last [lines] lines of [out]. *)
Definition tail_lines (out : string) (lines : Z) : string :=
  join_nl (list_from (split_nl out) (- lines)).

Definition log_read (sys : list string -> proc_result)
           (source : option string) (lines : int_arg)
  : log_response * list (list string) :=
  let source := match source with Some s => s | None => "syslog"%string end in
  match lines with
  | BadArg => (LogError, [])
  | _ =>
      let lines := Z.min (match lines with IntArg z => z | _ => 100 end) 1000 in
      match assoc source LOG_SOURCES with
      | None => (UnknownSource, [])
      | Some template =>
          let cmd := map (replace "{lines}" (str_of_int lines)) template in
          let '(out, err, code) := run_cmd (sys cmd) in
          let out :=
            if (source =? "dmesg")%string && truthy_str out
            then match out with
                 | Some o => Some (tail_lines o lines)
                 | None => None
                 end
            else out in
          (Log source lines
               (or_str out (or_str (Some err) "No logs available"%string)),
           [cmd])
      end
  end.

(** *** JSON values and dictionaries *)

(** A JSON value whose numbers are integers. *)
#[warnings="-register-all"]
Inductive json :=
| JNull
| JBool (b : bool)
| JInt (z : Z)
| JStr (s : string)
| JList (l : list json)
| JObj (l : list (string * json)).

(** [bool(v)] *)
Definition truthy (v : json) : bool :=
  match v with
  | JNull => false
  | JBool b => b
  | JInt z => negb (z =? 0)
  | JStr s => negb (s =? "")%string
  | JList l => match l with [] => false | _ => true end
  | JObj l => match l with [] => false | _ => true end
  end.

(** A [dict] with string keys: its items in insertion order. *)
Definition dict := list (string * json).

(** [k in d] *)
Definition dict_mem (k : string) (d : dict) : bool :=
  match assoc k d with Some _ => true | None => false end.

(** [d[k] = v]: the value is replaced where the key stands, a new key goes
    to the end. *)
Fixpoint dict_set (d : dict) (k : string) (v : json) : dict :=
  match d with
  | [] => [(k, v)]
  | (k', v') :: d' =>
      if (k =? k')%string then (k', v) :: d' else (k', v') :: dict_set d' k v
  end.

(** [d.update(other)] *)
Definition dict_update (d other : dict) : dict :=
  fold_left (fun acc kv => dict_set acc (fst kv) (snd kv)) other d.

Definition keys (d : dict) : list string := map fst d.

(** *** Settings: [load_config], [save_config], [get_settings],
    [update_settings] *)

(** An element of a JSON array, by what [dict.update] makes of it. It
    takes an element for a key and a value when the element has exactly
    two members: an array of two elements, a text of two characters (the
    characters), an object of two keys (the keys, in order); the key must
    be hashable. Any other element makes it raise. The settings are
    modelled with text keys, so an array holding a pair whose key is a
    number, [true], [false] or [null] is left out. *)
Inductive element :=
| PairOf (k : string) (v : json)     (* ["k", v] *)
| Chars (a b : ascii)                (* "ab" *)
| Keys (k1 k2 : string)              (* {"k1": ..., "k2": ...} *)
| NoPair.                            (* a number, true, false, null; an array,
                                        text or object of another size; a
                                        pair whose key is an array or object *)

Definition pair_of (e : element) : option (string * json) :=
  match e with
  | PairOf k v => Some (k, v)
  | Chars a b => Some (String a EmptyString, JStr (String b EmptyString))
  | Keys k1 k2 => Some (k1, JStr k2)
  | NoPair => None
  end.

(** The pairs [d.update(l)] stores for a JSON array [l] before it returns
    or raises: those of the elements in front of the first one that is no
    pair. *)
Fixpoint applied (l : list element) : dict :=
  match l with
  | [] => []
  | e :: l' =>
      match pair_of e with
      | Some kv => kv :: applied l'
      | None => []
      end
  end.

(** [d.update(l)] for a JSON array [l], whether it returns or raises: the
    pairs are stored one after the other, and what was stored before an
    exception stays. *)
Fixpoint update_pairs (d : dict) (l : list element) : dict :=
  match l with
  | [] => d
  | e :: l' =>
      match pair_of e with
      | Some (k, v) => update_pairs (dict_set d k v) l'
      | None => d
      end
  end.

(** [CONFIG_FILE]: missing; holding a JSON object; holding a JSON array;
    holding another JSON value (text, a number, [true], [false], [null]),
    on which [update] stores nothing; or anything that makes [open] or
    [json.load] fail (unreadable, not JSON). *)
Inductive config_file :=
| NoFile
| FileWith (cfg : dict)
| FileWithArray (l : list element)
| FileWithScalar
| Unreadable.

Definition defaults : dict :=
  [("announcement_enabled"%string, JBool true);
   ("autostart_enabled"%string, JBool true)].

(** The [try] of [load_config] covers [update]: an exception in the
    middle of it is swallowed, what it has stored by then is returned. *)
Definition load_config (f : config_file) : dict :=
  match f with
  | FileWith cfg => dict_update defaults cfg
  | FileWithArray l => update_pairs defaults l
  | NoFile | FileWithScalar | Unreadable => defaults
  end.

(** [save_config]; [can_write] tells whether [open(CONFIG_FILE, 'w')]
    succeeds. *)
Definition save_config (can_write : bool) (cfg : dict) (f : config_file)
  : bool * config_file :=
  if can_write then (true, FileWith cfg) else (false, f).

(** [get_settings], given what [systemctl is-enabled] does. *)
Definition get_settings (f : config_file) (is_enabled : proc_result) : dict :=
  let cfg := load_config f in
  let '(_, _, code) := run_cmd is_enabled in
  dict_set cfg "autostart_enabled" (JBool (code =? 0)).

(** The [systemctl] calls of [update_settings]. *)
Inductive systemctl := Enable | Disable.

Record settings_reply := {
  sr_success : bool;
  sr_settings : dict
}.

Definition update_settings (data : dict) (can_write : bool) (f : config_file)
  : settings_reply * config_file * list systemctl :=
  let cfg := load_config f in
  let cfg :=
    match assoc "announcement_enabled" data with
    | Some v => dict_set cfg "announcement_enabled" (JBool (truthy v))
    | None => cfg
    end in
  let '(cfg, calls) :=
    match assoc "autostart_enabled" data with
    | Some v =>
        let enabled := truthy v in
        (dict_set cfg "autostart_enabled" (JBool enabled),
         [if enabled then Enable else Disable])
    | None => (cfg, [])
    end in
  let '(_, f') := save_config can_write cfg f in
  ({| sr_success := true; sr_settings := cfg |}, f', calls).

(** A dictionary that begins with the two default keys, in their order,
    and repeats no key. *)
Definition settings_shaped (d : dict) : Prop :=
  exists (a b : json) (rest : dict),
    d = ("announcement_enabled"%string, a)
          :: ("autostart_enabled"%string, b) :: rest /\
    NoDup (keys d).

(** *** GPIO *)

(** The module global [gpio_state]: pin numbers and what was last stored
    for them, in insertion order. *)
Definition gpio := list (Z * json).

Definition gpio_state : gpio :=
  [(17, JBool false); (27, JBool false); (22, JBool false); (23, JBool false)].

Definition pins (g : gpio) : list Z := map fst g.

(** A JSON value used as a dictionary key: the integer it compares equal
    to, if any; [None] for a value that cannot be hashed. *)
Definition key_of (v : json) : option (option Z) :=
  match v with
  | JInt z => Some (Some z)
  | JBool b => Some (Some (if b then 1 else 0))
  | JNull | JStr _ => Some None
  | JList _ | JObj _ => None
  end.

Fixpoint gpio_get (g : gpio) (p : Z) : option json :=
  match g with
  | [] => None
  | (q, v) :: g' => if p =? q then Some v else gpio_get g' p
  end.

(** [gpio_state[p] = v] for a pin that is a key. *)
Fixpoint gpio_assign (g : gpio) (p : Z) (v : json) : gpio :=
  match g with
  | [] => [(p, v)]
  | (q, w) :: g' => if p =? q then (q, v) :: g' else (q, w) :: gpio_assign g' p v
  end.

Inductive gpio_response :=
| GpioOk                                  (* {'success': True} *)
| GpioSet (pin state : json)              (* success with pin and state *)
| BadPin                                  (* 400 *)
| GpioError.                              (* TypeError: 500 *)

(** [gpio_set]; [d] is the JSON body. *)
Definition gpio_set (g : gpio) (d : dict) : gpio_response * gpio :=
  let pin := match assoc "pin" d with Some v => v | None => JNull end in
  let state := match assoc "state" d with Some v => v | None => JBool false end in
  match key_of pin with
  | None => (GpioError, g)
  | Some None => (BadPin, g)
  | Some (Some p) =>
      match gpio_get g p with
      | None => (BadPin, g)
      | Some _ => (GpioSet pin state, gpio_assign g p state)
      end
  end.

Definition gpio_blink (g : gpio) : gpio_response * gpio := (GpioOk, g).

Definition gpio_off (g : gpio) : gpio_response * gpio :=
  (GpioOk, map (fun pv => (fst pv, JBool false)) g).

Inductive gpio_request := SetPin (d : dict) | Blink | Off.

Definition gpio_handle (g : gpio) (r : gpio_request) : gpio :=
  match r with
  | SetPin d => snd (gpio_set g d)
  | Blink => snd (gpio_blink g)
  | Off => snd (gpio_off g)
  end.

End Server.

(** ** The file browser listing and the audio handlers *)

Module Files.
Import PyStr Server.

(** What the path of an entry leads to. *)
Inductive kind := Directory | Regular | Special.

(** What [stat()] on an entry gives: the kind, size and modification time
    of what the path leads to; [Gone] when nothing is there (a link whose
    target is missing); [Refused] when the system refuses the call (no
    search permission on the directory, for one). *)
Inductive stat_result :=
| Found (k : kind) (size mtime : Z)
| Gone
| Refused.

(** One entry of [p.iterdir()] with what the file system says about it. *)
Record entry := {
  e_name : string;
  e_stat : stat_result
}.

(** [item.is_dir()] and [item.is_file()], as in [pathlib] of Python 3.11:
    [stat()] and a test of the kind. A missing target counts as "no"; any
    other error of [stat()] is raised, which is [None] here. *)
Definition is_dir (e : entry) : option bool :=
  match e_stat e with
  | Found Directory _ _ => Some true
  | Found _ _ _ => Some false
  | Gone => Some false
  | Refused => None
  end.

Definition is_file (e : entry) : option bool :=
  match e_stat e with
  | Found Regular _ _ => Some true
  | Found _ _ _ => Some false
  | Gone => Some false
  | Refused => None
  end.

(** One item of the answer. *)
Inductive item :=
| Item (name path : string) (is_dir : bool) (size : option Z)
       (modified : string)
| Denied (name path : string) (is_dir : bool).

Definition item_name (i : item) : string :=
  match i with Item n _ _ _ _ | Denied n _ _ => n end.

Definition item_is_dir (i : item) : bool :=
  match i with Item _ _ d _ _ | Denied _ _ d => d end.

(** [k1 <= k2] on the tuples of the sort key: [False] before [True], then
    the texts in code point order. *)
Definition key_le (k1 k2 : bool * string) : bool :=
  match fst k1, fst k2 with
  | false, true => true
  | true, false => false
  | _, _ => (snd k1 <=? snd k2)%string
  end.

(** An entry with its sort key. *)
Definition keyed : Type := (bool * string) * entry.

(** The key says "a directory": its first component is "not a
    directory". *)
Definition dir_key (a : keyed) : bool := negb (fst (fst a)).

(** Insertion into a list in ascending order of the key: [x] goes in
    front of the first entry whose key is not smaller. *)
Fixpoint insert_asc (x : keyed) (l : list keyed) : list keyed :=
  match l with
  | [] => [x]
  | g :: l' =>
      if key_le (fst x) (fst g) then x :: g :: l' else g :: insert_asc x l'
  end.

(** The sort of [sorted] on entries that carry their keys: entries with
    equal keys keep their order. *)
Definition sort_keyed (l : list keyed) : list keyed :=
  fold_right insert_asc [] l.

(** Every element of a list of optional values, if none is missing. *)
Fixpoint all_some {A} (l : list (option A)) : option (list A) :=
  match l with
  | [] => Some []
  | None :: _ => None
  | Some x :: l' =>
      match all_some l' with
      | Some r => Some (x :: r)
      | None => None
      end
  end.

Section Listing.
(** [str.lower]; the text of the path of an entry, [str(item)]; and
    [datetime.fromtimestamp(t).isoformat()], which raises ([None]) on a
    time outside the years it can represent. *)
Variable lower : string -> string.
Variable path_of : string -> string.
Variable iso : Z -> option string.

(** The sort key of line 247, [(not x.is_dir(), x.name.lower())]; [None]
    when [is_dir()] raises. *)
Definition key (e : entry) : option (bool * string) :=
  match is_dir e with
  | Some d => Some (negb d, lower (e_name e))
  | None => None
  end.

Definition with_key (e : entry) : option keyed :=
  match key e with
  | Some k => Some (k, e)
  | None => None
  end.

(** [sorted(entries, key=...)]: the key of every entry is computed
    first, and an exception in one of them ends the call. *)
Definition sorted_by_key (l : list entry) : option (list entry) :=
  match all_some (map with_key l) with
  | Some ks => Some (map snd (sort_keyed ks))
  | None => None
  end.

(** Lines 248-253 for one entry: the item, or [None] when the [except]
    clause itself raises. *)
Definition describe (e : entry) : option item :=
  match e_stat e with
  | Found k size mtime =>
      match is_dir e, is_file e, iso mtime with
      | Some d, Some f, Some t =>
          Some (Item (e_name e) (path_of (e_name e)) d
                     (if f then Some size else None) t)
      | Some d, _, _ => Some (Denied (e_name e) (path_of (e_name e)) d)
      | None, _, _ => None
      end
  | Gone | Refused =>
      match is_dir e with
      | Some d => Some (Denied (e_name e) (path_of (e_name e)) d)
      | None => None
      end
  end.

(** What [path] resolves to: nothing, something that is not a directory,
    a directory with its entries in [iterdir] order, or a directory that
    cannot be read. *)
Inductive target :=
| Missing
| NotDir
| Dir (entries : list entry)
| Unreadable.

(** The answer; of a listing, its items (the fields [path] and [parent]
    of the answer are left out). *)
Inductive list_response :=
| NotFound                        (* 404 *)
| NotADir                         (* 400 *)
| Listing (items : list item)
| ListError.                      (* 500 *)

Definition files_list (t : target) : list_response :=
  match t with
  | Missing => NotFound
  | NotDir => NotADir
  | Dir entries =>
      match sorted_by_key entries with
      | Some shown =>
          match all_some (map describe shown) with
          | Some items => Listing items
          | None => ListError
          end
      | None => ListError
      end
  | Unreadable => ListError
  end.

(** Two entries in key order. *)
Definition in_order (e g : entry) : Prop :=
  match key e, key g with
  | Some a, Some b => key_le a b = true
  | _, _ => False
  end.

End Listing.

(** The system refuses [stat()] on the entry. *)
Definition refused (e : entry) : bool :=
  match e_stat e with Refused => true | _ => false end.

(** Directories, then the rest. *)
Definition dirs_first (ds : list bool) : Prop :=
  exists n m : nat, ds = repeat true n ++ repeat false m.

End Files.

Module Audio.
Import PyStr Server.
Local Open Scope Z_scope.

(** [s[:n]] on text *)
Fixpoint take (n : nat) (s : string) : string :=
  match n, s with
  | O, _ => EmptyString
  | S _, EmptyString => EmptyString
  | S n', String c s' => String c (take n' s')
  end.

Inductive speak_response :=
| NoText                     (* 400 *)
| Spoken (text : string).    (* espeak-ng --stdout text *)

(** [audio_speak]; [text] is the body's ['text'] key, if present. *)
Definition audio_speak (text : option string) : speak_response :=
  let text := take 200 (match text with Some t => t | None => EmptyString end) in
  if (text =? "")%string then NoText else Spoken text.

(** [audio_vol]: the level handed to [amixer]; [volume] is the body's
    ['volume'] key, if present. *)
Definition audio_vol (volume : option Z) : Z :=
  Z.max 0 (Z.min 100 (match volume with Some v => v | None => 50 end)).

Definition audio_vol_command (volume : option Z) : list string :=
  ["amixer"; "-c"; "0"; "set"; "PCM";
   (str_of_int (audio_vol volume) ++ "%")%string]%string.

(** [audio_rec]: the duration handed to [arecord] and the timeout of the
    call. With [type=int] an argument that is not an integer counts as
    absent. *)
Definition audio_rec (duration : int_arg) : Z * Z :=
  let dur := Z.min (match duration with IntArg z => z | _ => 5 end) 30 in
  (dur, dur + 5).

End Audio.

(* ===================================================================== *)
(** * Part II: properties *)
(* ===================================================================== *)

(** ** Searching and slicing *)

Module PyBytesFacts.
Import PyBytes.
Local Open Scope Z_scope.

Lemma starts_with_split (sub b : bytes) :
  starts_with sub b = true -> b = sub ++ skipn (List.length sub) b.
Proof.
  revert b; induction sub as [|x sub IH]; intros [|y b] H; simpl in *;
    try reflexivity; try discriminate.
  apply andb_prop in H as [Hxy Hrest].
  apply byte_dec_bl in Hxy; subst y.
  f_equal; auto.
Qed.

Lemma starts_with_app (sub rest : bytes) : starts_with sub (sub ++ rest) = true.
Proof.
  induction sub as [|x sub IH]; simpl; [reflexivity|].
  rewrite IH, andb_true_r. now apply byte_dec_lb.
Qed.

(** Where [find_from] lands: at the first suffix that starts with [sub]. *)
Lemma find_from_found (sub b : bytes) (i r : Z) :
  find_from sub b i = r -> r <> -1 ->
  exists n : nat,
    r = i + Z.of_nat n /\ (n <= List.length b)%nat /\
    starts_with sub (skipn n b) = true /\
    forall m : nat, (m < n)%nat -> starts_with sub (skipn m b) = false.
Proof.
  revert i r; induction b as [|y b IH]; intros i r Hf Hr; simpl in Hf.
  - destruct (starts_with sub []) eqn:E; [|congruence].
    exists 0%nat; subst; simpl; repeat split; auto; try lia;
      intros m Hm; lia.
  - destruct (starts_with sub (y :: b)) eqn:E.
    + exists 0%nat; subst; simpl; repeat split; auto; try lia;
        intros m Hm; lia.
    + destruct (IH (i + 1) r Hf Hr) as (n & Hn & Hle & Hs & Hmin).
      exists (S n); simpl; repeat split; auto; try lia.
      intros [|m] Hm; simpl; [exact E | apply Hmin; lia].
Qed.

Lemma find_from_range (sub b : bytes) (i : Z) :
  find_from sub b i = -1 \/ i <= find_from sub b i <= i + len b.
Proof.
  revert i; induction b as [|y b IH]; intros i; simpl.
  - destruct (starts_with sub []); unfold len; simpl; lia.
  - destruct (starts_with sub (y :: b)).
    + unfold len; simpl List.length; lia.
    + destruct (IH (i + 1)) as [H|H]; [now left|right].
      unfold len in *; simpl List.length; lia.
Qed.

(** [b.find(sub)] is [-1] or the index of the first occurrence. *)
Lemma find_found (b sub : bytes) :
  find b sub <> -1 ->
  exists n : nat,
    find b sub = Z.of_nat n /\ (n <= List.length b)%nat /\
    starts_with sub (skipn n b) = true /\
    forall m : nat, (m < n)%nat -> starts_with sub (skipn m b) = false.
Proof.
  intros H. unfold find in *.
  destruct (find_from_found sub b 0 _ eq_refl H) as (n & Hn & Hrest).
  exists n; split; [lia | exact Hrest].
Qed.

(** An occurrence at [n] bounds [find] from above, and rules out [-1]. *)
Lemma find_from_le (sub b : bytes) (i : Z) (n : nat) :
  starts_with sub (skipn n b) = true -> (n <= List.length b)%nat ->
  i <= find_from sub b i <= i + Z.of_nat n.
Proof.
  revert i n; induction b as [|y b IH]; intros i n Hs Hn; simpl.
  - destruct n; [|simpl in Hn; lia]. simpl in Hs. rewrite Hs. lia.
  - destruct (starts_with sub (y :: b)) eqn:E; [lia|].
    destruct n as [|n]; [simpl in Hs; congruence|].
    simpl in Hs, Hn. specialize (IH (i + 1) n Hs). lia.
Qed.

Lemma skipn_length_le (b : bytes) (n : nat) :
  starts_with [xff; xd8] (skipn n b) = true \/
  starts_with [xff; xd9] (skipn n b) = true ->
  (n + 2 <= List.length b)%nat.
Proof.
  intros H.
  assert (Hl : (2 <= List.length (skipn n b))%nat).
  { destruct (skipn n b) as [|x [|y t]]; simpl in *; try lia;
      destruct H as [H|H]; try discriminate;
      rewrite andb_false_r in H; discriminate. }
  rewrite length_skipn in Hl. lia.
Qed.

Lemma clip_in_range (n i : Z) : 0 <= i <= n -> clip n i = i.
Proof. intros H. unfold clip. destruct (i <? 0) eqn:E; lia. Qed.

Lemma slice_in_range (b : bytes) (lo hi : nat) :
  (lo <= hi <= List.length b)%nat ->
  slice b (Z.of_nat lo) (Z.of_nat hi) = firstn (hi - lo) (skipn lo b).
Proof.
  intros H. unfold slice, len.
  rewrite !clip_in_range by lia.
  rewrite Nat2Z.id. f_equal. lia.
Qed.

Lemma slice_from_in_range (b : bytes) (lo : nat) :
  (lo <= List.length b)%nat -> slice_from b (Z.of_nat lo) = skipn lo b.
Proof.
  intros H. unfold slice_from, len.
  rewrite clip_in_range by lia. now rewrite Nat2Z.id.
Qed.

(** Cutting a list at two indices. *)
Lemma split_at_two (b : bytes) (lo hi : nat) :
  (lo <= hi)%nat ->
  b = firstn lo b ++ firstn (hi - lo) (skipn lo b) ++ skipn hi b.
Proof.
  intros H.
  rewrite <- (firstn_skipn lo b) at 1. f_equal.
  rewrite <- (firstn_skipn (hi - lo) (skipn lo b)) at 1. f_equal.
  rewrite skipn_skipn. f_equal. lia.
Qed.

End PyBytesFacts.

(** ** The camera stream generator *)

Module DemuxSpec.
Import PyBytes PyBytesFacts Demux.
Local Open Scope Z_scope.

(** *** One pass of the loop *)

Lemma frame_ready_true (b : bytes) :
  frame_ready b = true <->
  find b SOI <> -1 /\ find b EOI <> -1 /\ find b EOI > find b SOI.
Proof.
  unfold frame_ready. rewrite !andb_true_iff, !negb_true_iff.
  rewrite !Z.eqb_neq, Z.gtb_gt. tauto.
Qed.

(** When the test of line 134 fails nothing is yielded and the buffer is
    kept whole. *)
Lemma feed_waits (buf c : bytes) :
  frame_ready (buf ++ c) = false -> feed buf c = (None, buf ++ c).
Proof. intros H. unfold feed. now rewrite H. Qed.

(** An end marker cannot sit on the second byte of a start marker. *)
Lemma markers_apart (b : bytes) (s e : nat) :
  starts_with SOI (skipn s b) = true ->
  starts_with EOI (skipn e b) = true ->
  (s < e)%nat -> (s + 2 <= e)%nat.
Proof.
  intros Hs He Hlt.
  destruct (Nat.eq_dec e (S s)) as [->|Hne]; [exfalso|lia].
  apply starts_with_split in Hs. simpl in Hs.
  assert (E : skipn (S s) b = skipn 1 (skipn s b))
    by (rewrite skipn_skipn; f_equal; lia).
  rewrite E, Hs in He. simpl in He. discriminate.
Qed.

(** The frame cut out between a start marker at [s] and an end marker at
    [e]: the two markers with the bytes between them. *)
Lemma frame_between (b : bytes) (s e : nat) :
  starts_with SOI (skipn s b) = true ->
  starts_with EOI (skipn e b) = true ->
  (s + 2 <= e)%nat ->
  firstn (e + 2 - s) (skipn s b)
  = SOI ++ firstn (e - (s + 2)) (skipn (s + 2) b) ++ EOI.
Proof.
  intros Hs He Hle.
  pose proof (skipn_length_le b e (or_intror He)) as Hlen.
  apply starts_with_split in Hs, He. simpl List.length in Hs, He.
  assert (E1 : skipn 2 (skipn s b) = skipn (s + 2) b)
    by (rewrite skipn_skipn; f_equal; lia).
  assert (E2 : skipn (e - (s + 2)) (skipn (s + 2) b) = skipn e b)
    by (rewrite skipn_skipn; f_equal; lia).
  rewrite E1 in Hs.
  rewrite Hs.
  replace (e + 2 - s)%nat with (2 + (e - s))%nat by lia.
  change (firstn (2 + (e - s)) (SOI ++ skipn (s + 2) b))
    with (SOI ++ firstn (e - s) (skipn (s + 2) b)).
  f_equal.
  rewrite <- (firstn_skipn (e - (s + 2)) (skipn (s + 2) b)) at 1.
  rewrite firstn_app, E2.
  rewrite firstn_firstn, length_firstn, length_skipn.
  replace (Nat.min (e - s) (e - (s + 2))) with (e - (s + 2))%nat by lia.
  f_equal.
  replace (e - s - Nat.min (e - (s + 2)) (List.length b - (s + 2)))%nat
    with 2%nat by lia.
  rewrite He. reflexivity.
Qed.

(** What a pass does when the test of line 134 holds. After a chunk is
    appended, let [s] be the index of the
    first start marker 0xFFD8 of the buffer and [e] the index of the first
    end marker 0xFFD9 of the whole buffer. Whenever both exist and
    [e > s], the pass yields the slice from the start marker through the
    end marker inclusive and keeps exactly the bytes after the end marker:
    the bytes in front of the start marker are in neither. *)
Lemma feed_emits_between_first_markers (buf c : bytes) :
  let b := buf ++ c in
  find b SOI <> -1 -> find b EOI <> -1 -> find b EOI > find b SOI ->
  exists pre mid rest : bytes,
    b = pre ++ (SOI ++ mid ++ EOI) ++ rest /\
    len pre = find b SOI /\
    len pre + 2 + len mid = find b EOI /\
    feed buf c = (Some (SOI ++ mid ++ EOI), rest).
Proof.
  intros b Hs He Hgt.
  assert (Hready : frame_ready b = true) by (apply frame_ready_true; auto).
  destruct (find_found b SOI Hs) as (s & Es & Hsl & Hss & _).
  destruct (find_found b EOI He) as (e & Ee & Hel & Hes & _).
  assert (Hlt : (s < e)%nat) by lia.
  pose proof (markers_apart b s e Hss Hes Hlt) as Hap.
  pose proof (skipn_length_le b e (or_intror Hes)) as Hlen.
  exists (firstn s b), (firstn (e - (s + 2)) (skipn (s + 2) b)),
    (skipn (e + 2) b).
  rewrite <- (frame_between b s e Hss Hes Hap).
  assert (Hpre : len (firstn s b) = Z.of_nat s)
    by (unfold len; rewrite length_firstn; lia).
  assert (Hmid : len (firstn (e - (s + 2)) (skipn (s + 2) b))
                 = Z.of_nat (e - (s + 2))).
  { unfold len. rewrite length_firstn, length_skipn. lia. }
  repeat split.
  - apply split_at_two. lia.
  - lia.
  - rewrite Hpre, Hmid. lia.
  - unfold feed. fold b. rewrite Hready, Es, Ee.
    replace (Z.of_nat e + 2) with (Z.of_nat (e + 2)) by lia.
    rewrite slice_in_range by lia.
    rewrite slice_from_in_range by lia. reflexivity.
Qed.

Lemma feed_emits_between_first_markers_witness :
  let b := [x00; xff; xd8; x2a; xff; xd9; x07] in
  find b SOI = 1 /\ find b EOI = 4 /\
  exists pre mid rest : bytes,
    b = pre ++ (SOI ++ mid ++ EOI) ++ rest /\
    len pre = find b SOI /\
    len pre + 2 + len mid = find b EOI /\
    feed [x00; xff; xd8] [x2a; xff; xd9; x07]
    = (Some (SOI ++ mid ++ EOI), rest).
Proof.
  split; [reflexivity|]. split; [reflexivity|].
  apply (feed_emits_between_first_markers [x00; xff; xd8] [x2a; xff; xd9; x07]);
    vm_compute; congruence.
Defined.

(** In the buffer FF D9 FF D8 FF D9 the first start
    marker is at index 2 and an end marker follows it at index 4, yet the
    pass yields nothing and discards nothing, because the search of line
    133 for the end marker starts at the front of the buffer and finds the
    one at index 0. *)
Lemma feed_stale_end_marker :
  let b := [xff; xd9; xff; xd8; xff; xd9] in
  find b SOI = 2 /\
  starts_with EOI (skipn 4 b) = true /\
  find b EOI = 0 /\
  feed [] b = (None, b).
Proof. vm_compute. repeat split. Qed.

(** C3 on the code. The buffer holds a stray end marker FF D9 and then the
    complete well-formed frame FF D8 01 FF D9. The first start marker is at
    index 2 and the first end marker after it at index 5, so the step the
    claim describes emits the slice [2:7], the frame, and keeps nothing.
    The code searches the end marker from the front of the buffer (line
    133), finds the stray one at index 0, fails its test [e > s] and emits
    nothing; the stray marker is never dropped, so no later read changes
    that: fed two more frames, the generator still yields none. Two junk
    bytes that are no end marker, in the same place, are skipped and the
    frame is emitted: the code does look for the frame behind what comes
    before the start marker. *)
Theorem stale_end_marker_hides_frame :
  let f := [xff; xd8; x01; xff; xd9] in
  let b := [xff; xd9] ++ f in
  well_formed f = true /\
  (find b SOI = 2 /\ find_from EOI (skipn 2 b) 2 = 5 /\ slice b 2 (5 + 2) = f) /\
  find b EOI = 0 /\
  feed [] b = (None, b) /\
  feed [xff; xd9] f = (None, b) /\
  frames [] [b; f; f] = [] /\
  drain 4 (fresh [Chunk b; Chunk f; Chunk f]) = [] /\
  feed [] ([x00; x07] ++ f) = (Some f, []).
Proof. vm_compute. repeat split. Qed.

(** *** Whole streams *)

(** The frames function is the generator: iterating the generator over a
    script of chunks yields the multipart part of each frame of
    [frames]. *)
Lemma loop_frames (cs : list bytes) :
  forall (buf : bytes) (tr : list proc_event) (fuel : nat),
    (List.length cs <= fuel)%nat ->
    match loop buf (map Chunk cs) tr with
    | (Yield v, g') => v :: drain fuel g'
    | (_, _) => []
    end = map part (frames buf cs).
Proof.
  induction cs as [|c cs IH]; intros buf tr fuel Hfuel; [reflexivity|].
  destruct c as [|x c]; [reflexivity|].
  cbn [map loop frames]. unfold feed.
  destruct (frame_ready (buf ++ x :: c)) eqn:R.
  - cbn [map]. f_equal.
    destruct fuel as [|fuel]; [simpl in Hfuel; lia|].
    cbn [drain]. unfold gen_next. cbn [g_state g_reads g_trace].
    apply IH. simpl in Hfuel. lia.
  - apply IH. simpl in Hfuel. lia.
Qed.

Lemma drain_frames (cs : list bytes) :
  drain (S (List.length cs)) (fresh (map Chunk cs)) = map part (frames [] cs).
Proof.
  cbn [drain]. unfold gen_next, fresh. cbn [g_state g_reads g_trace].
  apply loop_frames. lia.
Qed.

(** A chunk gives at most one frame, however many it completes. *)
Lemma frames_le_chunks (cs : list bytes) :
  forall buf : bytes, (List.length (frames buf cs) <= List.length cs)%nat.
Proof.
  induction cs as [|c cs IH]; intros buf; [simpl; lia|].
  destruct c as [|x c]; [simpl; lia|].
  cbn [frames]. destruct (feed buf (x :: c)) as [[f|] buf'];
    specialize (IH buf'); simpl; lia.
Qed.

(** C2 at the single-chunk split. The stream made of the two well-formed
    frames FF D8 01 FF D9 and FF D8 02 FF D9, delivered by one read, gives
    one frame, the first: the loop tests the buffer once per read, the
    second frame stays in the buffer, and the next read is the end of the
    stream. *)
Theorem two_frames_in_one_chunk_give_one :
  let f1 := [xff; xd8; x01; xff; xd9] in
  let f2 := [xff; xd8; x02; xff; xd9] in
  well_formed f1 = true /\ well_formed f2 = true /\
  frames [] [f1 ++ f2] = [f1] /\
  drain 2 (fresh [Chunk (f1 ++ f2)]) = [part f1] /\
  snd (feed [] (f1 ++ f2)) = f2.
Proof. vm_compute. repeat split. Qed.

(** The same stream split into one-byte chunks gives both frames. *)
Example two_frames_byte_by_byte :
  let f1 := [xff; xd8; x01; xff; xd9] in
  let f2 := [xff; xd8; x02; xff; xd9] in
  frames [] (map (fun x => [x]) (f1 ++ f2)) = [f1; f2].
Proof. vm_compute. reflexivity. Qed.

(** *** Streams of well-formed frames *)

Lemma starts_with_firstn (sub l : bytes) (m : nat) :
  starts_with sub (firstn m l) = true -> starts_with sub l = true.
Proof.
  revert l m; induction sub as [|x sub IH]; intros l m H; [reflexivity|].
  destruct l as [|y l]; [now rewrite firstn_nil in H|].
  destruct m as [|m]; [discriminate|].
  cbn in *. apply andb_prop in H as [H1 H2].
  rewrite H1. cbn. eapply IH, H2.
Qed.

(** A prefix has no occurrence that the whole does not have. *)
Lemma find_prefix (f sub : bytes) (j : nat) :
  find (firstn j f) sub <> -1 ->
  find f sub <> -1 /\ find f sub <= find (firstn j f) sub.
Proof.
  intros H. destruct (find_found (firstn j f) sub H) as (n & En & Hn & Hs & _).
  rewrite length_firstn in Hn.
  assert (Hocc : starts_with sub (skipn n f) = true).
  { apply (starts_with_firstn sub (skipn n f) (j - n)).
    now rewrite <- skipn_firstn_comm. }
  pose proof (find_from_le sub f 0 n Hocc ltac:(lia)) as Hle.
  unfold find in *. lia.
Qed.

Lemma well_formed_inv (f : bytes) :
  well_formed f = true ->
  find f SOI = 0 /\ find f EOI = len f - 2 /\ 4 <= len f.
Proof.
  unfold well_formed. rewrite andb_true_iff, !Z.eqb_eq. intros [Hs He].
  repeat split; auto.
  assert (Hs' : find f SOI <> -1) by lia.
  destruct (find_found f SOI Hs') as (s & Es & _ & Hss & _).
  assert (s = 0%nat) by lia; subst s.
  pose proof (skipn_length_le f 0 (or_introl Hss)) as H2.
  destruct (Z.eq_dec (find f EOI) (-1)) as [E|E]; [unfold len in *; lia|].
  destruct (find_found f EOI E) as (e & Ee & _ & Hes & _).
  destruct e as [|e].
  - apply starts_with_split in Hss, Hes. cbn [skipn] in Hss, Hes.
    pose proof (eq_trans (eq_sym Hss) Hes) as X.
    unfold SOI, EOI in X. cbn [app] in X. inversion X.
  - pose proof (markers_apart f 0 (S e) Hss Hes ltac:(lia)). lia.
Qed.

(** While a well-formed frame is still incomplete in the buffer, nothing
    is yielded. *)
Lemma prefix_not_ready (f : bytes) (j : nat) :
  well_formed f = true -> (j < List.length f)%nat ->
  frame_ready (firstn j f) = false.
Proof.
  intros Hwf Hj. destruct (well_formed_inv f Hwf) as (_ & He & _).
  destruct (frame_ready (firstn j f)) eqn:R; [exfalso|reflexivity].
  apply frame_ready_true in R as (_ & R & _).
  destruct (find_prefix f EOI j R) as [_ Hle].
  destruct (find_found (firstn j f) EOI R) as (n & En & _ & Hs & _).
  pose proof (skipn_length_le (firstn j f) n (or_intror Hs)) as Hn.
  rewrite length_firstn in Hn. unfold len in *. lia.
Qed.

(** A complete well-formed frame alone in the buffer is yielded whole and
    leaves the buffer empty. *)
Lemma feed_whole_frame (buf c : bytes) :
  well_formed (buf ++ c) = true -> feed buf c = (Some (buf ++ c), []).
Proof.
  intros Hwf. destruct (well_formed_inv _ Hwf) as (Hs & He & Hlen).
  unfold feed.
  assert (R : frame_ready (buf ++ c) = true)
    by (apply frame_ready_true; lia).
  rewrite R, Hs, He.
  replace (len (buf ++ c) - 2 + 2) with (Z.of_nat (List.length (buf ++ c)))
    by (unfold len; lia).
  pose proof (slice_in_range (buf ++ c) 0 (List.length (buf ++ c))
                ltac:(lia)) as Hsl.
  change (Z.of_nat 0) with 0 in Hsl. rewrite Hsl.
  rewrite slice_from_in_range by lia.
  rewrite Nat.sub_0_r, skipn_all. cbn [skipn]. now rewrite firstn_all.
Qed.

(** Reads that end where frames end: every frame comes out. *)
Lemma frames_frame_by_frame (fs : list bytes) :
  Forall (fun f => well_formed f = true) fs -> frames [] fs = fs.
Proof.
  induction 1 as [|f fs Hwf _ IH]; [reflexivity|].
  destruct (well_formed_inv f Hwf) as (_ & _ & Hlen).
  destruct f as [|x f]; [unfold len in Hlen; simpl in Hlen; lia|].
  cbn [frames]. rewrite (feed_whole_frame [] (x :: f) Hwf). now rewrite IH.
Qed.

(** One frame fed a byte at a time on an empty buffer, with [j] bytes
    already in. *)
Lemma frames_bytes_of_frame (f : bytes) (rest : list bytes) :
  well_formed f = true ->
  forall (k j : nat),
    (j + k = List.length f)%nat -> (0 < k)%nat ->
    frames (firstn j f) (map (fun x => [x]) (skipn j f) ++ rest)
    = f :: frames [] rest.
Proof.
  intros Hwf. induction k as [|k IH]; intros j Hjk Hk; [lia|].
  destruct (skipn j f) as [|x tl] eqn:Etl.
  { apply (f_equal (@List.length byte)) in Etl.
    rewrite length_skipn in Etl. simpl in Etl. lia. }
  assert (Hnext : firstn j f ++ [x] = firstn (S j) f).
  { rewrite <- (firstn_skipn j f) at 2. rewrite Etl.
    rewrite firstn_app, length_firstn.
    replace (S j - Nat.min j (List.length f))%nat with 1%nat by lia.
    rewrite firstn_firstn. replace (Nat.min (S j) j) with j by lia.
    reflexivity. }
  assert (Htl : tl = skipn (S j) f).
  { replace (S j) with (1 + j)%nat by lia.
    rewrite <- skipn_skipn, Etl. reflexivity. }
  cbn [map app frames].
  destruct k as [|k].
  - assert (Hall : firstn (S j) f = f) by (apply firstn_all2; lia).
    rewrite (feed_whole_frame (firstn j f) [x]) by (rewrite Hnext, Hall; exact Hwf).
    rewrite Hnext, Hall. f_equal.
    rewrite Htl, skipn_all2 by lia. reflexivity.
  - rewrite feed_waits
      by (rewrite Hnext; apply prefix_not_ready; [exact Hwf | lia]).
    rewrite Hnext, Htl. apply IH; lia.
Qed.

(** The part of C2 the loop does deliver: a stream of well-formed frames
    read one byte at a time gives every frame, unchanged and in order. *)
Lemma frames_byte_by_byte (fs : list bytes) :
  Forall (fun f => well_formed f = true) fs ->
  frames [] (map (fun x => [x]) (List.concat fs)) = fs.
Proof.
  induction 1 as [|f fs Hwf _ IH]; [reflexivity|].
  destruct (well_formed_inv f Hwf) as (_ & _ & Hlen).
  cbn [List.concat]. rewrite map_app.
  rewrite (frames_bytes_of_frame f _ Hwf (List.length f) 0)
    by (unfold len in Hlen; lia).
  now rewrite IH.
Qed.

(** *** The child process over the life of the generator *)

(** Every way out of the loop passes the [finally] clause; the only other
    outcome is a [yield]. *)
Lemma loop_outcome (reads : list read_result) :
  forall (buf : bytes) (tr : list proc_event),
    let '(r, g) := loop buf reads tr in
    match r with
    | Yield _ => (exists b e, g_state g = AtYield b e) /\ g_trace g = tr
    | _ => g_state g = Finished /\ g_trace g = tr ++ [Terminate]
    end.
Proof.
  induction reads as [|rd reads IH]; intros buf tr; cbn [loop].
  - split; reflexivity.
  - destruct rd as [c|]; [|split; reflexivity].
    destruct c as [|x c]; [split; reflexivity|].
    destruct (frame_ready (buf ++ x :: c)).
    + split; [cbn; eauto | reflexivity].
    + apply IH.
Qed.

Lemma call_lifecycle (g : gen) (a : consumer_call) :
  lifecycle g -> lifecycle (call g a).
Proof.
  unfold lifecycle. intros H.
  destruct a as [ok| |]; cbn [call gen_throw snd].
  - unfold gen_next. destruct (g_state g) as [|buf e|] eqn:S.
    + destruct ok.
      * pose proof (loop_outcome (g_reads g) [] (g_trace g ++ [Spawn])) as L.
        destruct (loop [] (g_reads g) (g_trace g ++ [Spawn])) as [r g'].
        cbn [snd]. rewrite H in L.
        destruct r; destruct L as [L1 L2];
          try (destruct L1 as (b & e & L1)); rewrite L1, L2; auto.
      * cbn. now left.
    + pose proof (loop_outcome (g_reads g) (slice_from buf (e + 2)) (g_trace g))
        as L.
      destruct (loop (slice_from buf (e + 2)) (g_reads g) (g_trace g))
        as [r g'].
      cbn [snd]. rewrite H in L.
      destruct r; destruct L as [L1 L2];
        try (destruct L1 as (b & e' & L1)); rewrite L1, L2; auto.
    + cbn [snd]. now rewrite S.
  - unfold gen_close. destruct (g_state g) eqn:S; cbn; rewrite ?S, ?H; auto.
  - unfold gen_close. destruct (g_state g) eqn:S; cbn; rewrite ?S, ?H; auto.
Qed.

Lemma fold_call_lifecycle (calls : list consumer_call) :
  forall g : gen, lifecycle g -> lifecycle (fold_left call calls g).
Proof.
  induction calls as [|a calls IH]; intros g H; [exact H|].
  cbn [fold_left]. apply IH, call_lifecycle, H.
Qed.

Lemma close_finishes (g : gen) : g_state (gen_close g) = Finished.
Proof. unfold gen_close. destruct (g_state g) eqn:S; auto. Qed.

Lemma drive_snoc (reads : list read_result) (calls : list consumer_call)
      (a : consumer_call) :
  drive reads (calls ++ [a]) = call (drive reads calls) a.
Proof. unfold drive. now rewrite fold_left_app. Qed.

Lemma entered_app (calls more : list consumer_call) :
  calls <> [] -> entered (calls ++ more) = entered calls.
Proof. destruct calls as [|a calls]; [congruence | reflexivity]. Qed.

(** One call of the consumer keeps the account of the child. *)
Lemma call_accounted (calls : list consumer_call) (g : gen) (a : consumer_call) :
  accounted calls g -> accounted (calls ++ [a]) (call g a).
Proof.
  unfold accounted. intros H.
  assert (Hne : calls ++ [a] <> []) by (destruct calls; discriminate).
  destruct (g_state g) as [|buf e|] eqn:S.
  - destruct H as [-> Ht]. cbn [app].
    destruct a as [ok| |]; cbn [call gen_throw snd].
    + unfold gen_next. rewrite S. destruct ok.
      * pose proof (loop_outcome (g_reads g) [] (g_trace g ++ [Spawn])) as L.
        destruct (loop [] (g_reads g) (g_trace g ++ [Spawn])) as [r g'].
        cbn [snd]. rewrite Ht in L. cbn [app] in L.
        destruct r; destruct L as [L1 L2];
          try (destruct L1 as (b & e & L1)); rewrite L1, L2;
          split; try reflexivity; discriminate.
      * cbn. split; [discriminate | exact Ht].
    + unfold gen_close. rewrite S. cbn. split; [discriminate | exact Ht].
    + unfold gen_close. rewrite S. cbn. split; [discriminate | exact Ht].
  - destruct H as [He Ht].
    assert (Hc : calls <> []) by (destruct calls; [discriminate | congruence]).
    rewrite (entered_app calls [a] Hc), He.
    destruct a as [ok| |]; cbn [call gen_throw snd].
    + unfold gen_next. rewrite S.
      pose proof (loop_outcome (g_reads g) (slice_from buf (e + 2)) (g_trace g))
        as L.
      destruct (loop (slice_from buf (e + 2)) (g_reads g) (g_trace g))
        as [r g'].
      cbn [snd]. rewrite Ht in L. cbn [app] in L.
      destruct r; destruct L as [L1 L2];
        try (destruct L1 as (b & e' & L1)); rewrite L1, L2; auto.
    + unfold gen_close. rewrite S. cbn. now rewrite Ht.
    + unfold gen_close. rewrite S. cbn. now rewrite Ht.
  - destruct H as [Hc Ht]. rewrite (entered_app calls [a] Hc).
    destruct a as [ok| |]; cbn [call gen_throw snd];
      unfold gen_next, gen_close; rewrite S; cbn [snd]; rewrite S; auto.
Qed.

Lemma drive_accounted (reads : list read_result) (calls : list consumer_call) :
  accounted calls (drive reads calls).
Proof.
  induction calls as [|a calls IH] using rev_ind.
  - split; reflexivity.
  - rewrite drive_snoc. now apply call_accounted.
Qed.

(** A pass through the loop ends the generator or uses up a read. *)
Lemma loop_consumes (reads : list read_result) :
  forall (buf : bytes) (tr : list proc_event),
    g_state (snd (loop buf reads tr)) = Finished \/
    (List.length (g_reads (snd (loop buf reads tr))) < List.length reads)%nat.
Proof.
  induction reads as [|rd reads IH]; intros buf tr; cbn [loop].
  - now left.
  - destruct rd as [c|]; [|now left].
    destruct c as [|x c]; [now left|].
    destruct (frame_ready (buf ++ x :: c)).
    + right. cbn. lia.
    + destruct (IH (buf ++ x :: c) tr) as [H|H]; [now left|right].
      cbn [List.length]. lia.
Qed.

(** A consumer that keeps asking for the next part reaches the end of the
    generator: one call more than there are reads left is enough. *)
Lemma iteration_ends (n : nat) :
  forall g : gen,
    (List.length (g_reads g) < n)%nat ->
    g_state (fold_left call (repeat (Next true) n) g) = Finished.
Proof.
  induction n as [|n IH]; intros g Hn; [lia|].
  cbn [repeat fold_left].
  assert (Hfin : forall h, g_state h = Finished ->
                           g_state (fold_left call (repeat (Next true) n) h)
                           = Finished).
  { clear. induction n as [|n IH]; intros h Hh; [exact Hh|].
    cbn [repeat fold_left]. apply IH.
    cbn [call]. unfold gen_next. now rewrite Hh. }
  cbn [call]. unfold gen_next.
  destruct (g_state g) as [|buf e|] eqn:S.
  - destruct (loop_consumes (g_reads g) [] (g_trace g ++ [Spawn])) as [H|H];
      [now apply Hfin | apply IH; lia].
  - destruct (loop_consumes (g_reads g) (slice_from buf (e + 2)) (g_trace g))
      as [H|H]; [now apply Hfin | apply IH; lia].
  - apply Hfin. exact S.
Qed.

Lemma loop_reads (reads : list read_result) :
  forall (buf : bytes) (tr : list proc_event),
    (List.length (g_reads (snd (loop buf reads tr))) <= List.length reads)%nat.
Proof.
  induction reads as [|rd reads IH]; intros buf tr; cbn [loop]; [cbn; lia|].
  destruct rd as [c|]; [|cbn; lia].
  destruct c as [|x c]; [cbn; lia|].
  destruct (frame_ready (buf ++ x :: c)); [cbn; lia|].
  specialize (IH (buf ++ x :: c) tr). cbn [List.length]. lia.
Qed.

Lemma call_reads (g : gen) (a : consumer_call) :
  (List.length (g_reads (call g a)) <= List.length (g_reads g))%nat.
Proof.
  destruct a as [ok| |]; cbn [call gen_throw snd];
    unfold gen_next, gen_close; destruct (g_state g); try destruct ok;
    cbn [snd g_reads]; try lia; apply loop_reads.
Qed.

Lemma drive_reads (reads : list read_result) (calls : list consumer_call) :
  (List.length (g_reads (drive reads calls)) <= List.length reads)%nat.
Proof.
  induction calls as [|a calls IH] using rev_ind; [cbn; lia|].
  rewrite drive_snoc. pose proof (call_reads (drive reads calls) a). lia.
Qed.

(** C4. Whatever the child delivers (chunks, the end of the stream, a
    read error at any point) and whatever the consumer does ([next],
    [close] or [throw], in any order and number), the calls on the child
    are accounted for: the encoder is spawned exactly when the consumer's
    first call is a [next] on which [Popen] succeeds; while the generator
    is parked at its [yield] the encoder runs; and once the generator is
    finished the encoder, if it was spawned, has been terminated, once.
    Every way out finishes the generator: the teardown calls [close] and
    [throw], after any calls, and the consumer that just keeps iterating,
    which meets the end of the stream or a read error after at most as
    many calls as there are reads. So after each of them the calls on the
    child are the spawn followed by one terminate, or none at all if the
    encoder was never spawned. *)
Theorem encoder_terminated_on_every_exit
  (reads : list read_result) (calls : list consumer_call) :
  let closed := drive reads (calls ++ [Close]) in
  let thrown := drive reads (calls ++ [Throw]) in
  let drained :=
    drive reads (calls ++ repeat (Next true) (S (List.length reads))) in
  let spawned_and_terminated (first : list consumer_call) :=
    if entered (calls ++ first) then [Spawn; Terminate] else [] in
  lifecycle (drive reads calls) /\
  accounted calls (drive reads calls) /\
  (g_state closed = Finished /\
   g_trace closed = spawned_and_terminated [Close]) /\
  (g_state thrown = Finished /\
   g_trace thrown = spawned_and_terminated [Throw]) /\
  (g_state drained = Finished /\
   g_trace drained = spawned_and_terminated [Next true]) /\
  lifecycle closed /\ lifecycle thrown.
Proof.
  intros closed thrown drained spawned_and_terminated.
  assert (H : forall cs, lifecycle (drive reads cs)).
  { intros cs. unfold drive. apply fold_call_lifecycle. reflexivity. }
  assert (Hfin : forall cs, g_state (drive reads cs) = Finished ->
                            g_trace (drive reads cs)
                            = if entered cs then [Spawn; Terminate] else []).
  { intros cs Hs. pose proof (drive_accounted reads cs) as A.
    unfold accounted in A. rewrite Hs in A. apply A. }
  assert (Hc : g_state closed = Finished)
    by (unfold closed; rewrite drive_snoc; apply close_finishes).
  assert (Ht : g_state thrown = Finished)
    by (unfold thrown; rewrite drive_snoc; apply close_finishes).
  assert (Hd : g_state drained = Finished).
  { unfold drained, drive. rewrite fold_left_app.
    apply iteration_ends. pose proof (drive_reads reads calls) as L.
    unfold drive in L. lia. }
  split; [apply H|]. split; [apply drive_accounted|].
  split; [split; [exact Hc | exact (Hfin _ Hc)]|].
  split; [split; [exact Ht | exact (Hfin _ Ht)]|].
  split; [|split; apply H].
  split; [exact Hd|]. unfold drained in *. rewrite (Hfin _ Hd).
  unfold spawned_and_terminated.
  destruct calls as [|a calls]; reflexivity.
Qed.

(** The three ways out, on a stream of one frame: the source ends, the
    source fails, the consumer goes away while the generator is parked. *)
Example exit_paths :
  let f := [xff; xd8; x01; xff; xd9] in
  g_trace (drive [Chunk f] [Next true; Next true]) = [Spawn; Terminate] /\
  g_trace (drive [Chunk f; ReadError] [Next true; Next true])
    = [Spawn; Terminate] /\
  g_trace (drive [Chunk f; Chunk f] [Next true; Close]) = [Spawn; Terminate] /\
  g_trace (drive [Chunk f; Chunk f] [Next true]) = [Spawn].
Proof. vm_compute. repeat split. Qed.

End DemuxSpec.

(** ** True division *)

Module PyFloatFacts.
Import PyFloat.
Local Open Scope Z_scope.

Lemma round_div_cases (n d : Z) :
  round_div n d = n / d \/
  (round_div n d = n / d + 1 /\ d <= 2 * (n mod d)).
Proof.
  unfold round_div.
  destruct (2 * (n mod d) <? d) eqn:E1; [now left|].
  apply Z.ltb_ge in E1.
  destruct (d <? 2 * (n mod d)); [right; split; [reflexivity | exact E1]|].
  destruct (Z.even (n / d)); [now left | right; split; [reflexivity | exact E1]].
Qed.


Lemma pow2_pos (k : Z) : 0 <= k -> 0 < 2 ^ k.
Proof. intros H. apply Z.pow_pos_nonneg; lia. Qed.



Lemma round_div_nonneg (n d : Z) : 0 <= n -> 0 < d -> 0 <= round_div n d.
Proof.
  intros Hn Hd. assert (0 <= n / d) by (apply Z.div_pos; lia).
  destruct (round_div_cases n d) as [->|[-> _]]; lia.
Qed.

(** The quotient of two positive integers does not truncate to a negative
    one. *)
Lemma int_true_div_nonneg (a b : Z) (x : float) :
  0 < a -> 0 < b -> true_div a b = Quotient x -> 0 <= int x.
Proof.
  intros Ha Hb. unfold true_div.
  replace (b =? 0) with false by (symmetry; apply Z.eqb_neq; lia).
  replace (a =? 0) with false by (symmetry; apply Z.eqb_neq; lia).
  rewrite (Z.abs_eq a), (Z.abs_eq b) by lia.
  rewrite (Z.sgn_pos a), (Z.sgn_pos b) by lia.
  set (e := exponent a b).
  assert (Hm : 0 <= round_div (fst (scaled a b e)) (snd (scaled a b e))).
  { unfold scaled. destruct (0 <=? e) eqn:E; cbn [fst snd].
    - apply Z.leb_le in E. pose proof (pow2_pos e E).
      apply round_div_nonneg; nia.
    - apply Z.leb_gt in E. pose proof (pow2_pos (- e) ltac:(lia)).
      apply round_div_nonneg; nia. }
  destruct (scaled a b e) as [n d]. cbn [fst snd] in Hm.
  destruct ((0 <=? e) && (2 ^ 1024 <=? round_div n d * 2 ^ e));
    [discriminate|].
  intros H.
  replace (1 * 1 * round_div n d) with (round_div n d) in H by lia.
  injection H as <-. unfold int. cbn [expo mant].
  destruct (0 <=? e) eqn:E.
  - apply Z.leb_le in E. pose proof (pow2_pos e E).
    apply Z.mul_nonneg_nonneg; lia.
  - apply Z.leb_gt in E. pose proof (pow2_pos (- e) ltac:(lia)).
    apply Z.quot_pos; lia.
Qed.

End PyFloatFacts.

(** ** The timelapse worker *)

Module TimelapseSpec.
Import PyFloat PyFloatFacts Timelapse.
Local Open Scope Z_scope.

(** *** The thread table *)

Lemma nth_error_set_nth_eq {A} (l : list A) (i : nat) (x : A) :
  (i < List.length l)%nat -> nth_error (set_nth i x l) i = Some x.
Proof.
  revert i; induction l as [|y l IH]; intros [|i] H; simpl in *;
    try lia; auto.
  apply IH. lia.
Qed.

Lemma nth_error_set_nth_ne {A} (l : list A) (i j : nat) (x : A) :
  i <> j -> nth_error (set_nth i x l) j = nth_error l j.
Proof.
  revert i j; induction l as [|y l IH]; intros [|i] [|j] H; simpl;
    try reflexivity; try congruence.
  apply IH. congruence.
Qed.

Lemma set_nth_last {A} (l : list A) (x y : A) :
  set_nth (List.length l) x (l ++ [y]) = l ++ [x].
Proof. induction l as [|z l IH]; simpl; [reflexivity | now rewrite IH]. Qed.

Lemma nth_error_last {A} (l : list A) (x : A) :
  nth_error (l ++ [x]) (List.length l) = Some x.
Proof. induction l as [|z l IH]; simpl; auto. Qed.

Lemma nth_error_snoc_old {A} (l : list A) (x y : A) (i : nat) :
  nth_error l i = Some y -> nth_error (l ++ [x]) i = Some y.
Proof.
  intros H. rewrite nth_error_app1; [exact H|].
  apply nth_error_Some. congruence.
Qed.

(** *** The worker on its own *)

Lemma timelapse_worker_app (n m : nat) :
  forall (stop : nat -> bool) (out : nat -> option file) (w : worker),
    timelapse_worker stop out (n + m) w =
    let '(w1, ev1) := timelapse_worker stop out n w in
    let '(w2, ev2) :=
      timelapse_worker (fun i => stop (n + i)%nat) (fun i => out (n + i)%nat) m w1 in
    (w2, ev1 ++ ev2).
Proof.
  induction n as [|n IH]; intros stop out w.
  - change (timelapse_worker stop out m w =
            let '(w2, ev2) := timelapse_worker stop out m w in (w2, [] ++ ev2)).
    now destruct (timelapse_worker stop out m w).
  - cbn [timelapse_worker Nat.add].
    destruct (worker_step (stop 0%nat) (out 0%nat) w) as [w1 ev1].
    rewrite IH.
    destruct (timelapse_worker (fun i => stop (S i)) (fun i => out (S i)) n w1)
      as [w2 ev2].
    cbn [Nat.add].
    destruct (timelapse_worker (fun i => stop (S (n + i))) (fun i => out (S (n + i)))
                         m w2) as [w3 ev3].
    now rewrite app_assoc.
Qed.

(** The wait between two shots when nobody asks to stop: [k] sleeps of a
    second. *)
Lemma wait_runs_out (k : nat) :
  forall (out : nat -> option file) (w : worker),
    w_pc w = AtFor k ->
    timelapse_worker never out (2 * k + 1) w = (goto w AtWhile, repeat Slept k).
Proof.
  induction k as [|k IH]; intros out w Hpc.
  - cbn. unfold worker_step. rewrite Hpc. reflexivity.
  - replace (2 * S k + 1)%nat with (S (S (2 * k + 1))) by lia.
    cbn [timelapse_worker]. unfold worker_step at 1. rewrite Hpc. cbn [never].
    unfold worker_step at 1. cbn [goto w_pc].
    change (fun i : nat => never (S (S i))) with never.
    rewrite IH by reflexivity. reflexivity.
Qed.

(** One turn of the [while] loop when nobody asks to stop: one capture
    attempt, whatever comes of it, then the wait. *)
Lemma one_turn (w : worker) (out : nat -> option file) :
  w_pc w = AtWhile ->
  (w_max_shots w =? 0) || (w_count w <? w_max_shots w) = true ->
  let k := Z.to_nat (w_interval w) in
  timelapse_worker never out (2 * k + 3) w =
  ({| w_interval := w_interval w; w_max_shots := w_max_shots w;
      w_count := w_count w + 1; w_pc := AtWhile |},
   Shot (out 1%nat) :: repeat Slept k).
Proof.
  intros Hpc Hgo k.
  replace (2 * k + 3)%nat with (S (S (2 * k + 1))) by lia.
  cbn [timelapse_worker]. unfold worker_step at 1. rewrite Hpc, Hgo. cbn [never negb andb].
  unfold worker_step at 1. cbn [goto w_pc w_interval w_max_shots w_count].
  change (fun i : nat => never (S (S i))) with never.
  rewrite wait_runs_out by reflexivity. reflexivity.
Qed.

Lemma shots_app (a b : list event) : shots (a ++ b) = (shots a + shots b)%nat.
Proof. unfold shots. now rewrite filter_app, length_app. Qed.

Lemma shots_repeat_slept (k : nat) : shots (repeat Slept k) = 0%nat.
Proof. induction k; auto. Qed.

(** A bounded job that nobody stops makes exactly the shots it still owes
    and returns. *)
Lemma bounded_job_completes (j : nat) :
  forall (w : worker) (out : nat -> option file),
    w_pc w = AtWhile ->
    w_max_shots w = w_count w + Z.of_nat j ->
    0 < w_max_shots w ->
    exists (n : nat) (evs : list event),
      timelapse_worker never out n w =
      ({| w_interval := w_interval w; w_max_shots := w_max_shots w;
          w_count := w_max_shots w; w_pc := Returned |}, evs) /\
      shots evs = j.
Proof.
  induction j as [|j IH]; intros w out Hpc Hmax Hpos.
  - exists 1%nat, []. split; [|reflexivity].
    cbn. unfold worker_step. rewrite Hpc. cbn [never negb andb].
    replace (w_max_shots w =? 0) with false by (symmetry; apply Z.eqb_neq; lia).
    replace (w_count w <? w_max_shots w) with false
      by (symmetry; apply Z.ltb_ge; lia).
    cbn. unfold goto. repeat f_equal. lia.
  - set (k := Z.to_nat (w_interval w)).
    set (w1 := {| w_interval := w_interval w; w_max_shots := w_max_shots w;
                  w_count := w_count w + 1; w_pc := AtWhile |}).
    destruct (IH w1 (fun i => out (2 * k + 3 + i)%nat)) as (n & evs & Hrun & Hs);
      [reflexivity | cbn; lia | exact Hpos |].
    exists (2 * k + 3 + n)%nat, (Shot (out 1%nat) :: repeat Slept k ++ evs).
    split.
    + assert (Hgo : (w_max_shots w =? 0) || (w_count w <? w_max_shots w) = true).
      { replace (w_count w <? w_max_shots w) with true
          by (symmetry; apply Z.ltb_lt; lia).
        apply orb_true_r. }
      pose proof (one_turn w out Hpc Hgo) as Hturn.
      cbv zeta in Hturn. fold k in Hturn. fold w1 in Hturn.
      rewrite timelapse_worker_app, Hturn.
      change (fun i : nat => never (2 * k + 3 + i)) with never.
      rewrite Hrun. reflexivity.
    + change (Shot (out 1%nat) :: repeat Slept k ++ evs)
        with ([Shot (out 1%nat)] ++ repeat Slept k ++ evs).
      rewrite !shots_app, shots_repeat_slept, Hs. reflexivity.
Qed.

(** A job with [max_shots = 0] that nobody stops never returns. *)
Lemma unbounded_job_never_returns (n : nat) :
  forall (w : worker) (out : nat -> option file),
    w_max_shots w = 0 -> is_alive w = true ->
    is_alive (fst (timelapse_worker never out n w)) = true.
Proof.
  induction n as [|n IH]; intros w out Hmax Halive; [exact Halive|].
  cbn [timelapse_worker].
  destruct (worker_step (never 0%nat) (out 0%nat) w) as [w1 ev1] eqn:E1.
  specialize (IH w1 (fun i => out (S i))).
  change (fun i : nat => never (S i)) with never.
  destruct (timelapse_worker never (fun i => out (S i)) n w1) as [w2 ev2].
  cbn [fst] in *. apply IH.
  - unfold worker_step in E1. destruct (w_pc w) as [| | |[|k]|k|];
      try (rewrite Hmax in E1); cbn in E1;
      inversion E1; subst; cbn; auto.
  - unfold worker_step, is_alive in *. destruct (w_pc w) as [| | |[|k]|k|];
      try discriminate; try (rewrite Hmax in E1); cbn in E1;
      inversion E1; subst; cbn; auto.
Qed.

(** *** Starting a job *)

(** A call run line by line with nothing in between is the handler. *)
Lemma start_steps_uninterrupted (st : state) (data : request) :
  exists c : start_call,
    start_steps 6 st (new_call data) = (snd (timelapse_start st data), c) /\
    c_pc c = Replied (fst (timelapse_start st data)).
Proof.
  unfold timelapse_start. cbn [start_steps].
  unfold start_step at 1. cbn [new_call c_pc].
  destruct (running st) eqn:R.
  - cbn. eauto.
  - unfold start_step at 1. cbn [at_line c_pc c_data new_call].
    destruct (shots_for data) as [m|]; [|cbn; eauto].
    unfold start_step at 1. cbn [c_pc].
    unfold start_step at 1. cbn [at_line c_pc c_interval c_max_shots].
    unfold start_step at 1. cbn [at_line c_pc].
    unfold start_thread.
    cbn [timelapse_thread threads timelapse_stop dir].
    rewrite nth_error_last. cbn [new_worker w_pc].
    rewrite set_nth_last.
    unfold start_step. cbn. eauto.
Qed.



Lemma clamp_interval_range (data : request) : 10 <= clamp_interval data <= 600.
Proof. unfold clamp_interval. lia. Qed.






(** A duration whose quotient is beyond the range of a float makes line
    348 raise: the request is answered with an error before any write, so
    no job is created and the stop flag is not reset. *)
Example overflowing_duration_is_refused :
  let data := {| interval := Some 10; duration := Some (10 ^ 400) |} in
  let stopped := snd (timelapse_stop_route init) in
  shots_for data = None /\
  timelapse_start init data = (ServerError, init) /\
  timelapse_start stopped data = (ServerError, stopped) /\
  timelapse_stop stopped = true /\
  (exists c, start_steps 6 init (new_call data) = (init, c) /\
             c_pc c = Replied ServerError).
Proof.
  vm_compute. repeat split. eexists. split; reflexivity.
Qed.

(** C10. A start request with a negative duration is accepted like one
    with duration 0: same answer, same new state, a worker with shot
    limit 0. That worker is not one that stops at once: left alone it
    makes its first capture attempt on its second step and is alive after
    any number of steps. *)
Theorem negative_duration_is_unbounded
  (st : state) (i : option Z) (d : Z) :
  running st = false -> d < 0 ->
  let data := {| interval := i; duration := Some d |} in
  let w := new_worker (clamp_interval data) 0 AtWhile in
  timelapse_start st data
    = timelapse_start st {| interval := i; duration := Some 0 |} /\
  shots_for data = Some 0 /\
  fst (timelapse_start st data) = Started (clamp_interval data) /\
  threads (snd (timelapse_start st data)) = threads st ++ [w] /\
  (forall out : nat -> option file,
      snd (timelapse_worker never out 2 w) = [Shot (out 1%nat)]) /\
  (forall (n : nat) (out : nat -> option file),
      is_alive (fst (timelapse_worker never out n w)) = true).
Proof.
  intros Hidle Hneg data w.
  assert (Hs : shots_for data = Some 0).
  { unfold shots_for, data. cbn [duration get].
    replace (d >? 0) with false; [reflexivity|].
    symmetry. rewrite Z.gtb_ltb. apply Z.ltb_ge. lia. }
  repeat split.
  - unfold timelapse_start. rewrite Hidle, Hs. reflexivity.
  - exact Hs.
  - unfold timelapse_start. rewrite Hidle, Hs. reflexivity.
  - unfold timelapse_start. rewrite Hidle, Hs. reflexivity.
  - intros n out. apply unbounded_job_never_returns; reflexivity.
Qed.

Lemma negative_duration_is_unbounded_witness :
  let data := {| interval := Some 10; duration := Some (-35) |} in
  running init = false /\ -35 < 0 /\
  timelapse_start init data
    = timelapse_start init {| interval := Some 10; duration := Some 0 |} /\
  shots_for data = Some 0.
Proof.
  split; [reflexivity|]. split; [lia|].
  pose proof (negative_duration_is_unbounded init (Some 10) (-35) eq_refl) as H.
  cbv zeta in H.
  destruct (H ltac:(lia)) as (H1 & H2 & _).
  split; [exact H1 | exact H2].
Defined.

(** *** One job at a time, when handlers do not interleave *)

Lemma worker_step_alive (stop : bool) (out : option file) (w : worker) :
  is_alive (fst (worker_step stop out w)) = true -> is_alive w = true.
Proof.
  unfold worker_step, is_alive.
  destruct (w_pc w) as [| | |[|k]|k|] eqn:E; cbn; rewrite ?E; auto;
    repeat match goal with
           | |- context [if ?c then _ else _] => destruct c
           end; cbn; auto.
Qed.

Lemma idle_all_dead (st : state) :
  current_only st -> running st = false ->
  forall (t : nat) (w : worker),
    nth_error (threads st) t = Some w -> is_alive w = false.
Proof.
  intros Hinv Hidle t w Hw.
  destruct (is_alive w) eqn:A; [|reflexivity].
  pose proof (Hinv t w Hw A) as Hcur.
  unfold running, thread_alive in Hidle. rewrite Hcur, Hw in Hidle.
  congruence.
Qed.

Lemma step_current_only (st : state) (a : action) :
  current_only st -> current_only (fst (step st a)).
Proof.
  intros Hinv. destruct a as [data| | |ok|t' out]; cbn [step fst snd];
    try exact Hinv.
  - unfold timelapse_start. destruct (running st) eqn:R; [exact Hinv|].
    destruct (shots_for data) as [m|]; [|exact Hinv].
    cbn [snd]. intros t w Hw Ha. cbn [threads timelapse_thread] in *.
    destruct (Nat.lt_ge_cases t (List.length (threads st))) as [Hlt|Hge].
    + rewrite nth_error_app1 in Hw by exact Hlt.
      rewrite (idle_all_dead st Hinv R t w Hw) in Ha. discriminate.
    + destruct (Nat.eq_dec t (List.length (threads st))) as [->|Hne];
        [reflexivity|].
      assert (Hnone : nth_error (threads st ++ [new_worker (clamp_interval data)
                                   m AtWhile]) t = None).
      { apply nth_error_None. rewrite length_app. simpl. lia. }
      congruence.
  - unfold timelapse_clear. destruct (unlink_all ok (dir st)) as [done d].
    exact Hinv.
  - unfold tick. destruct (nth_error (threads st) t') as [w'|] eqn:Hw';
      [|exact Hinv].
    destruct (worker_step (timelapse_stop st) (written out) w')
      as [w1 evs] eqn:E.
    cbn [fst]. intros t w Hw Ha. cbn [threads timelapse_thread] in *.
    destruct (Nat.eq_dec t' t) as [->|Hne].
    + rewrite nth_error_set_nth_eq in Hw
        by (apply nth_error_Some; congruence).
      inversion Hw; subst w1.
      apply (Hinv t w' Hw').
      apply (worker_step_alive (timelapse_stop st) (written out)).
      now rewrite E.
    + rewrite nth_error_set_nth_ne in Hw by exact Hne.
      exact (Hinv t w Hw Ha).
Qed.

Lemma run_cons (st : state) (a : action) (acts : list action) :
  fst (run st (a :: acts)) = fst (run (fst (step st a)) acts).
Proof.
  cbn [run]. destruct (step st a) as [st1 ev1]. cbn [fst].
  destruct (run st1 acts) as [st2 ev2]. reflexivity.
Qed.

Lemma run_current_only (acts : list action) :
  forall st : state, current_only st -> current_only (fst (run st acts)).
Proof.
  induction acts as [|a acts IH]; intros st H; [exact H|].
  rewrite run_cons. apply IH, step_current_only, H.
Qed.

Lemma init_current_only : current_only init.
Proof. intros [|t] w H; discriminate. Qed.

(** Counting the live entries of a table in which only the entry a given
    reference points to can be live. *)
Lemma count_alive_at (l : list worker) :
  forall o : option nat,
    (forall (i : nat) (w : worker),
        nth_error l i = Some w -> is_alive w = true -> o = Some i) ->
    List.length (filter is_alive l) =
    match o with
    | Some t => match nth_error l t with
                | Some w => if is_alive w then 1%nat else 0%nat
                | None => 0%nat
                end
    | None => 0%nat
    end.
Proof.
  induction l as [|x l IH]; intros o H.
  - destruct o as [[|t]|]; reflexivity.
  - cbn [filter]. destruct (is_alive x) eqn:A.
    + rewrite (H 0%nat x eq_refl A). cbn [nth_error]. rewrite A.
      cbn [List.length]. f_equal.
      apply (IH None). intros i w Hw Ha.
      pose proof (H (S i) w Hw Ha) as E1.
      pose proof (H 0%nat x eq_refl A) as E2. congruence.
    + destruct o as [[|t]|].
      * cbn [nth_error]. rewrite A.
        apply (IH None). intros i w Hw Ha.
        pose proof (H (S i) w Hw Ha). congruence.
      * cbn [nth_error]. apply (IH (Some t)). intros i w Hw Ha.
        pose proof (H (S i) w Hw Ha). congruence.
      * apply (IH None). intros i w Hw Ha.
        pose proof (H (S i) w Hw Ha). congruence.
Qed.

Lemma alive_count_running (st : state) :
  current_only st ->
  alive_count st = if running st then 1%nat else 0%nat.
Proof.
  intros H. unfold alive_count, running, thread_alive.
  rewrite (count_alive_at (threads st) (timelapse_thread st) H).
  destruct (timelapse_thread st) as [t|]; [|reflexivity].
  destruct (nth_error (threads st) t) as [w|]; reflexivity.
Qed.

(** With each handler run from its first line to its last before the
    next one starts, no sequence of requests and worker steps ever has two
    workers alive. *)
Lemma one_job_when_handlers_are_whole (acts : list action) :
  (alive_count (fst (run init acts)) <= 1)%nat.
Proof.
  rewrite alive_count_running
    by (apply run_current_only, init_current_only).
  destruct (running (fst (run init acts))); lia.
Qed.

(** C1 on the code. Two start requests arrive on an idle server; each
    call tests the guard of line 343 before the other has reached line
    350. Both pass, both create and start a thread, both answer success:
    two workers are alive at once, and the global refers to the second
    only. No lock orders the test of line 343 and the writes of lines
    349-351. *)
Theorem concurrent_starts_both_run :
  let data := {| interval := Some 10; duration := Some 0 |} in
  let sv := schedule boot
              [Arrive data; Arrive data;
               Line 0; Line 1;
               Line 0; Line 0; Line 0; Line 0; Line 0;
               Line 1; Line 1; Line 1; Line 1; Line 1] in
  replies sv = [Replied (Started 10); Replied (Started 10)] /\
  alive_count (globals sv) = 2%nat /\
  map is_alive (threads (globals sv)) = [true; true] /\
  timelapse_thread (globals sv) = Some 1%nat.
Proof. vm_compute. repeat split. Qed.

(** The same two requests served one after the other: the second is
    rejected and one worker is alive. *)
Example serial_starts_second_rejected :
  let data := {| interval := Some 10; duration := Some 0 |} in
  let sv := schedule boot
              [Arrive data; Arrive data;
               Line 0; Line 0; Line 0; Line 0; Line 0; Line 0;
               Line 1] in
  replies sv = [Replied (Started 10); Replied AlreadyRunning] /\
  alive_count (globals sv) = 1%nat.
Proof. vm_compute. repeat split. Qed.

(** *** Status *)

Lemma insert_desc_perm (f : file) (l : list file) :
  Permutation (insert_desc f l) (f :: l).
Proof.
  induction l as [|g l IH]; cbn [insert_desc]; [reflexivity|].
  destruct (mtime g >? mtime f); [|reflexivity].
  rewrite IH. apply perm_swap.
Qed.

Lemma sorted_desc_perm (l : list file) : Permutation (sorted_desc l) l.
Proof.
  induction l as [|f l IH]; [reflexivity|].
  unfold sorted_desc in *. cbn [fold_right].
  rewrite insert_desc_perm. now constructor.
Qed.





(** After two start requests have raced (an unbounded job and a job of
    one shot, both past the guard before either wrote), the job of one
    shot, started last, completes: the status request reports
    [running = False] while the worker of the other job is alive. *)
Example status_after_racing_starts :
  let a := {| interval := Some 10; duration := Some 0 |} in
  let b := {| interval := Some 10; duration := Some 10 |} in
  let sv := schedule boot
              ([Arrive a; Arrive b; Line 0; Line 1;
                Line 0; Line 0; Line 0; Line 0; Line 0;
                Line 1; Line 1; Line 1; Line 1; Line 1;
                Work 0 None]
               ++ repeat (Work 1 None) 24) in
  replies sv = [Replied (Started 10); Replied (Started 10)] /\
  map is_alive (threads (globals sv)) = [true; false] /\
  alive_count (globals sv) = 1%nat /\
  st_running (fst (timelapse_status "" (globals sv))) = false.
Proof. vm_compute. repeat split. Qed.


(** *** Stop *)

(** C9, as amended. A stop request always answers success. It sets the
    stop flag and touches nothing else: threads, current thread and
    directory are the same, so the running status is the same. On an idle
    server the flag is all that differs, and no later request can tell:
    status answers the same, and a start gives the same answer as it would
    have without the stop and, when it is accepted, the same state (a
    start that is rejected, or that fails at line 348, writes nothing, so
    the flag stays set). A second stop changes nothing more. *)
Theorem stop_succeeds_and_only_sets_flag
  (st : state) (TIMELAPSE_DIR : string) (data : request) :
  let st' := snd (timelapse_stop_route st) in
  (fst (timelapse_stop_route st) = Stopped /\ is_success Stopped = true) /\
  (threads st' = threads st /\ timelapse_thread st' = timelapse_thread st /\
   dir st' = dir st /\ timelapse_stop st' = true) /\
  (running st' = running st /\ alive_count st' = alive_count st) /\
  fst (timelapse_status TIMELAPSE_DIR st')
    = fst (timelapse_status TIMELAPSE_DIR st) /\
  fst (timelapse_start st' data) = fst (timelapse_start st data) /\
  timelapse_start st' data
    = (match fst (timelapse_start st data) with
       | Started _ => timelapse_start st data
       | r => (r, st')
       end) /\
  timelapse_stop_route st' = (Stopped, st').
Proof.
  intros st'. repeat split.
  - unfold timelapse_start. change (running st') with (running st).
    destruct (running st); [reflexivity|].
    destruct (shots_for data); reflexivity.
  - unfold timelapse_start. change (running st') with (running st).
    destruct (running st); [reflexivity|].
    destruct (shots_for data); reflexivity.
Qed.

(** C9, as stated, fails on the flag: on the freshly booted server, which
    is idle, a stop request turns [timelapse_stop] from [False] to
    [True]. *)
Lemma stop_when_idle_sets_flag :
  running init = false /\
  timelapse_stop init = false /\
  timelapse_stop (snd (timelapse_stop_route init)) = true /\
  snd (timelapse_stop_route init) <> init.
Proof. repeat split. discriminate. Qed.

(** *** Cancellation *)

(** The wait polls the flag: a sleep of one second is entered only from
    the test of line 326, on a flag read as clear, and leads back to that
    test. *)
Lemma wait_polls_flag (stop : bool) (out : option file) (w : worker) (k : nat) :
  (w_pc (fst (worker_step stop out w)) = InSleep k ->
   w_pc w = AtFor (S k) /\ stop = false) /\
  (w_pc w = InSleep k ->
   worker_step stop out w = (goto w (AtFor k), [Slept])).
Proof.
  unfold worker_step. split.
  - destruct (w_pc w) as [| | |[|j]|j|] eqn:E; cbn; rewrite ?E;
      try discriminate;
      repeat match goal with
             | |- context [if ?c then _ else _] => destruct c
             end; cbn; try discriminate.
    intros H; inversion H; auto.
  - intros ->. reflexivity.
Qed.

Lemma events_of_app (t : nat) (a b : list (nat * event)) :
  events_of t (a ++ b) = events_of t a ++ events_of t b.
Proof. unfold events_of. now rewrite filter_app, map_app. Qed.

Lemma events_of_same (t : nat) (evs : list event) :
  events_of t (map (fun e => (t, e)) evs) = evs.
Proof.
  unfold events_of. induction evs as [|e evs IH]; [reflexivity|].
  cbn. rewrite Nat.eqb_refl. cbn. now rewrite IH.
Qed.

Lemma events_of_other (t t' : nat) (evs : list event) :
  t' <> t -> events_of t (map (fun e => (t', e)) evs) = [].
Proof.
  intros H. unfold events_of. induction evs as [|e evs IH]; [reflexivity|].
  cbn. apply Nat.eqb_neq in H. rewrite H. exact IH.
Qed.

Lemma sleeps_app (a b : list event) : sleeps (a ++ b) = (sleeps a + sleeps b)%nat.
Proof. unfold sleeps. now rewrite filter_app, length_app. Qed.

Lemma elapsed_count (evs : list event) :
  elapsed evs = Z.of_nat (sleeps evs) + 10 * Z.of_nat (shots evs).
Proof.
  induction evs as [|e evs IH]; [reflexivity|].
  change (elapsed (e :: evs)) with (seconds e + elapsed evs).
  rewrite IH. destruct e; unfold sleeps, shots; cbn [filter is_sleep is_shot seconds];
    cbn [List.length]; lia.
Qed.

(** One action of the server keeps a draining thread draining and uses
    up what it could still do. *)
Lemma drain_step (t : nat) (st : state) (w : worker) (a : action) :
  draining t st w ->
  exists w' : worker,
    draining t (fst (step st a)) w' /\
    let evs := events_of t (snd (step st a)) in
    (sleeps evs + sleeps_left (w_pc w') <= sleeps_left (w_pc w))%nat /\
    (shots evs + shots_left (w_pc w') <= shots_left (w_pc w))%nat /\
    (steps_left (w_pc w') + (if is_tick t a then 1 else 0)
     <= Nat.max (steps_left (w_pc w)) (if is_tick t a then 1 else 0))%nat.
Proof.
  intros [Hw Hd].
  destruct a as [data| | |ok|t' out]; cbn [step fst snd is_tick].
  - (* start *)
    exists w. split; [|cbn; lia].
    unfold timelapse_start. destruct (running st) eqn:R; [split; auto|].
    destruct (shots_for data) as [m|]; [|split; auto].
    cbn [snd]. split; cbn [threads]; [now apply nth_error_snoc_old|].
    destruct Hd as [Hd|(Hc & _ & Ha)]; [now left|].
    unfold running, thread_alive in R. rewrite Hc, Hw, Ha in R. discriminate.
  - (* stop *)
    exists w. split; [|cbn; lia]. split; [exact Hw|].
    destruct Hd as [Hd|(Hc & _ & Ha)]; [now left|right]. auto.
  - (* status *)
    exists w. split; [split; auto|cbn; lia].
  - (* clear *)
    exists w. split; [|cbn; lia].
    unfold timelapse_clear. destruct (unlink_all ok (dir st)) as [done d].
    split; auto.
  - (* a worker step *)
    unfold tick.
    destruct (Nat.eq_dec t' t) as [->|Hne].
    + rewrite Hw, Nat.eqb_refl.
      destruct (worker_step (timelapse_stop st) (written out) w)
        as [w1 evs] eqn:E.
      cbn [fst snd]. rewrite events_of_same.
      exists w1. unfold draining. cbn [threads timelapse_thread timelapse_stop].
      rewrite nth_error_set_nth_eq by (apply nth_error_Some; congruence).
      unfold worker_step in E.
      destruct Hd as [Hd|(Hc & Hf & Ha)].
      * rewrite Hd in E. inversion E; subst. rewrite Hd. cbn. auto.
      * rewrite Hf in E. unfold is_alive in Ha.
        destruct (w_pc w) as [| | |[|k]|k|] eqn:P; try discriminate;
          cbn in E; inversion E; subst; cbn; repeat split; auto; lia.
    + destruct (nth_error (threads st) t') as [w'|] eqn:Hw'.
      * destruct (worker_step (timelapse_stop st) (written out) w')
          as [w1 evs].
        cbn [fst snd]. rewrite events_of_other by exact Hne.
        apply Nat.eqb_neq in Hne as Hb. rewrite Hb.
        exists w. unfold draining.
        cbn [threads timelapse_thread timelapse_stop].
        rewrite nth_error_set_nth_ne by exact Hne.
        split; [split; auto|cbn; lia].
      * apply Nat.eqb_neq in Hne as Hb. rewrite Hb.
        exists w. split; [split; auto|cbn; lia].
Qed.

Lemma run_step (st : state) (a : action) (acts : list action) :
  run st (a :: acts)
  = (fst (run (fst (step st a)) acts),
     snd (step st a) ++ snd (run (fst (step st a)) acts)).
Proof.
  cbn [run]. destruct (step st a) as [st1 ev1]. cbn [fst snd].
  destruct (run st1 acts) as [st2 ev2]. reflexivity.
Qed.

Lemma drain_run (t : nat) (acts : list action) :
  forall (st : state) (w : worker),
    draining t st w ->
    let log := events_of t (snd (run st acts)) in
    (sleeps log <= sleeps_left (w_pc w))%nat /\
    (shots log <= shots_left (w_pc w))%nat /\
    ((steps_left (w_pc w) <= List.length (filter (is_tick t) acts))%nat ->
     thread_alive (fst (run st acts)) t = false).
Proof.
  induction acts as [|a acts IH]; intros st w Hd.
  - cbn. repeat split; try lia.
    intros Hz. destruct Hd as [Hw Hd]. unfold thread_alive. rewrite Hw.
    unfold is_alive.
    destruct Hd as [->|(_ & _ & Ha)]; [reflexivity|].
    unfold is_alive in Ha.
    destruct (w_pc w); cbn in Hz; try lia; discriminate.
  - destruct (drain_step t st w a Hd) as (w' & Hd' & Hsl & Hsh & Hst).
    destruct (IH _ _ Hd') as (IH1 & IH2 & IH3).
    rewrite run_step. cbn [fst snd].
    rewrite events_of_app, sleeps_app, shots_app.
    repeat split; try lia.
    intros Hticks. apply IH3.
    cbn [filter] in Hticks. destruct (is_tick t a); cbn [List.length] in Hticks; lia.
Qed.

(** Cancellation when requests are served one at a time. The wait polls
    the flag: each one-second sleep is entered only
    from the flag test of line 326, on a flag read as clear, and is followed
    by that test again. Let thread [t] be the current worker, alive, when a
    stop request is served. Whatever whole requests the server serves next, the worker
    completes at most the one action it was in: if it was in its wait (at
    the flag test or inside a one-second sleep) it sleeps at most one more
    second and makes no further capture; if a capture was in flight, that
    capture alone, bounded by its timeout of 10 seconds, and no sleep at
    all. It has returned by its third step after the stop. The length of
    the configured interval plays no part. *)
Lemma stop_is_seen_within_a_second
  (st : state) (t : nat) (w : worker) (acts : list action) :
  timelapse_thread st = Some t ->
  nth_error (threads st) t = Some w ->
  is_alive w = true ->
  let st1 := snd (timelapse_stop_route st) in
  let log := events_of t (snd (run st1 acts)) in
  let in_wait := match w_pc w with AtFor _ | InSleep _ => true | _ => false end in
  (forall (stop : bool) (out : option file) (w0 : worker) (k : nat),
      (w_pc (fst (worker_step stop out w0)) = InSleep k ->
       w_pc w0 = AtFor (S k) /\ stop = false) /\
      (w_pc w0 = InSleep k ->
       worker_step stop out w0 = (goto w0 (AtFor k), [Slept]))) /\
  (sleeps log + shots log <= 1)%nat /\
  (sleeps log <= (if in_wait then 1 else 0))%nat /\
  (shots log <= (if in_wait then 0 else 1))%nat /\
  elapsed log <= (if in_wait then 1 else 10) /\
  ((3 <= ticks_of t acts)%nat -> thread_alive (fst (run st1 acts)) t = false).
Proof.
  intros Hc Hw Ha st1 log in_wait.
  split; [intros stop out w0 k; apply wait_polls_flag|].
  assert (Hd : draining t st1 w).
  { split; [exact Hw|right]. auto. }
  destruct (drain_run t acts st1 w Hd) as (H1 & H2 & H3).
  fold log in H1, H2.
  pose proof (elapsed_count log) as He.
  unfold is_alive in Ha. unfold in_wait.
  destruct (w_pc w) as [| | |k|k|] eqn:P; try discriminate;
    cbn [sleeps_left shots_left steps_left] in *;
    (repeat split; try lia;
     intros Ht; apply H3; unfold ticks_of in Ht; lia).
Qed.

Lemma stop_is_seen_within_a_second_witness :
  let st := fst (run init
                   [ReqStart {| interval := Some 10; duration := Some 0 |};
                    Tick 0 None; Tick 0 None; Tick 0 None]) in
  let acts := [Tick 0 None; ReqStatus; Tick 0 None; Tick 0 None] in
  let st1 := snd (timelapse_stop_route st) in
  let log := events_of 0 (snd (run st1 acts)) in
  map w_pc (threads st) = [InSleep 9] /\
  elapsed log <= 1 /\
  thread_alive (fst (run st1 acts)) 0 = false.
Proof.
  split; [reflexivity|].
  pose proof (stop_is_seen_within_a_second
                (fst (run init
                        [ReqStart {| interval := Some 10; duration := Some 0 |};
                         Tick 0 None; Tick 0 None; Tick 0 None]))
                0
                {| w_interval := 10; w_max_shots := 0; w_count := 1;
                   w_pc := InSleep 9 |}
                [Tick 0 None; ReqStatus; Tick 0 None; Tick 0 None]
                eq_refl eq_refl eq_refl) as H.
  cbv zeta in H. destruct H as (_ & _ & _ & _ & He & Hr).
  split; [exact He|]. apply Hr. vm_compute. lia.
Defined.

(** *** Cancellation on the threaded server *)

Lemma worker_step_unbounded (out : option file) (w : worker) :
  w_max_shots w = 0 -> is_alive w = true ->
  w_max_shots (fst (worker_step false out w)) = 0 /\
  is_alive (fst (worker_step false out w)) = true.
Proof.
  intros Hmax Ha. unfold worker_step, is_alive in *.
  destruct (w_pc w) as [| | |[|k]|k|]; try discriminate;
    try (rewrite Hmax); cbn; auto.
Qed.

(** While the flag is clear and nothing but the worker runs, a worker
    without shot limit stays alive. *)
Lemma unstopped_worker_stays (t : nat) (cs : list capture) :
  forall (sv : server) (w : worker),
    nth_error (threads (globals sv)) t = Some w ->
    w_max_shots w = 0 -> is_alive w = true ->
    timelapse_stop (globals sv) = false ->
    thread_alive (globals (schedule sv (map (Work t) cs))) t = true /\
    timelapse_stop (globals (schedule sv (map (Work t) cs))) = false.
Proof.
  induction cs as [|c cs IH]; intros sv w Hw Hmax Ha Hf.
  - cbn. unfold thread_alive. rewrite Hw. auto.
  - cbn [map schedule fold_left]. fold (schedule (schedule_step sv (Work t c))
                                          (map (Work t) cs)).
    destruct (worker_step_unbounded (written c) w Hmax Ha) as [Hmax' Ha'].
    apply (IH _ (fst (worker_step false (written c) w))); auto.
    + cbn [schedule_step globals]. unfold tick. rewrite Hw, Hf.
      destruct (worker_step false (written c) w) as [w' evs].
      cbn [fst threads]. apply nth_error_set_nth_eq.
      apply nth_error_Some. congruence.
    + cbn [schedule_step globals]. unfold tick. rewrite Hw, Hf.
      destruct (worker_step false (written c) w) as [w' evs]. reflexivity.
Qed.

(** A call in flight never revives a worker that has returned. *)
Lemma start_step_keeps_returned (st : state) (c : start_call) (t : nat)
      (w : worker) :
  nth_error (threads st) t = Some w -> w_pc w = Returned ->
  nth_error (threads (fst (start_step st c))) t = Some w.
Proof.
  intros Hw Hr. unfold start_step.
  destruct (c_pc c); cbn [fst threads]; try exact Hw.
  - destruct (running st); exact Hw.
  - destruct (shots_for (c_data c)); exact Hw.
  - now apply nth_error_snoc_old.
  - unfold start_thread.
    destruct (timelapse_thread st) as [t0|]; [|exact Hw].
    destruct (nth_error (threads st) t0) as [w0|] eqn:E0; [|exact Hw].
    destruct (w_pc w0) eqn:P0; try exact Hw.
    cbn [fst threads].
    destruct (Nat.eq_dec t0 t) as [->|Hne]; [congruence|].
    now rewrite nth_error_set_nth_ne.
Qed.

Lemma forallb_set_nth {A} (p : A -> bool) (l : list A) (i : nat) (x : A) :
  forallb p l = true -> p x = true -> forallb p (set_nth i x l) = true.
Proof.
  revert i; induction l as [|y l IH]; intros [|i] H Hx; cbn in *;
    try reflexivity; apply andb_prop in H as [Hy H].
  - now rewrite Hx.
  - now rewrite Hy, IH.
Qed.

Lemma forallb_nth_error {A} (p : A -> bool) (l : list A) (i : nat) (x : A) :
  forallb p l = true -> nth_error l i = Some x -> p x = true.
Proof.
  intros H Hx. rewrite forallb_forall in H. apply H.
  eapply nth_error_In, Hx.
Qed.

(** One step of the threaded server keeps a thread on its way out, and
    uses up what it could still do, as long as no call stands past its
    guard. *)
Lemma unraced_step (t : nat) (sv : server) (w : worker) (ch : choice) :
  draining_unraced t sv w ->
  exists w' : worker,
    draining_unraced t (schedule_step sv ch) w' /\
    (steps_left (w_pc w') + (if is_work t ch then 1 else 0)
     <= Nat.max (steps_left (w_pc w)) (if is_work t ch then 1 else 0))%nat.
Proof.
  intros [Hw Hd].
  assert (Hvia : forall a : action,
             (if is_tick t a then 1 else 0)%nat
             = (if is_work t ch then 1 else 0)%nat ->
             calls (schedule_step sv ch) = calls sv ->
             globals (schedule_step sv ch) = fst (step (globals sv) a) ->
             exists w' : worker,
               draining_unraced t (schedule_step sv ch) w' /\
               (steps_left (w_pc w') + (if is_work t ch then 1 else 0)
                <= Nat.max (steps_left (w_pc w))
                           (if is_work t ch then 1 else 0))%nat).
  { intros a Hx Hc Hg.
    assert (Hdr : draining t (globals sv) w).
    { split; [exact Hw|]. destruct Hd as [Hd|(H1 & H2 & H3 & _)]; auto. }
    destruct (drain_step t (globals sv) w a Hdr) as (w' & [Hw' Hd'] & _ & _ & Hm).
    rewrite Hx in Hm. exists w'. split; [|exact Hm].
    split; [now rewrite Hg|]. rewrite Hg, Hc.
    destruct Hd' as [Hr|(H1 & H2 & H3)]; [now left|right].
    repeat split; auto.
    destruct Hd as [Hr|(_ & _ & _ & Hcalls)]; [|exact Hcalls].
    exfalso. rewrite Hr in Hm. unfold is_alive in H3.
    destruct (w_pc w'); try discriminate;
      destruct (is_work t ch); cbn in Hm; lia. }
  destruct ch as [data|i| |t' c].
  - (* a request arrives *)
    exists w. split; [|cbn; lia]. split; [exact Hw|].
    destruct Hd as [Hd|(H1 & H2 & H3 & H4)]; [now left|right].
    cbn [schedule_step globals calls]. repeat split; auto.
    rewrite forallb_app, H4. reflexivity.
  - (* a line of a call *)
    exists w. split; [|cbn; lia].
    cbn [schedule_step].
    destruct (nth_error (calls sv) i) as [c|] eqn:Ec; [|split; auto].
    destruct Hd as [Hr|(H1 & H2 & H3 & H4)].
    + pose proof (start_step_keeps_returned (globals sv) c t w Hw Hr) as K.
      destruct (start_step (globals sv) c) as [st' c'].
      split; [exact K | now left].
    + pose proof (forallb_nth_error _ _ _ _ H4 Ec) as G.
      unfold at_guard in G. unfold start_step.
      destruct (c_pc c) eqn:P; try discriminate.
      * assert (R : running (globals sv) = true)
          by (unfold running, thread_alive; now rewrite H1, Hw).
        rewrite R. split; [exact Hw|right].
        cbn [globals calls]. repeat split; auto.
        apply forallb_set_nth; [exact H4 | reflexivity].
      * split; [exact Hw|right]. cbn [globals calls]. repeat split; auto.
        apply forallb_set_nth; [exact H4|]. unfold at_guard. now rewrite P.
  - (* a stop request *)
    apply (Hvia ReqStop); reflexivity.
  - (* a step of a worker *)
    apply (Hvia (Tick t' c)); reflexivity.
Qed.

Lemma unraced_run (t : nat) (chs : list choice) :
  forall (sv : server) (w : worker),
    draining_unraced t sv w ->
    (steps_left (w_pc w) <= works_of t chs)%nat ->
    thread_alive (globals (schedule sv chs)) t = false.
Proof.
  induction chs as [|ch chs IH]; intros sv w Hd Hn.
  - cbn in *. destruct Hd as [Hw Hd]. unfold thread_alive. rewrite Hw.
    unfold is_alive. destruct Hd as [->|(_ & _ & Ha & _)]; [reflexivity|].
    unfold is_alive in Ha. destruct (w_pc w); cbn in Hn; try lia; discriminate.
  - destruct (unraced_step t sv w ch Hd) as (w' & Hd' & Hm).
    change (schedule sv (ch :: chs)) with (schedule (schedule_step sv ch) chs).
    apply (IH _ w' Hd').
    unfold works_of in *. cbn [filter] in Hn.
    destruct (is_work t ch); cbn [List.length] in Hn; lia.
Qed.

(** The claim of C7 where no start request races: when the stop request
    is served with no call of [timelapse_start] past its guard, the
    current worker has returned by its third step, whatever arrives and
    however the threads of the server are interleaved from then on. *)
Lemma stop_is_seen_when_no_start_races
  (sv : server) (t : nat) (w : worker) (chs : list choice) :
  timelapse_thread (globals sv) = Some t ->
  nth_error (threads (globals sv)) t = Some w ->
  is_alive w = true ->
  forallb at_guard (calls sv) = true ->
  (3 <= works_of t chs)%nat ->
  thread_alive (globals (schedule (schedule_step sv StopReq) chs)) t = false.
Proof.
  intros Hc Hw Ha Hg Hn.
  apply (unraced_run t chs _ w).
  - split; [exact Hw|right]. cbn [schedule_step globals calls].
    repeat split; auto.
  - unfold is_alive in Ha. destruct (w_pc w); cbn; try discriminate; lia.
Qed.

(** C7 on the code. Two start requests race as in C1: both pass the guard
    of line 343 on the idle server. The second call runs to its end, and
    its worker makes its first capture and enters its wait. A stop request
    arrives and sets the flag; left at that, the worker returns on its
    third step. But the first call, still past its guard, now executes
    line 349 and clears the flag: no later step of the worker sees the
    stop. The worker stays alive whatever it is given to do, waits out the
    whole interval and captures again. Nothing orders line 349 of a call
    in flight and the assignment of [timelapse_stop_route]. *)
Theorem racing_start_loses_the_stop :
  let data := {| interval := Some 10; duration := Some 0 |} in
  let waiting :=
    schedule boot
      [Arrive data; Arrive data; Line 0; Line 1;
       Line 1; Line 1; Line 1; Line 1; Line 1;
       Work 0 None; Work 0 None; Work 0 None] in
  let stopped := schedule waiting [StopReq] in
  let cleared := schedule stopped [Line 0; Line 0] in
  (replies waiting = [L345; Replied (Started 10)] /\
   running (globals waiting) = true /\
   map w_pc (threads (globals waiting)) = [InSleep 9] /\
   map w_count (threads (globals waiting)) = [1]) /\
  (timelapse_stop (globals stopped) = true /\
   thread_alive
     (globals (schedule stopped [Work 0 None; Work 0 None; Work 0 None])) 0
   = false) /\
  (replies cleared = [L350; Replied (Started 10)] /\
   timelapse_stop (globals cleared) = false) /\
  (forall cs : list capture,
      thread_alive (globals (schedule cleared (map (Work 0) cs))) 0 = true) /\
  map w_pc (threads (globals (schedule cleared (repeat (Work 0 None) 19))))
  = [AtFor 0] /\
  map w_count (threads (globals (schedule cleared (repeat (Work 0 None) 22))))
  = [2].
Proof.
  intros data waiting stopped cleared.
  split; [vm_compute; repeat split|].
  split; [vm_compute; repeat split|].
  split; [vm_compute; repeat split|].
  split; [|vm_compute; repeat split].
  intros cs.
  apply (unstopped_worker_stays 0 cs cleared
           {| w_interval := 10; w_max_shots := 0; w_count := 1;
              w_pc := InSleep 9 |}); reflexivity.
Qed.

End TimelapseSpec.

(** ** Whole runs of the camera stream generator *)

Module DemuxRunsSpec.
Import PyBytes PyBytesFacts Demux DemuxSpec DemuxRuns.
Local Open Scope Z_scope.

Lemma starts_with_length (sub l : bytes) :
  starts_with sub l = true -> (List.length sub <= List.length l)%nat.
Proof.
  revert l; induction sub as [|x sub IH]; intros [|y l] H; simpl in *;
    try lia; try discriminate.
  apply andb_prop in H as [_ H]. specialize (IH l H). lia.
Qed.

Lemma starts_with_app_l (sub b c : bytes) :
  (List.length sub <= List.length b)%nat ->
  starts_with sub (b ++ c) = starts_with sub b.
Proof.
  revert b; induction sub as [|x sub IH]; intros [|y b] H; simpl in *;
    try reflexivity; try lia.
  rewrite IH by lia. reflexivity.
Qed.

(** An occurrence that ends inside [b] is an occurrence in [b]. *)
Lemma occurrence_in_prefix (sub b c : bytes) (n : nat) :
  starts_with sub (skipn n (b ++ c)) = true ->
  (n + List.length sub <= List.length b)%nat ->
  starts_with sub (skipn n b) = true.
Proof.
  intros H Hn. rewrite skipn_app in H.
  rewrite starts_with_app_l in H by (rewrite length_skipn; lia).
  exact H.
Qed.

Lemma find_from_app_found (sub b c : bytes) :
  forall i : Z,
    find_from sub b i <> -1 ->
    find_from sub (b ++ c) i = find_from sub b i.
Proof.
  induction b as [|y b IH]; intros i H.
  - cbn [find_from app] in *. destruct (starts_with sub []) eqn:E; [|congruence].
    destruct sub as [|x sub]; [|discriminate].
    destruct c; reflexivity.
  - cbn [find_from app] in *.
    destruct (starts_with sub (y :: b)) eqn:E.
    + pose proof (starts_with_length _ _ E) as Hl.
      change (y :: b ++ c) with ((y :: b) ++ c).
      rewrite starts_with_app_l, E by exact Hl. reflexivity.
    + destruct (find_from_found sub b (i + 1) _ eq_refl H)
        as (n & _ & Hn & Hs & _).
      pose proof (starts_with_length _ _ Hs) as Hl.
      rewrite length_skipn in Hl.
      change (y :: b ++ c) with ((y :: b) ++ c).
      rewrite starts_with_app_l, E by (simpl; lia).
      apply IH, H.
Qed.

(** Appending to a buffer does not move a marker already found. *)
Lemma find_app_found (b c sub : bytes) :
  find b sub <> -1 -> find (b ++ c) sub = find b sub.
Proof. unfold find. apply find_from_app_found. Qed.

Lemma markers_differ (b : bytes) (n : nat) :
  starts_with SOI (skipn n b) = true ->
  starts_with EOI (skipn n b) = true -> False.
Proof.
  intros Hs He. apply starts_with_split in Hs, He.
  pose proof (eq_trans (eq_sym Hs) He) as X.
  unfold SOI, EOI in X. cbn [app] in X. inversion X.
Qed.

(** What one pass yields is cut out of the buffer, and is delimited. *)
Lemma feed_some_delimited (buf c f r : bytes) :
  feed buf c = (Some f, r) ->
  exists pre mid : bytes,
    buf ++ c = pre ++ f ++ r /\ f = SOI ++ mid ++ EOI.
Proof.
  unfold feed. destruct (frame_ready (buf ++ c)) eqn:R; [|discriminate].
  intros H. inversion H; subst; clear H.
  apply frame_ready_true in R as (Hs & He & Hgt).
  destruct (find_found _ SOI Hs) as (s & Es & _ & Hss & _).
  destruct (find_found _ EOI He) as (e & Ee & _ & Hes & _).
  assert (Hlt : (s < e)%nat) by lia.
  pose proof (markers_apart _ s e Hss Hes Hlt) as Hap.
  pose proof (skipn_length_le _ e (or_intror Hes)) as Hlen.
  rewrite Es, Ee.
  replace (Z.of_nat e + 2) with (Z.of_nat (e + 2)) by lia.
  rewrite slice_in_range, slice_from_in_range by lia.
  exists (firstn s (buf ++ c)),
    (firstn (e - (s + 2)) (skipn (s + 2) (buf ++ c))).
  split; [apply split_at_two; lia|].
  apply frame_between; assumption.
Qed.

Lemma frames_delimited (cs : list bytes) :
  forall (buf f : bytes),
    In f (frames buf cs) -> exists mid : bytes, f = SOI ++ mid ++ EOI.
Proof.
  induction cs as [|c cs IH]; intros buf f Hin; [contradiction|].
  destruct c as [|x c]; [contradiction|].
  cbn [frames] in Hin.
  destruct (feed buf (x :: c)) as [[g|] buf'] eqn:E.
  - destruct Hin as [<-|Hin]; [|eauto].
    destruct (feed_some_delimited _ _ _ _ E) as (pre & mid & _ & Hf). eauto.
  - eauto.
Qed.

(** X1. Whatever the encoder sends and however it is cut into reads, every
    part the generator yields is the multipart header, a frame that opens
    with FF D8 and closes with FF D9, and the closing line break: bytes in
    front of a start marker never reach the client. *)
Theorem yielded_parts_are_delimited (cs : list bytes) (v : bytes) :
  In v (parts cs) ->
  exists mid : bytes, v = part_header ++ (SOI ++ mid ++ EOI) ++ CRLF.
Proof.
  unfold parts. rewrite drain_frames. intros H.
  apply in_map_iff in H as (f & <- & Hf).
  destruct (frames_delimited _ _ _ Hf) as (mid & ->).
  exists mid. reflexivity.
Qed.

Lemma yielded_parts_are_delimited_witness :
  let cs := [[x00; x11; xff]; [xd8; x2a; xff; xd9; x07]] in
  let v := part [xff; xd8; x2a; xff; xd9] in
  parts cs = [v] /\
  exists mid : bytes, v = part_header ++ (SOI ++ mid ++ EOI) ++ CRLF.
Proof.
  split; [vm_compute; reflexivity|].
  apply (yielded_parts_are_delimited
           [[x00; x11; xff]; [xd8; x2a; xff; xd9; x07]]).
  vm_compute. left. reflexivity.
Defined.

Lemma not_ready_without_end (b : bytes) :
  find b EOI = -1 -> frame_ready b = false.
Proof.
  intros H. unfold frame_ready. rewrite H. cbn.
  now rewrite andb_false_r.
Qed.

Lemma no_end_no_frame (cs : list bytes) :
  forall buf : bytes,
    find (buf ++ stream cs) EOI = -1 ->
    frames buf cs = [] /\ buffer_after buf cs = buf ++ stream cs.
Proof.
  induction cs as [|c cs IH]; intros buf H.
  - cbn. now rewrite app_nil_r.
  - destruct c as [|x c]; [cbn; now rewrite app_nil_r|].
    cbn [stream] in H. rewrite app_assoc in H.
    assert (Hc : find (buf ++ x :: c) EOI = -1).
    { destruct (Z.eq_dec (find (buf ++ x :: c) EOI) (-1)) as [E|E]; [exact E|].
      rewrite (find_app_found _ (stream cs) _ E) in H. contradiction. }
    cbn [frames buffer_after stream].
    rewrite feed_waits by (apply not_ready_without_end, Hc).
    cbn [snd]. rewrite app_assoc. apply IH, H.
Qed.

(** X2. A stream in which no end marker FF D9 ever arrives (a frame cut
    short, or no frame at all) makes the generator yield nothing, and when
    the loop ends the buffer holds every byte that was read: nothing is
    dropped and nothing bounds the buffer. *)
Theorem no_end_marker_yields_nothing (cs : list bytes) :
  find (stream cs) EOI = -1 ->
  parts cs = [] /\
  buffer_after [] cs = stream cs.
Proof.
  intros H. destruct (no_end_no_frame cs [] H) as [Hf Hb].
  unfold parts. rewrite drain_frames, Hf, Hb. auto.
Qed.

Lemma no_end_marker_yields_nothing_witness :
  let cs := [[x00; xff]; [xd8; x01; x02]; [xff]; [x03]] in
  find (stream cs) EOI = -1 /\
  parts cs = [] /\
  buffer_after [] cs = [x00; xff; xd8; x01; x02; xff; x03].
Proof.
  split; [reflexivity|].
  destruct (no_end_marker_yields_nothing
              [[x00; xff]; [xd8; x01; x02]; [xff]; [x03]] eq_refl)
    as [H1 H2].
  split; [exact H1 | exact H2].
Defined.

Lemma stale_end_not_ready (b : bytes) : stale_end b -> frame_ready b = false.
Proof.
  intros [He Hs]. destruct (frame_ready b) eqn:R; [|reflexivity].
  apply frame_ready_true in R. lia.
Qed.

Lemma stale_end_app (b c : bytes) : stale_end b -> stale_end (b ++ c).
Proof.
  intros [He Hs]. unfold stale_end.
  rewrite (find_app_found b c EOI He). split; [exact He|].
  destruct (Z.eq_dec (find (b ++ c) SOI) (-1)) as [E|E]; [now left|right].
  destruct (find_found _ EOI He) as (e & Ee & _ & Hes & _).
  destruct (find_found _ SOI E) as (s & Es' & _ & Hss & _).
  pose proof (skipn_length_le _ e (or_intror Hes)) as Hlen.
  destruct (Nat.lt_trichotomy s e) as [Hlt|[Heq|Hgt]]; [exfalso|exfalso|lia].
  - assert (Hin : starts_with SOI (skipn s b) = true)
      by (apply (occurrence_in_prefix SOI b c s Hss); simpl; lia).
    pose proof (find_from_le SOI b 0 s Hin ltac:(lia)) as Hle.
    unfold find in *. lia.
  - subst s.
    assert (Hin : starts_with SOI (skipn e b) = true)
      by (apply (occurrence_in_prefix SOI b c e Hss); simpl; lia).
    exact (markers_differ b e Hin Hes).
Qed.

Lemma stale_end_no_frame (cs : list bytes) :
  forall buf : bytes,
    stale_end buf ->
    frames buf cs = [] /\ buffer_after buf cs = buf ++ stream cs.
Proof.
  induction cs as [|c cs IH]; intros buf H.
  - cbn. now rewrite app_nil_r.
  - destruct c as [|x c]; [cbn; now rewrite app_nil_r|].
    pose proof (stale_end_app buf (x :: c) H) as H'.
    cbn [frames buffer_after stream].
    rewrite feed_waits by (apply stale_end_not_ready, H').
    cbn [snd]. rewrite app_assoc. apply IH, H'.
Qed.

(** X3. Once the buffer holds an end marker FF D9 with no start marker FF
    D8 in front of it (the tail of a frame whose beginning was missed), the
    generator never yields again, whatever frames follow: every later read
    is only appended to the buffer. *)
Theorem stale_end_marker_stalls_stream (c : bytes) (cs : list bytes) :
  find c EOI <> -1 ->
  find c SOI = -1 \/ find c EOI < find c SOI ->
  parts (c :: cs) = [] /\
  buffer_after [] (c :: cs) = stream (c :: cs).
Proof.
  intros He Hs.
  assert (Hst : stale_end ([] ++ c)) by (split; assumption).
  assert (Hne : c <> []) by (intros ->; apply He; reflexivity).
  destruct c as [|x c]; [contradiction|].
  unfold parts. rewrite drain_frames.
  cbn [frames buffer_after stream].
  rewrite feed_waits by (apply stale_end_not_ready, Hst).
  cbn [snd app] in *.
  destruct (stale_end_no_frame cs (x :: c) Hst) as [Hf Hb].
  rewrite Hf, Hb. auto.
Qed.

Lemma stale_end_marker_stalls_stream_witness :
  let tail := [x2a; xff; xd9] in
  let f := [xff; xd8; x01; xff; xd9] in
  find tail EOI <> -1 /\
  parts [tail; f; f; f] = [] /\
  buffer_after [] [tail; f; f; f] = tail ++ f ++ f ++ f.
Proof.
  split; [vm_compute; congruence|].
  apply (stale_end_marker_stalls_stream
           [x2a; xff; xd9]
           [[xff; xd8; x01; xff; xd9]; [xff; xd8; x01; xff; xd9];
            [xff; xd8; x01; xff; xd9]]).
  - vm_compute. congruence.
  - left. reflexivity.
Defined.

(** X4. The generator yields at most one part per read, however many
    frames the reads complete. *)
Theorem at_most_one_part_per_read (cs : list bytes) :
  (List.length (parts cs) <= List.length cs)%nat.
Proof.
  unfold parts. rewrite drain_frames, length_map. apply frames_le_chunks.
Qed.

(** X5. A stream of well-formed frames (each opens with FF D8, closes with
    FF D9 and has no FF D9 before its end), delivered one byte per read,
    comes out whole: one part per frame, each frame unchanged, in order. *)
Theorem byte_reads_yield_every_frame (fs : list bytes) :
  Forall (fun f => well_formed f = true) fs ->
  parts (byte_chunks (List.concat fs)) = map part fs.
Proof.
  intros H. unfold parts, byte_chunks.
  rewrite drain_frames. f_equal. apply frames_byte_by_byte, H.
Qed.

Lemma byte_reads_yield_every_frame_witness :
  let f1 := [xff; xd8; x01; xff; xd9] in
  let f2 := [xff; xd8; xff; xd8; x02; xff; xd9] in
  parts (byte_chunks (f1 ++ f2)) = [part f1; part f2].
Proof.
  apply (byte_reads_yield_every_frame
           [[xff; xd8; x01; xff; xd9]; [xff; xd8; xff; xd8; x02; xff; xd9]]).
  repeat constructor.
Defined.

(** X6. The same stream delivered one whole frame per read also comes out
    whole: one part per frame, unchanged, in order, and the buffer is empty
    after each. *)
Theorem frame_reads_yield_every_frame (fs : list bytes) :
  Forall (fun f => well_formed f = true) fs ->
  parts fs = map part fs /\ buffer_after [] fs = [].
Proof.
  intros H. unfold parts. rewrite drain_frames.
  split; [f_equal; apply frames_frame_by_frame, H|].
  induction H as [|f fs Hwf _ IH]; [reflexivity|].
  destruct (well_formed_inv f Hwf) as (_ & _ & Hlen).
  destruct f as [|x f]; [unfold len in Hlen; simpl in Hlen; lia|].
  cbn [buffer_after]. rewrite (feed_whole_frame [] (x :: f) Hwf). exact IH.
Qed.

Lemma frame_reads_yield_every_frame_witness :
  let f1 := [xff; xd8; x01; xff; xd9] in
  let f2 := [xff; xd8; x02; x03; xff; xd9] in
  parts [f1; f2] = [part f1; part f2] /\ buffer_after [] [f1; f2] = [].
Proof.
  apply (frame_reads_yield_every_frame
           [[xff; xd8; x01; xff; xd9]; [xff; xd8; x02; x03; xff; xd9]]).
  repeat constructor.
Defined.

End DemuxRunsSpec.

(** ** Whole runs of the timelapse worker *)

Module TimelapseRunsSpec.
Import PyFloat PyFloatFacts Timelapse TimelapseSpec TimelapseRuns.
Local Open Scope Z_scope.

Lemma step_within_limit (m : Z) (stop : bool) (out : option file) (w : worker) :
  within_limit m w ->
  within_limit m (fst (worker_step stop out w)) /\
  w_count (fst (worker_step stop out w))
  = w_count w + Z.of_nat (shots (snd (worker_step stop out w))).
Proof.
  intros (Hpos & Hmax & Hle & Hcap). unfold worker_step, within_limit.
  destruct (w_pc w) as [| | |[|k]|k|] eqn:P; cbn.
  - rewrite P. repeat split; auto; try lia; discriminate.
  - destruct stop; cbn.
    + repeat split; auto; try lia; discriminate.
    + replace (w_max_shots w =? 0) with false
        by (symmetry; apply Z.eqb_neq; lia).
      cbn. destruct (w_count w <? w_max_shots w) eqn:L; cbn.
      * apply Z.ltb_lt in L. repeat split; auto; lia.
      * repeat split; auto; try lia; discriminate.
  - specialize (Hcap eq_refl). repeat split; auto; try lia; discriminate.
  - repeat split; auto; try lia; discriminate.
  - destruct stop; cbn; repeat split; auto; try lia; discriminate.
  - repeat split; auto; try lia; discriminate.
  - rewrite P. repeat split; auto; try lia; discriminate.
Qed.

Lemma run_within_limit (m : Z) (n : nat) :
  forall (stop : nat -> bool) (out : nat -> option file) (w : worker),
    within_limit m w ->
    within_limit m (fst (timelapse_worker stop out n w)) /\
    w_count (fst (timelapse_worker stop out n w))
    = w_count w + Z.of_nat (shots (snd (timelapse_worker stop out n w))).
Proof.
  induction n as [|n IH]; intros stop out w H.
  - cbn. split; [exact H | lia].
  - cbn [timelapse_worker].
    destruct (step_within_limit m (stop 0%nat) (out 0%nat) w H) as [H1 E1].
    destruct (worker_step (stop 0%nat) (out 0%nat) w) as [w1 ev1].
    cbn [fst snd] in *.
    destruct (IH (fun i => stop (S i)) (fun i => out (S i)) w1 H1) as [H2 E2].
    destruct (timelapse_worker (fun i => stop (S i)) (fun i => out (S i)) n w1)
      as [w2 ev2].
    cbn [fst snd] in *. split; [exact H2|].
    rewrite shots_app. lia.
Qed.

(** X7. A job started with a shot limit [m > 0] never makes more than [m]
    capture attempts, at any point of its run, whenever and however often
    the stop flag is set or cleared and whatever the captures give; and the
    worker's counter is exactly the number of attempts made so far. *)
Theorem shots_never_exceed_limit
  (iv m : Z) (stop : nat -> bool) (out : nat -> option file) (n : nat) :
  0 < m ->
  let run := timelapse_worker stop out n (new_worker iv m AtWhile) in
  w_count (fst run) = Z.of_nat (shots (snd run)) /\
  Z.of_nat (shots (snd run)) <= m.
Proof.
  intros Hm run.
  assert (H0 : within_limit m (new_worker iv m AtWhile)).
  { unfold within_limit. cbn. repeat split; try lia; discriminate. }
  destruct (run_within_limit m n stop out _ H0) as [(_ & _ & Hle & _) Hc].
  fold run in Hle, Hc. cbn [new_worker w_count] in Hc. lia.
Qed.

Lemma shots_never_exceed_limit_witness :
  let stop := fun i : nat => Nat.eqb i 30 in
  let run := timelapse_worker stop (fun _ => None) 200 (new_worker 10 2 AtWhile) in
  0 < 2 /\
  w_count (fst run) = Z.of_nat (shots (snd run)) /\
  Z.of_nat (shots (snd run)) <= 2.
Proof.
  split; [lia|].
  apply (shots_never_exceed_limit 10 2 (fun i : nat => Nat.eqb i 30)
           (fun _ => None) 200).
  lia.
Defined.

(** *** Clearing the directory *)

Lemma filter_jpg_cleared (d : list file) :
  filter is_jpg (filter (fun f => negb (is_jpg f)) d) = [].
Proof.
  induction d as [|f d IH]; [reflexivity|].
  cbn [filter]. destruct (is_jpg f) eqn:E; cbn [negb filter];
    [exact IH | now rewrite E].
Qed.

(** Every [unlink()] succeeds: the loop runs to its end and leaves the
    entries that are not [.jpg]. *)
Lemma unlink_all_done (ok : file -> bool) (d : list file) :
  forallb (removable ok) d = true ->
  unlink_all ok d = (true, filter (fun f => negb (is_jpg f)) d).
Proof.
  unfold removable.
  induction d as [|f d IH]; intros H; [reflexivity|].
  cbn [forallb] in H. apply andb_prop in H as [Hf H].
  cbn [unlink_all filter]. destruct (is_jpg f); cbn [negb orb] in *.
  - rewrite Hf. now apply IH.
  - now rewrite (IH H).
Qed.

(** Some [unlink()] raises: the loop stops at the first such entry, which
    stays with everything after it. *)
Lemma unlink_all_stops (ok : file -> bool) (d : list file) :
  forallb (removable ok) d = false ->
  exists (before : list file) (f : file) (after : list file),
    d = before ++ f :: after /\
    forallb (removable ok) before = true /\
    is_jpg f = true /\ ok f = false /\
    unlink_all ok d
    = (false, filter (fun g => negb (is_jpg g)) before ++ f :: after).
Proof.
  unfold removable.
  induction d as [|f d IH]; intros H; [discriminate|].
  cbn [forallb] in H. cbn [unlink_all].
  destruct (is_jpg f) eqn:J; cbn [negb orb] in H.
  - destruct (ok f) eqn:K; cbn [andb] in H.
    + destruct (IH H) as (before & g & after & -> & Hb & Hj & Hk & Hu).
      exists (f :: before), g, after. cbn [forallb filter app].
      rewrite J, K, Hu. cbn [negb orb andb]. repeat split; auto.
    + exists [], f, d. repeat split; auto.
  - destruct (IH H) as (before & g & after & -> & Hb & Hj & Hk & Hu).
    exists (f :: before), g, after. cbn [forallb filter app].
    rewrite J, Hu. cbn [negb orb andb]. repeat split; auto.
Qed.

Lemma filter_other_app (before after : list file) (f : file) :
  is_jpg f = true ->
  filter (fun g => negb (is_jpg g))
         (filter (fun g => negb (is_jpg g)) before ++ f :: after)
  = filter (fun g => negb (is_jpg g)) (before ++ f :: after).
Proof.
  intros J. rewrite !filter_app. f_equal.
  induction before as [|g before IH]; [reflexivity|].
  cbn [filter]. destruct (is_jpg g) eqn:E; cbn [negb filter];
    [exact IH | now rewrite E, IH].
Qed.

(** X8. A clear request removes [.jpg] entries only and touches neither
    the workers, the current thread nor the stop flag, so a running job
    keeps running. When every [.jpg] entry can be removed it answers
    success, every other entry stays, in order, and a status request then
    reports [count = 0] and no image. When the removal of an entry fails (a
    directory named like an image, for one), the request ends with an
    error at that entry: the images before it are gone, the entry and
    everything after it stay, and the status request still counts
    images. *)
Theorem clear_removes_every_image
  (TIMELAPSE_DIR : string) (ok : file -> bool) (st : state) :
  let st' := snd (timelapse_clear ok st) in
  let r := fst (timelapse_status TIMELAPSE_DIR st') in
  (threads st' = threads st /\
   timelapse_thread st' = timelapse_thread st /\
   timelapse_stop st' = timelapse_stop st /\
   st_running r = running st) /\
  filter (fun f => negb (is_jpg f)) (dir st')
  = filter (fun f => negb (is_jpg f)) (dir st) /\
  if forallb (removable ok) (dir st)
  then fst (timelapse_clear ok st) = Cleared /\
       dir st' = filter (fun f => negb (is_jpg f)) (dir st) /\
       st_count r = 0 /\ st_images r = []
  else fst (timelapse_clear ok st) = ServerError /\
       (0 < st_count r) /\
       exists (before : list file) (f : file) (after : list file),
         dir st = before ++ f :: after /\
         is_jpg f = true /\ ok f = false /\
         dir st' = filter (fun g => negb (is_jpg g)) before ++ f :: after.
Proof.
  intros st' r. unfold r, st', timelapse_status, timelapse_clear.
  destruct (forallb (removable ok) (dir st)) eqn:A.
  - rewrite (unlink_all_done ok (dir st) A).
    cbn [fst snd st_count st_images st_running dir threads timelapse_thread
         timelapse_stop].
    rewrite filter_jpg_cleared.
    split; [repeat split|]. split; [|repeat split].
    clear A. induction (dir st) as [|f d IH]; [reflexivity|].
    cbn [filter]. destruct (is_jpg f) eqn:E; cbn [negb filter];
      [exact IH | now rewrite E, IH].
  - destruct (unlink_all_stops ok (dir st) A)
      as (before & f & after & Hd & _ & J & K & Hu).
    rewrite Hu.
    cbn [fst snd st_count st_images st_running dir threads timelapse_thread
         timelapse_stop].
    split; [repeat split|]. split; [|split; [reflexivity|split]].
    + rewrite Hd. now apply filter_other_app.
    + rewrite (Permutation_length (sorted_desc_perm _)), filter_app.
      cbn [filter]. rewrite J, length_app. cbn [List.length]. lia.
    + exists before, f, after. auto.
Qed.

(** A directory named like an image between two images: the clear request
    fails on it, and both it and the image after it are still there. *)
Example clear_stops_at_a_directory :
  let a := {| name := "img_1.jpg"; mtime := 1 |} in
  let d := {| name := "d.jpg"; mtime := 2 |} in
  let b := {| name := "img_3.jpg"; mtime := 3 |} in
  let st := {| threads := []; timelapse_thread := None;
               timelapse_stop := false; dir := [a; d; b] |} in
  let is_file := fun f : file => negb (name f =? "d.jpg")%string in
  fst (timelapse_clear is_file st) = ServerError /\
  dir (snd (timelapse_clear is_file st)) = [d; b] /\
  st_count (fst (timelapse_status "" (snd (timelapse_clear is_file st)))) = 2.
Proof. vm_compute. repeat split. Qed.

(** *** The twenty newest *)




(** *** Stop, then start again *)

Lemma step_keeps_current (st : state) (a : action) :
  is_start a = false ->
  timelapse_thread (fst (step st a)) = timelapse_thread st.
Proof.
  destruct a as [data| | |ok|t c]; cbn; try reflexivity; try discriminate.
  - intros _. unfold timelapse_clear.
    destruct (unlink_all ok (dir st)). reflexivity.
  - intros _. unfold tick. destruct (nth_error (threads st) t); [|reflexivity].
    destruct (worker_step (timelapse_stop st) (written c) w). reflexivity.
Qed.

Lemma run_keeps_current (acts : list action) :
  forall st : state,
    no_start acts = true ->
    timelapse_thread (fst (run st acts)) = timelapse_thread st.
Proof.
  induction acts as [|a acts IH]; intros st H; [reflexivity|].
  cbn [no_start forallb] in H. apply andb_prop in H as [Ha H].
  apply negb_true_iff in Ha.
  rewrite run_cons, IH by exact H. now apply step_keeps_current.
Qed.

Lemma shots_for_nonneg (data : request) (m : Z) :
  shots_for data = Some m -> 0 <= m.
Proof.
  unfold shots_for. pose proof (clamp_interval_range data) as Hr.
  destruct (get (duration data) 0 >? 0) eqn:E;
    [|intros H; inversion H; lia].
  apply Z.gtb_lt in E.
  destruct (true_div (get (duration data) 0) (clamp_interval data))
    as [x| |] eqn:D; try discriminate.
  intros H. inversion H; subst m.
  apply (int_true_div_nonneg (get (duration data) 0) (clamp_interval data) x);
    [exact E | lia | exact D].
Qed.

(** X10. A running job that is stopped makes room for the next one: once
    its worker has taken three steps after the stop request, with no other
    start in between, the server is idle; a start request whose shot limit
    can be computed (line 348 does not overflow) is then accepted, it
    clears the stop flag, and the new worker, with that limit, goes on to
    its first capture instead of seeing the old stop. *)
Theorem stopped_job_can_be_restarted
  (st : state) (t : nat) (w : worker) (acts : list action)
  (data : request) (m : Z) (c : capture) :
  timelapse_thread st = Some t ->
  nth_error (threads st) t = Some w ->
  is_alive w = true ->
  no_start acts = true ->
  (3 <= ticks_of t acts)%nat ->
  shots_for data = Some m ->
  let st2 := fst (run (snd (timelapse_stop_route st)) acts) in
  let st3 := snd (timelapse_start st2 data) in
  let t' := List.length (threads st2) in
  running st2 = false /\
  fst (timelapse_start st2 data) = Started (clamp_interval data) /\
  running st3 = true /\ timelapse_stop st3 = false /\
  timelapse_thread st3 = Some t' /\
  nth_error (threads (fst (step st3 (Tick t' c)))) t'
  = Some (new_worker (clamp_interval data) m InCapture).
Proof.
  intros Hc Hw Ha Hns Ht Hm st2 st3 t'.
  assert (Hd : draining t (snd (timelapse_stop_route st)) w).
  { split; [exact Hw|right]. auto. }
  destruct (drain_run t acts _ w Hd) as (_ & _ & H3).
  assert (Hdead : thread_alive st2 t = false).
  { apply H3. unfold ticks_of in Ht. unfold is_alive in Ha.
    destruct (w_pc w); cbn; try discriminate; lia. }
  assert (Hidle : running st2 = false).
  { assert (Hcur : timelapse_thread st2 = Some t).
    { unfold st2. rewrite run_keeps_current by exact Hns. exact Hc. }
    unfold running. rewrite Hcur. exact Hdead. }
  unfold st3, timelapse_start. rewrite Hidle, Hm. cbn [fst snd].
  assert (Hrun : running
                   {| threads := threads st2 ++
                        [new_worker (clamp_interval data) m AtWhile];
                      timelapse_thread := Some (List.length (threads st2));
                      timelapse_stop := false; dir := dir st2 |} = true).
  { unfold running, thread_alive. cbn [timelapse_thread threads].
    rewrite nth_error_last. reflexivity. }
  split; [reflexivity|]. split; [reflexivity|]. split; [exact Hrun|].
  split; [reflexivity|]. split; [reflexivity|].
  cbn [step]. unfold tick, t'. cbn [threads timelapse_stop].
  rewrite nth_error_last. cbn.
  replace ((m =? 0) || (0 <? m)) with true.
  - cbn. rewrite set_nth_last, nth_error_last. reflexivity.
  - pose proof (shots_for_nonneg data m Hm) as Hs. symmetry.
    destruct (Z.eq_dec m 0) as [->|Hne]; [reflexivity|].
    replace (0 <? m) with true
      by (symmetry; apply Z.ltb_lt; lia).
    apply orb_true_r.
Qed.

Lemma stopped_job_can_be_restarted_witness :
  let data := {| interval := Some 10; duration := Some 35 |} in
  let st := fst (run init [ReqStart data; Tick 0 None; Tick 0 None; Tick 0 None]) in
  let acts := [Tick 0 None; ReqStatus; Tick 0 None; ReqStop; Tick 0 None] in
  let st2 := fst (run (snd (timelapse_stop_route st)) acts) in
  running st = true /\ shots_for data = Some 3 /\ running st2 = false /\
  fst (timelapse_start st2 data) = Started 10.
Proof.
  split; [reflexivity|]. split; [reflexivity|].
  pose proof (stopped_job_can_be_restarted
                (fst (run init
                        [ReqStart {| interval := Some 10; duration := Some 35 |};
                         Tick 0 None; Tick 0 None; Tick 0 None]))
                0
                {| w_interval := 10; w_max_shots := 3; w_count := 1;
                   w_pc := InSleep 9 |}
                [Tick 0 None; ReqStatus; Tick 0 None; ReqStop; Tick 0 None]
                {| interval := Some 10; duration := Some 35 |} 3 None
                eq_refl eq_refl eq_refl eq_refl) as H.
  cbv zeta in H.
  destruct (H ltac:(vm_compute; lia) eq_refl) as (H1 & H2 & _).
  split; [exact H1 | exact H2].
Defined.

End TimelapseRunsSpec.

(** ** Python text *)

Module PyStrFacts.
Import PyStr.
Local Open Scope string_scope.

Lemma append_nil_r (s : string) : s ++ "" = s.
Proof. induction s as [|c s IH]; cbn; [reflexivity | now rewrite IH]. Qed.

Lemma append_assoc (a b c : string) : (a ++ b) ++ c = a ++ (b ++ c).
Proof. induction a as [|x a IH]; cbn; [reflexivity | now rewrite IH]. Qed.

Lemma lstrip_starts (s : string) :
  lstrip s = "" \/ starts_word (lstrip s) = true.
Proof.
  induction s as [|c s IH]; [now left|].
  cbn [lstrip]. destruct (is_space c) eqn:E; [exact IH|].
  right. cbn. now rewrite E.
Qed.

Lemma rstrip_starts (s : string) :
  starts_word s = true -> starts_word (rstrip s) = true.
Proof.
  destruct s as [|c s]; [discriminate|]. cbn [starts_word rstrip].
  intros H. apply negb_true_iff in H.
  destruct (rstrip s); rewrite ?H; cbn; rewrite ?H; reflexivity.
Qed.

(** A stripped string is empty or begins with a character that is not
    white space. *)
Lemma strip_starts (s : string) :
  strip s = "" \/ starts_word (strip s) = true.
Proof.
  unfold strip. destruct (lstrip_starts s) as [->|H]; [now left|].
  right. now apply rstrip_starts.
Qed.

(** ... and it does not end with white space. *)
Lemma rstrip_last (s : string) :
  match last_char (rstrip s) with
  | Some c => is_space c = false
  | None => True
  end.
Proof.
  induction s as [|c s IH]; [exact I|].
  cbn [rstrip]. destruct (rstrip s) as [|d r] eqn:E.
  - destruct (is_space c) eqn:Ec; cbn; auto.
  - exact IH.
Qed.

(** The first word of a text that begins with one. *)
Lemma first_word (s : string) :
  starts_word s = true ->
  exists (w : string) (ws : list string) (tl : string),
    split_ws s = w :: ws /\ s = w ++ tl /\
    w <> "" /\ no_space w = true /\ word_end tl = true.
Proof.
  induction s as [|c s IH]; [discriminate|].
  cbn [starts_word]. intros Hc. apply negb_true_iff in Hc.
  cbn [split_ws]. rewrite Hc.
  destruct (starts_word s) eqn:Hs.
  - destruct (IH eq_refl) as (w & ws & tl & E & -> & Hw & Hn & Ht).
    rewrite E. exists (String c w), ws, tl.
    repeat split; auto; [discriminate|]. cbn. now rewrite Hc, Hn.
  - exists (String c ""), (split_ws s), s.
    repeat split; auto; [discriminate| |].
    + cbn. now rewrite Hc.
    + unfold word_end. now rewrite Hs.
Qed.

(** A word followed by the end or by white space is the first word. *)
Lemma split_ws_word (w tl : string) :
  w <> "" -> no_space w = true -> word_end tl = true ->
  exists ws : list string, split_ws (w ++ tl) = w :: ws.
Proof.
  induction w as [|c w IH]; [congruence|].
  intros _ Hn Ht. cbn [no_space] in Hn. apply andb_prop in Hn as [Hc Hn].
  apply negb_true_iff in Hc.
  cbn [append split_ws]. rewrite Hc.
  destruct w as [|d w].
  - cbn [append]. unfold word_end in Ht. apply negb_true_iff in Ht.
    rewrite Ht. eauto.
  - destruct (IH ltac:(discriminate) Hn Ht) as (ws & E).
    rewrite E.
    cbn [no_space] in Hn. apply andb_prop in Hn as [Hd _].
    cbn [append starts_word]. rewrite Hd. eauto.
Qed.

Lemma join_split_nl (s : string) : join_nl (split_nl s) = s.
Proof.
  induction s as [|c s IH]; [reflexivity|].
  cbn [split_nl]. destruct (split_nl s) as [|l ls] eqn:E.
  - cbn in IH. subst s. discriminate.
  - destruct (Ascii.eqb c newline) eqn:Ec.
    + apply Ascii.eqb_eq in Ec. subst c.
      change (join_nl ("" :: l :: ls))
        with ("" ++ String newline (join_nl (l :: ls))).
      now rewrite IH.
    + destruct ls as [|l' ls].
      * cbn in *. now rewrite IH.
      * change (join_nl (String c l :: l' :: ls))
          with (String c (l ++ String newline (join_nl (l' :: ls)))).
        change (join_nl (l :: l' :: ls))
          with (l ++ String newline (join_nl (l' :: ls))) in IH.
        now rewrite IH.
Qed.

Lemma split_nl_nonempty (s : string) : split_nl s <> [].
Proof.
  induction s as [|c s IH]; [discriminate|].
  cbn [split_nl]. destruct (split_nl s); [congruence|].
  destruct (Ascii.eqb c newline); discriminate.
Qed.

(** The last line of a text is empty only if the text is empty or ends
    with a newline. *)
Lemma last_line_empty (s : string) :
  last (split_nl s) "" = "" -> s = "" \/ last_char s = Some newline.
Proof.
  induction s as [|c s IH]; [now left|].
  cbn [split_nl]. destruct (split_nl s) as [|l ls] eqn:E.
  - exfalso. now apply (split_nl_nonempty s).
  - destruct (Ascii.eqb c newline) eqn:Ec.
    + apply Ascii.eqb_eq in Ec. subst c.
      change (last ("" :: l :: ls) "") with (last (l :: ls) "").
      intros H. right. destruct (IH H) as [->|Hl]; [reflexivity|].
      destruct s; [discriminate|exact Hl].
    + destruct ls as [|l' ls].
      * cbn. discriminate.
      * change (last (String c l :: l' :: ls) "") with (last (l :: l' :: ls) "").
        intros H. right. destruct (IH H) as [->|Hl]; [discriminate|].
        destruct s; [discriminate|exact Hl].
Qed.

Lemma join_nl_empty (ls : list string) :
  join_nl ls = "" -> ls = [] \/ ls = [""].
Proof.
  destruct ls as [|l [|l' ls]]; cbn; auto.
  - intros ->. now right.
  - destruct l; discriminate.
Qed.

Lemma last_skipn {A} (l : list A) (n : nat) (d : A) :
  (n < List.length l)%nat -> last (skipn n l) d = last l d.
Proof.
  revert n; induction l as [|x l IH]; intros n H; [simpl in H; lia|].
  destruct n as [|n]; [reflexivity|].
  cbn [skipn]. simpl in H. rewrite IH by lia.
  destruct l; [simpl in H; lia | reflexivity].
Qed.

End PyStrFacts.

(** ** The other handlers of the server *)

Module ServerSpec.
Import PyStr PyStrFacts Server.
Local Open Scope string_scope.

(** *** The terminal *)

Lemma mem_str_In (s : string) (l : list string) :
  mem_str s l = true <-> In s l.
Proof.
  unfold mem_str. rewrite existsb_exists. split.
  - intros (x & Hx & E). apply String.eqb_eq in E. now subst.
  - intros H. exists s. split; [exact H | apply String.eqb_refl].
Qed.

Lemma allowed_are_words (w : string) :
  In w allowed -> w <> "" /\ no_space w = true.
Proof.
  intros H. assert (G : forallb (fun w => negb (w =? "") && no_space w) allowed
                        = true) by reflexivity.
  rewrite forallb_forall in G. specialize (G w H).
  apply andb_prop in G as [G1 G2]. apply negb_true_iff, String.eqb_neq in G1.
  auto.
Qed.

(** X11. The terminal hands a command to the shell exactly when the
    trimmed command begins with one of the ten allowed words followed by
    the end of the text or by white space; it then hands over the whole
    trimmed text, whatever follows the first word, and nothing else. In
    every other case the answer is "Not allowed" and no command is run.
    The first word is always there to be looked at: the handler never fails
    on it. *)
Theorem terminal_checks_first_word_only
  (sh : string -> proc_result) (command : option string) :
  let cmd := strip (match command with Some c => c | None => "" end) in
  let passes := exists w tl : string,
                  In w allowed /\ cmd = w ++ tl /\ word_end tl = true in
  (passes /\ snd (terminal sh command) = [cmd] /\
   exists out err, fst (terminal sh command) = Output out err) \/
  (~ passes /\ terminal sh command = (NotAllowed, [])).
Proof.
  intros cmd passes. unfold terminal. fold cmd.
  destruct (cmd =? "") eqn:E0.
  - right. split; [|reflexivity]. apply String.eqb_eq in E0.
    intros (w & tl & Hw & Hc & _). rewrite E0 in Hc.
    destruct (allowed_are_words w Hw) as [Hne _].
    destruct w; [congruence | discriminate].
  - apply String.eqb_neq in E0.
    destruct (strip_starts (match command with Some c => c | None => "" end))
      as [Hs|Hs]; [contradiction|].
    fold cmd in Hs.
    destruct (first_word cmd Hs) as (w & ws & tl & Esp & Ecmd & Hw & Hn & Ht).
    rewrite Esp. destruct (mem_str w allowed) eqn:M; cbn [negb].
    + left. apply mem_str_In in M. split; [exists w, tl; auto|].
      destruct (run_cmd (sh cmd)) as [[out err] code]. cbn. eauto.
    + right. split; [|reflexivity].
      intros (w' & tl' & Hw' & Hc' & Ht').
      destruct (allowed_are_words w' Hw') as [Hne' Hn'].
      destruct (split_ws_word w' tl' Hne' Hn' Ht') as (ws' & E').
      rewrite <- Hc', Esp in E'. inversion E'; subst w'.
      apply mem_str_In in Hw'. congruence.
Qed.

(** What the shell is given for the body [{"command": " ls ; reboot "}]. *)
Example terminal_passes_what_follows :
  snd (terminal (fun _ => Raised) (Some " ls ; reboot ")) = ["ls ; reboot"] /\
  terminal (fun _ => Raised) (Some "lsblk") = (NotAllowed, []) /\
  terminal (fun _ => Raised) None = (NotAllowed, []).
Proof. vm_compute. repeat split. Qed.

(** *** The address announced *)

(** X12. Taking the first address of [hostname -I] never fails. When the
    command printed something besides white space the result is its first
    word: not empty, free of white space, and what the trimmed output
    begins with. When it printed nothing, or could not be run, the result
    is the fallback. *)
Theorem first_address_is_first_word (r : proc_result) (fallback : string) :
  exists ip : string,
    first_address r fallback = Some ip /\
    match r with
    | Exited out _ _ =>
        if strip out =? "" then ip = fallback
        else ip <> "" /\ no_space ip = true /\
             exists tl, strip out = ip ++ tl /\ word_end tl = true
    | Raised => ip = fallback
    end.
Proof.
  unfold first_address. destruct r as [out err code|]; cbn [run_cmd truthy_str].
  - destruct (strip out =? "") eqn:E; cbn [negb]; [eauto|].
    apply String.eqb_neq in E.
    destruct (strip_starts out) as [Hs|Hs]; [contradiction|].
    destruct (first_word _ Hs) as (w & ws & tl & Esp & Ecmd & Hw & Hn & Ht).
    rewrite Esp. cbn. exists w. eauto 10.
  - eauto.
Qed.

(** *** The battery daemon *)

Lemma split_once_cons (sep : string) (c : ascii) (s : string) :
  split_once sep (String c s) =
  if starts_with sep (String c s)
  then Some ("", drop (String.length sep) (String c s))
  else match split_once sep s with
       | Some (a, b) => Some (String c a, b)
       | None => None
       end.
Proof. reflexivity. Qed.

Lemma starts_with_self (p s : string) : starts_with p (p ++ s) = true.
Proof.
  induction p as [|a p IH]; [reflexivity|].
  cbn [append starts_with]. now rewrite Ascii.eqb_refl, IH.
Qed.

(** The name in front of the first ": " is everything up to it. *)
Lemma split_once_named (k v : string) :
  occurs ": " k = false -> split_once ": " (k ++ ": " ++ v) = Some (k, v).
Proof.
  induction k as [|c k IH]; intros H.
  - reflexivity.
  - cbn [occurs] in H. apply orb_false_elim in H as [Hc Hk].
    change (String c k ++ ": " ++ v) with (String c (k ++ ": " ++ v)).
    rewrite split_once_cons.
    replace (starts_with ": " (String c (k ++ ": " ++ v))) with false.
    + now rewrite (IH Hk).
    + symmetry. cbn [starts_with] in *.
      destruct (Ascii.eqb ":" c); [|reflexivity]. cbn [andb] in *.
      destruct k as [|c2 k]; [reflexivity|].
      cbn [append starts_with] in *.
      destruct (Ascii.eqb " " c2); [discriminate | reflexivity].
Qed.

Lemma starts_with_drop (p s : string) :
  starts_with p s = true -> s = p ++ drop (String.length p) s.
Proof.
  revert s; induction p as [|a p IH]; intros s H; [reflexivity|].
  destruct s as [|b s]; [discriminate|].
  cbn [starts_with] in H. apply andb_prop in H as [Hab H].
  apply Ascii.eqb_eq in Hab. subst b.
  cbn [String.length drop append]. f_equal. now apply IH.
Qed.

(** [occurs] is the test [sep in s]: some part of [s] is [sep]. *)
Lemma occurs_spec (sep s : string) :
  occurs sep s = true <-> exists a b : string, s = a ++ sep ++ b.
Proof.
  split.
  - induction s as [|c s IH]; cbn [occurs]; intros H.
    + rewrite orb_false_r in H. destruct sep; [|discriminate].
      exists "", "". reflexivity.
    + apply orb_prop in H as [H|H].
      * exists "", (drop (String.length sep) (String c s)).
        now apply starts_with_drop.
      * destruct (IH H) as (a & b & ->). exists (String c a), b. reflexivity.
  - intros (a & b & ->). induction a as [|c a IH].
    + cbn [append]. destruct (sep ++ b) as [|c t] eqn:E; cbn [occurs];
        rewrite <- E, starts_with_self; reflexivity.
    + cbn [append occurs]. rewrite IH. apply orb_true_r.
Qed.

(** What [split_once] returns are the two sides of an occurrence. *)
Lemma split_once_sides (sep s a b : string) :
  split_once sep s = Some (a, b) -> s = a ++ sep ++ b.
Proof.
  revert a b; induction s as [|c s IH]; intros a b H.
  - cbn [split_once] in H.
    destruct (starts_with sep "") eqn:E; [|discriminate].
    inversion H; subst. now apply starts_with_drop.
  - rewrite split_once_cons in H.
    destruct (starts_with sep (String c s)) eqn:E.
    + inversion H; subst. now apply starts_with_drop.
    + destruct (split_once sep s) as [[a' b']|] eqn:E'; [|discriminate].
      inversion H; subst. cbn [append]. f_equal. now apply IH.
Qed.

(** X13. [pisugar] answers with the text behind the first ": " of the
    trimmed reply: for a reply "name: value" whose name holds no ": " (it
    may hold colons) it returns the value as it is, even when the value
    itself contains ": ". When the exchange fails it returns nothing. *)
Theorem pisugar_returns_value (raw k v : string) :
  strip raw = k ++ ": " ++ v -> occurs ": " k = false ->
  pisugar (Some raw) = Some v /\ pisugar None = None.
Proof.
  intros Hr Hk. unfold pisugar. rewrite Hr, (split_once_named k v Hk). auto.
Qed.

Lemma pisugar_returns_value_witness :
  let raw := String " " ("rtc:time: 85.3: ok" ++ String newline "") in
  strip raw = "rtc:time" ++ ": " ++ "85.3: ok" /\
  occurs ": " "rtc:time" = false /\
  pisugar (Some raw) = Some "85.3: ok".
Proof.
  split; [reflexivity|]. split; [reflexivity|].
  apply (pisugar_returns_value
           (String " " ("rtc:time: 85.3: ok" ++ String newline ""))
           "rtc:time" "85.3: ok"); reflexivity.
Defined.

(** Whatever the daemon replies, [pisugar] returns a piece of the
    end of the trimmed reply: the reply itself when it holds no ": ",
    otherwise what follows an occurrence of ": ". *)
Lemma pisugar_returns_suffix (raw : string) :
  exists front res : string,
    pisugar (Some raw) = Some res /\ strip raw = front ++ res /\
    (front = "" \/ exists name, front = name ++ ": ").
Proof.
  unfold pisugar.
  destruct (split_once ": " (strip raw)) as [[a b]|] eqn:E.
  - apply split_once_sides in E.
    exists (a ++ ": "), b. repeat split.
    + rewrite E. now rewrite append_assoc.
    + right. eauto.
  - exists "", (strip raw). auto.
Qed.

(** *** The log viewer *)

Lemma list_from_zero {A} (l : list A) : list_from l 0 = l.
Proof.
  unfold list_from, PyBytes.clip. cbn [Z.ltb Z.compare].
  replace (Z.to_nat (Z.min 0 (Z.of_nat (List.length l)))) with 0%nat by lia.
  reflexivity.
Qed.

Lemma list_from_last {A} (l : list A) (n : Z) :
  (1 <= n)%Z -> list_from l (- n) = skipn (List.length l - Z.to_nat n) l.
Proof.
  intros H. unfold list_from, PyBytes.clip.
  replace (- n <? 0)%Z with true by (symmetry; apply Z.ltb_lt; lia).
  f_equal. lia.
Qed.

Lemma dmesg_command (x : string) :
  map (replace "{lines}" x) ["dmesg"; "--human"; "-T"]
  = ["dmesg"; "--human"; "-T"].
Proof. reflexivity. Qed.

(** The output of [run_cmd] never ends in an empty line. *)
Lemma stripped_last_line (o : string) :
  strip o <> "" -> last (split_nl (strip o)) "" <> "".
Proof.
  intros Hne Hl. destruct (last_line_empty _ Hl) as [E|E]; [contradiction|].
  pose proof (rstrip_last (lstrip o)) as R. fold (strip o) in R.
  rewrite E in R. discriminate.
Qed.

Lemma tail_nonempty (o : string) (n : Z) :
  strip o <> "" -> (1 <= n)%Z -> tail_lines (strip o) n <> "".
Proof.
  intros Hne Hn Ht. unfold tail_lines in Ht.
  rewrite list_from_last in Ht by exact Hn.
  pose proof (split_nl_nonempty (strip o)) as Hls.
  set (ls := split_nl (strip o)) in *.
  assert (Hlen : (0 < List.length ls)%nat)
    by (destruct ls; [congruence | simpl; lia]).
  assert (Hlast : last (skipn (List.length ls - Z.to_nat n) ls) "" = last ls "")
    by (apply last_skipn; lia).
  destruct (join_nl_empty _ Ht) as [E|E].
  - apply (f_equal (@List.length string)) in E.
    rewrite length_skipn in E. simpl in E. lia.
  - rewrite E in Hlast. cbn in Hlast.
    apply (stripped_last_line o Hne). fold ls. now rewrite <- Hlast.
Qed.

(** X14. Reading the kernel log ([source=dmesg]) with [lines = k >= 0]:
    the command is run once, the reported line count is [min(k, 1000)], and
    the content is never empty. With a count of at least 1 the content is
    the last [min(k, 1000)] lines of the trimmed output, the whole output
    when it has no more lines than that. With a count of 0 the content is
    not empty either: it is the whole output, because [out.split('\n')[-0:]]
    is the whole list. *)
Theorem dmesg_returns_last_lines
  (sys : list string -> proc_result) (k : Z) (o e : string) (code : Z) :
  sys ["dmesg"; "--human"; "-T"] = Exited o e code ->
  strip o <> "" -> (0 <= k)%Z ->
  let n := Z.min k 1000 in
  let ls := split_nl (strip o) in
  exists content : string,
    log_read sys (Some "dmesg") (IntArg k)
    = (Log "dmesg" n content, [["dmesg"; "--human"; "-T"]]) /\
    content <> "" /\
    (n = 0%Z -> content = strip o) /\
    ((1 <= n)%Z ->
     content = join_nl (skipn (List.length ls - Z.to_nat n) ls)) /\
    ((Z.of_nat (List.length ls) <= n)%Z -> content = strip o).
Proof.
  intros Hsys Hne Hk n ls.
  assert (Htrue : truthy_str (Some (strip o)) = true).
  { cbn. apply negb_true_iff, String.eqb_neq, Hne. }
  assert (Hor : forall t, t <> "" ->
                          or_str (Some t) (or_str (Some (strip e))
                                                  "No logs available") = t).
  { intros t Ht. cbn. apply String.eqb_neq in Ht. now rewrite Ht. }
  unfold log_read.
  change (assoc "dmesg" LOG_SOURCES) with (Some ["dmesg"; "--human"; "-T"]).
  cbv iota. rewrite dmesg_command, Hsys. cbn [run_cmd].
  change ("dmesg" =? "dmesg") with true. rewrite Htrue. cbn [andb].
  fold n.
  assert (Hcases : n = 0%Z \/ (1 <= n)%Z) by (unfold n; lia).
  assert (Ht : tail_lines (strip o) n <> "").
  { destruct Hcases as [->|H1]; [|now apply tail_nonempty].
    unfold tail_lines. cbn [Z.opp]. now rewrite list_from_zero, join_split_nl. }
  exists (tail_lines (strip o) n). rewrite (Hor _ Ht).
  repeat split; auto.
  - intros ->. unfold tail_lines. cbn [Z.opp].
    now rewrite list_from_zero, join_split_nl.
  - intros H1. unfold tail_lines. now rewrite list_from_last.
  - intros Hall. destruct Hcases as [->|H1].
    + unfold tail_lines. cbn [Z.opp].
      now rewrite list_from_zero, join_split_nl.
    + unfold tail_lines. rewrite list_from_last by exact H1. fold ls.
      replace (List.length ls - Z.to_nat n)%nat with 0%nat by lia.
      cbn [skipn]. apply join_split_nl.
Qed.

Lemma dmesg_returns_last_lines_witness :
  let out := "a" ++ String newline ("b" ++ String newline ("c" ++ String newline "")) in
  let sys := fun _ : list string => Exited out "" 0 in
  log_read sys (Some "dmesg") (IntArg 2)
  = (Log "dmesg" 2 ("b" ++ String newline "c"), [["dmesg"; "--human"; "-T"]]) /\
  log_read sys (Some "dmesg") (IntArg 0)
  = (Log "dmesg" 0 ("a" ++ String newline ("b" ++ String newline "c")),
     [["dmesg"; "--human"; "-T"]]) /\
  exists content : string,
    log_read sys (Some "dmesg") (IntArg 2)
    = (Log "dmesg" 2 content, [["dmesg"; "--human"; "-T"]]) /\
    content <> "".
Proof.
  split; [reflexivity|]. split; [reflexivity|].
  destruct (dmesg_returns_last_lines
              (fun _ => Exited ("a" ++ String newline
                                  ("b" ++ String newline
                                     ("c" ++ String newline ""))) "" 0)
              2 _ "" 0 eq_refl) as (content & H1 & H2 & _).
  - vm_compute. discriminate.
  - lia.
  - exists content. split; [exact H1 | exact H2].
Defined.

Lemma template_filled (source : string) (template : list string) (x : string) :
  assoc source LOG_SOURCES = Some template ->
  map (replace "{lines}" x) template
  = map (fun a => if a =? "{lines}" then x else a) template.
Proof.
  unfold LOG_SOURCES. cbn [assoc].
  repeat match goal with
         | |- context [if ?c then _ else _] => destruct c
         end;
    intros H; inversion H; subst; cbn; rewrite ?append_nil_r; reflexivity.
Qed.

(** X15. The log viewer never asks for more than 1000 lines and never
    runs anything for a source it does not know. For a known source it runs
    one command, the source's own with every ["{lines}"] argument replaced
    by the decimal text of [min(lines, 1000)], and reports that count; a
    missing [lines] counts as 100; a [lines] that is not an integer ends the
    request before any command is run. *)
Theorem log_read_caps_lines
  (sys : list string -> proc_result) (source : option string) (z : Z) :
  let src := match source with Some s => s | None => "syslog" end in
  let n := Z.min z 1000 in
  (n <= 1000)%Z /\
  match assoc src LOG_SOURCES with
  | None => log_read sys source (IntArg z) = (UnknownSource, [])
  | Some template =>
      exists content : string,
        log_read sys source (IntArg z)
        = (Log src n content,
           [map (fun a => if a =? "{lines}" then str_of_int n else a) template])
  end /\
  log_read sys source NoArg = log_read sys source (IntArg 100) /\
  log_read sys source BadArg = (LogError, []).
Proof.
  intros src n. split; [unfold n; lia|]. split; [|split; reflexivity].
  unfold log_read. fold src. fold n.
  destruct (assoc src LOG_SOURCES) as [template|] eqn:E; [|reflexivity].
  rewrite (template_filled src template _ E).
  destruct (run_cmd _) as [[out err] code]. eauto.
Qed.

(** *** Settings *)

Local Open Scope list_scope.

Lemma assoc_set_eq (d : dict) (k : string) (v : json) :
  assoc k (dict_set d k v) = Some v.
Proof.
  induction d as [|[k' v'] d IH]; cbn.
  - now rewrite String.eqb_refl.
  - destruct (k =? k') eqn:E; cbn; rewrite E; auto.
Qed.

Lemma assoc_set_ne (d : dict) (k k' : string) (v : json) :
  k <> k' -> assoc k' (dict_set d k v) = assoc k' d.
Proof.
  intros Hne. induction d as [|[k0 v0] d IH]; cbn.
  - apply not_eq_sym, String.eqb_neq in Hne. now rewrite Hne.
  - destruct (k =? k0) eqn:E; cbn.
    + apply String.eqb_eq in E. subst k0.
      apply not_eq_sym, String.eqb_neq in Hne. now rewrite Hne.
    + destruct (k' =? k0); auto.
Qed.

Lemma dict_set_fresh (d : dict) (k : string) (v : json) :
  ~ In k (keys d) -> dict_set d k v = d ++ [(k, v)].
Proof.
  induction d as [|[k' v'] d IH]; cbn; intros H; [reflexivity|].
  destruct (k =? k') eqn:E.
  - apply String.eqb_eq in E. subst. tauto.
  - rewrite IH by tauto. reflexivity.
Qed.

Lemma keys_set_present (d : dict) (k : string) (v : json) :
  In k (keys d) -> keys (dict_set d k v) = keys d.
Proof.
  unfold keys.
  induction d as [|[k' v'] d IH]; cbn; intros H; [contradiction|].
  destruct (k =? k') eqn:E; cbn; [reflexivity|].
  apply String.eqb_neq in E. rewrite IH; [reflexivity|].
  destruct H; [congruence | assumption].
Qed.

(** Storing a value keeps the keys distinct. *)
Lemma keys_set (d : dict) (k : string) (v : json) :
  NoDup (keys d) -> NoDup (keys (dict_set d k v)).
Proof.
  intros Hnd. destruct (in_dec string_dec k (keys d)) as [Hin|Hout].
  - now rewrite keys_set_present.
  - rewrite dict_set_fresh by exact Hout. unfold keys. rewrite map_app.
    cbn [map fst].
    apply NoDup_app; [exact Hnd | repeat constructor; intros [] |].
    intros x Hx [<-|[]]. contradiction.
Qed.

Lemma set_shaped (d : dict) (k : string) (v : json) :
  settings_shaped d -> settings_shaped (dict_set d k v).
Proof.
  intros (a & b & rest & -> & Hnd).
  pose proof (keys_set _ k v Hnd) as Hnd'.
  cbn [dict_set] in *.
  destruct (k =? "announcement_enabled");
    [now exists v, b, rest|].
  destruct (k =? "autostart_enabled");
    [now exists a, v, rest|].
  now exists a, b, (dict_set rest k v).
Qed.

Lemma update_shaped (other d : dict) :
  settings_shaped d -> settings_shaped (dict_update d other).
Proof.
  unfold dict_update. revert d.
  induction other as [|[k v] other IH]; intros d H; [exact H|].
  cbn [fold_left fst snd]. apply IH, set_shaped, H.
Qed.

Lemma defaults_shaped : settings_shaped defaults.
Proof.
  exists (JBool true), (JBool true), []. split; [reflexivity|].
  cbn. repeat constructor; cbn; intuition discriminate.
Qed.

(** Storing the pairs of an array one by one is an [update] with the
    pairs that are stored. *)
Lemma update_pairs_applied (l : list element) :
  forall d : dict, update_pairs d l = dict_update d (applied l).
Proof.
  unfold dict_update.
  induction l as [|e l IH]; intros d; [reflexivity|].
  cbn [update_pairs applied]. destruct (pair_of e) as [[k v]|]; [|reflexivity].
  cbn [fold_left fst snd]. apply IH.
Qed.

Lemma load_shaped (f : config_file) : settings_shaped (load_config f).
Proof.
  destruct f; cbn [load_config]; try apply defaults_shaped.
  - apply update_shaped, defaults_shaped.
  - rewrite update_pairs_applied. apply update_shaped, defaults_shaped.
Qed.



Lemma assoc_app {V} (k : string) (l1 l2 : list (string * V)) :
  assoc k (l1 ++ l2)
  = match assoc k l1 with Some v => Some v | None => assoc k l2 end.
Proof.
  induction l1 as [|[k' v'] l1 IH]; cbn; [reflexivity|].
  destruct (k =? k'); auto.
Qed.

Lemma assoc_update (other d : dict) (k : string) :
  assoc k (dict_update d other)
  = match assoc k (rev other) with
    | Some v => Some v
    | None => assoc k d
    end.
Proof.
  unfold dict_update. revert d.
  induction other as [|[k0 v0] other IH]; intros d; [reflexivity|].
  cbn [fold_left fst snd rev]. rewrite IH, assoc_app.
  destruct (assoc k (rev other)); [reflexivity|].
  cbn [assoc]. destruct (k =? k0) eqn:E.
  - apply String.eqb_eq in E. subst. apply assoc_set_eq.
  - apply String.eqb_neq in E. apply assoc_set_ne. congruence.
Qed.

(** X16. [load_config] always returns both settings, first and in their
    order, with no key twice, whatever the file is. For a file holding a
    JSON object, a key has the value of its last item in the object, or its
    default ([True]) when the object does not have it. For a file holding
    a JSON array, the same with the pairs in front of the first element
    that is no pair: they are stored although loading then fails. Without
    a file, with one that cannot be read or parsed, or with one holding
    any other JSON value, the result is the defaults. *)
Theorem load_config_fills_defaults (f : config_file) :
  settings_shaped (load_config f) /\
  (forall k : string,
      assoc k (load_config f)
      = match f with
        | FileWith cfg =>
            match assoc k (rev cfg) with
            | Some v => Some v
            | None => assoc k defaults
            end
        | FileWithArray l =>
            match assoc k (rev (applied l)) with
            | Some v => Some v
            | None => assoc k defaults
            end
        | NoFile | FileWithScalar | Unreadable => assoc k defaults
        end) /\
  assoc "announcement_enabled" defaults = Some (JBool true) /\
  assoc "autostart_enabled" defaults = Some (JBool true).
Proof.
  split; [apply load_shaped|]. split; [|split; reflexivity].
  intros k. destruct f; cbn [load_config]; try reflexivity.
  - apply assoc_update.
  - rewrite update_pairs_applied. apply assoc_update.
Qed.

(** A file holding [[["announcement_enabled", false], 5]]: the first
    element is stored, the second makes [update] raise, and the setting is
    loaded as [False]. *)
Example array_config_is_half_loaded :
  load_config
    (FileWithArray [PairOf "announcement_enabled" (JBool false); NoPair;
                    PairOf "autostart_enabled" (JBool false)])
  = [("announcement_enabled", JBool false); ("autostart_enabled", JBool true)].
Proof. reflexivity. Qed.



(** X18. [update_settings] stores truth values, not what was sent: for
    each of the two keys present in the body the setting becomes
    [bool(value)], so the text ["false"] turns the setting on; a key absent
    from the body keeps what [load_config] gave. The service is enabled or
    disabled exactly when [autostart_enabled] is in the body, by the same
    truth value. *)
Theorem update_settings_stores_truth_values
  (data : dict) (can_write : bool) (f : config_file) :
  let r := update_settings data can_write f in
  let settings := sr_settings (fst (fst r)) in
  assoc "announcement_enabled" settings
  = match assoc "announcement_enabled" data with
    | Some v => Some (JBool (truthy v))
    | None => assoc "announcement_enabled" (load_config f)
    end /\
  assoc "autostart_enabled" settings
  = match assoc "autostart_enabled" data with
    | Some v => Some (JBool (truthy v))
    | None => assoc "autostart_enabled" (load_config f)
    end /\
  snd r = match assoc "autostart_enabled" data with
          | Some v => [if truthy v then Enable else Disable]
          | None => []
          end.
Proof.
  intros r settings. unfold settings, r, update_settings.
  destruct (assoc "announcement_enabled" data) as [v1|];
    destruct (assoc "autostart_enabled" data) as [v2|];
    destruct can_write; cbn [fst snd sr_settings save_config];
    repeat split;
    rewrite ?assoc_set_eq;
    rewrite ?(assoc_set_ne _ "autostart_enabled" "announcement_enabled")
      by discriminate;
    rewrite ?(assoc_set_ne _ "announcement_enabled" "autostart_enabled")
      by discriminate;
    rewrite ?assoc_set_eq; reflexivity.
Qed.

Example text_false_turns_setting_on :
  assoc "announcement_enabled"
        (sr_settings
           (fst (fst (update_settings
                        [("announcement_enabled", JStr "false")] true NoFile))))
  = Some (JBool true).
Proof. reflexivity. Qed.

(** X19. [get_settings] reports [autostart_enabled] from the service
    manager, not from the file: it is [True] exactly when
    [systemctl is-enabled] exits with code 0, and [False] when it exits
    otherwise or cannot be run; every other setting is as loaded. *)
Theorem get_settings_asks_service_manager
  (f : config_file) (is_enabled : proc_result) (k : string) :
  assoc k (get_settings f is_enabled)
  = if (k =? "autostart_enabled")%string
    then Some (JBool match is_enabled with
                     | Exited _ _ code => (code =? 0)%Z
                     | Raised => false
                     end)
    else assoc k (load_config f).
Proof.
  unfold get_settings.
  destruct (k =? "autostart_enabled")%string eqn:E.
  - apply String.eqb_eq in E. subst k.
    destruct is_enabled as [o e code|]; cbn [run_cmd]; apply assoc_set_eq.
  - apply String.eqb_neq in E.
    destruct is_enabled as [o e code|]; cbn [run_cmd];
      apply assoc_set_ne; congruence.
Qed.

(** *** GPIO *)

Local Open Scope Z_scope.

Lemma gpio_get_pins (g : gpio) (p : Z) :
  gpio_get g p <> None <-> In p (pins g).
Proof.
  unfold pins.
  induction g as [|[q v] g IH]; cbn; [tauto|].
  destruct (p =? q) eqn:E.
  - apply Z.eqb_eq in E. subst. split; [auto | discriminate].
  - apply Z.eqb_neq in E. rewrite IH. split; [auto|].
    intros [H|H]; [congruence | exact H].
Qed.

Lemma pins_assign (g : gpio) (p : Z) (v : json) :
  In p (pins g) -> pins (gpio_assign g p v) = pins g.
Proof.
  unfold pins.
  induction g as [|[q w] g IH]; cbn; intros H; [contradiction|].
  destruct (p =? q) eqn:E; cbn; [reflexivity|].
  apply Z.eqb_neq in E. rewrite IH; [reflexivity|].
  destruct H; [congruence | assumption].
Qed.

Lemma get_assign_eq (g : gpio) (p : Z) (v : json) :
  gpio_get (gpio_assign g p v) p = Some v.
Proof.
  induction g as [|[q w] g IH]; cbn.
  - now rewrite Z.eqb_refl.
  - destruct (p =? q) eqn:E; cbn; rewrite E; auto.
Qed.

Lemma get_assign_ne (g : gpio) (p q : Z) (v : json) :
  q <> p -> In p (pins g) -> gpio_get (gpio_assign g p v) q = gpio_get g q.
Proof.
  unfold pins.
  intros Hne. induction g as [|[r w] g IH]; cbn; intros H; [contradiction|].
  destruct (p =? r) eqn:E; cbn.
  - apply Z.eqb_eq in E. subst r.
    apply Z.eqb_neq in Hne. now rewrite Hne.
  - apply Z.eqb_neq in E. destruct (q =? r); [reflexivity|].
    apply IH. destruct H; [congruence | assumption].
Qed.

Lemma pins_handle (g : gpio) (r : gpio_request) :
  pins (gpio_handle g r) = pins g.
Proof.
  destruct r as [d| |]; cbn [gpio_handle gpio_blink gpio_off snd].
  - unfold gpio_set. destruct (key_of _) as [[p|]|]; try reflexivity.
    destruct (gpio_get g p) eqn:E; [|reflexivity].
    cbn [snd]. apply pins_assign, gpio_get_pins. congruence.
  - reflexivity.
  - unfold pins. rewrite map_map. reflexivity.
Qed.

Lemma get_off (g : gpio) (p : Z) :
  In p (pins g) ->
  gpio_get (map (fun pv => (fst pv, JBool false)) g) p = Some (JBool false).
Proof.
  unfold pins.
  induction g as [|[q w] g IH]; cbn; intros H; [contradiction|].
  destruct (p =? q) eqn:E; [reflexivity|].
  apply Z.eqb_neq in E. apply IH. destruct H; [congruence | assumption].
Qed.

(** X20. No sequence of GPIO requests adds, removes or reorders a pin: the
    state always has exactly the pins 17, 27, 22, 23. After a
    [gpio/off] request each of them reads [False], whatever was stored
    before. *)
Theorem gpio_pins_are_fixed (reqs : list gpio_request) (p : Z) :
  let g := fold_left gpio_handle reqs gpio_state in
  pins g = [17; 27; 22; 23] /\
  fst (gpio_off g) = GpioOk /\
  pins (snd (gpio_off g)) = [17; 27; 22; 23] /\
  gpio_get (snd (gpio_off g)) p
  = (if existsb (Z.eqb p) [17; 27; 22; 23] then Some (JBool false) else None).
Proof.
  intros g.
  assert (G : forall g0, pins (fold_left gpio_handle reqs g0) = pins g0).
  { induction reqs as [|r reqs IH]; intros g0; [reflexivity|].
    cbn [fold_left]. now rewrite IH, pins_handle. }
  assert (Hp : pins g = [17; 27; 22; 23]) by (unfold g; now rewrite G).
  assert (Hoff : pins (snd (gpio_off g)) = [17; 27; 22; 23]).
  { rewrite <- Hp. apply (pins_handle g Off). }
  repeat split; auto.
  destruct (existsb (Z.eqb p) [17; 27; 22; 23]) eqn:E.
  - cbn [gpio_off snd]. apply get_off. rewrite Hp.
    apply existsb_exists in E as (x & Hx & Ex). apply Z.eqb_eq in Ex.
    now subst.
  - destruct (gpio_get (snd (gpio_off g)) p) eqn:Gp; [|reflexivity].
    exfalso. assert (Hin : In p (pins (snd (gpio_off g))))
      by (apply gpio_get_pins; congruence).
    rewrite Hoff in Hin.
    assert (existsb (Z.eqb p) [17; 27; 22; 23] = true)
      by (apply existsb_exists; exists p; split; [exact Hin | apply Z.eqb_refl]).
    congruence.
Qed.

(** X21. A [gpio/set] request for a pin of the state stores the body's
    [state] (or [False] when the body has none) for that pin and for no
    other: the pin then reads the new value and every other pin reads what
    it read before. For a pin that is not in the state, a missing pin or a
    pin that is not a number the answer is "Bad pin" and nothing changes. *)
Theorem gpio_set_writes_one_pin (g : gpio) (d : dict) (q : Z) :
  let pin := match assoc "pin" d with Some v => v | None => JNull end in
  let state := match assoc "state" d with Some v => v | None => JBool false end in
  let g' := snd (gpio_set g d) in
  match key_of pin with
  | Some (Some p) =>
      if existsb (Z.eqb p) (pins g)
      then fst (gpio_set g d) = GpioSet pin state /\
           gpio_get g' p = Some state /\
           (q <> p -> gpio_get g' q = gpio_get g q)
      else gpio_set g d = (BadPin, g)
  | Some None => gpio_set g d = (BadPin, g)
  | None => gpio_set g d = (GpioError, g)
  end.
Proof.
  intros pin state g'. unfold g', gpio_set. fold pin. fold state.
  destruct (key_of pin) as [[p|]|]; try reflexivity.
  destruct (existsb (Z.eqb p) (pins g)) eqn:E.
  - assert (Hin : In p (pins g)).
    { apply existsb_exists in E as (x & Hx & Ex). apply Z.eqb_eq in Ex.
      now subst. }
    destruct (gpio_get g p) eqn:G;
      [|exfalso; now apply (proj2 (gpio_get_pins g p))].
    cbn [fst snd]. repeat split.
    + apply get_assign_eq.
    + intros Hne. now apply get_assign_ne.
  - destruct (gpio_get g p) eqn:G; [|reflexivity].
    exfalso. assert (Hin : In p (pins g)) by (apply gpio_get_pins; congruence).
    assert (existsb (Z.eqb p) (pins g) = true)
      by (apply existsb_exists; exists p; split; [exact Hin | apply Z.eqb_refl]).
    congruence.
Qed.

End ServerSpec.

(** ** The file browser listing and the audio handlers *)

Module FilesSpec.
Import PyStr PyStrFacts Server Files.
Local Open Scope list_scope.

Lemma key_le_total (k1 k2 : bool * string) :
  key_le k1 k2 = false -> key_le k2 k1 = true.
Proof.
  unfold key_le. destruct k1 as [[|] s1], k2 as [[|] s2]; cbn;
    try discriminate; try reflexivity;
    intros H; destruct (String.leb_total s1 s2); congruence.
Qed.

Lemma insert_asc_perm (x : keyed) (l : list keyed) :
  Permutation (insert_asc x l) (x :: l).
Proof.
  induction l as [|g l IH]; cbn [insert_asc]; [reflexivity|].
  destruct (key_le (fst x) (fst g)); [reflexivity|].
  rewrite IH. apply perm_swap.
Qed.

Lemma sort_keyed_perm (l : list keyed) : Permutation (sort_keyed l) l.
Proof.
  induction l as [|x l IH]; [reflexivity|].
  unfold sort_keyed in *. cbn [fold_right].
  rewrite insert_asc_perm. now constructor.
Qed.

(** Two keyed entries in key order. *)
Lemma insert_asc_hd (x g : keyed) (l : list keyed) :
  key_le (fst g) (fst x) = true ->
  HdRel (fun a b => key_le (fst a) (fst b) = true) g l ->
  HdRel (fun a b => key_le (fst a) (fst b) = true) g (insert_asc x l).
Proof.
  intros Hgx Hl. destruct l as [|h l]; cbn [insert_asc].
  - now constructor.
  - inversion Hl; subst.
    destruct (key_le (fst x) (fst h)); now constructor.
Qed.

Lemma insert_asc_sorted (x : keyed) (l : list keyed) :
  Sorted (fun a b => key_le (fst a) (fst b) = true) l ->
  Sorted (fun a b => key_le (fst a) (fst b) = true) (insert_asc x l).
Proof.
  induction l as [|g l IH]; intros Hl; cbn [insert_asc].
  - repeat constructor.
  - inversion Hl as [|? ? Hs Hh]; subst.
    destruct (key_le (fst x) (fst g)) eqn:E.
    + constructor; [exact Hl|]. now constructor.
    + constructor; [now apply IH|].
      apply insert_asc_hd; [|exact Hh]. now apply key_le_total.
Qed.

Lemma sort_keyed_sorted (l : list keyed) :
  Sorted (fun a b => key_le (fst a) (fst b) = true) (sort_keyed l).
Proof.
  induction l as [|x l IH]; [constructor|].
  unfold sort_keyed in *. cbn [fold_right]. now apply insert_asc_sorted.
Qed.

(** Inserting into a list that has its directories first keeps them
    first: a directory never passes a file, a file passes every
    directory. The first component of a key is "not a directory". *)
Lemma insert_asc_dirs_first (x : keyed) (l : list keyed) :
  dirs_first (map dir_key l) -> dirs_first (map dir_key (insert_asc x l)).
Proof.
  induction l as [|g l IH]; intros (n & m & H).
  - cbn [insert_asc map].
    destruct (dir_key x); [exists 1%nat, 0%nat | exists 0%nat, 1%nat];
      reflexivity.
  - cbn [insert_asc map] in *.
    destruct (key_le (fst x) (fst g)) eqn:E.
    + cbn [map]. rewrite H.
      destruct (dir_key x) eqn:Dx.
      * exists (S n), m. reflexivity.
      * destruct (dir_key g) eqn:Dg.
        -- unfold key_le in E. unfold dir_key in Dx, Dg.
           destruct (fst (fst x)), (fst (fst g)); discriminate.
        -- destruct n as [|n]; [|discriminate H].
           exists 0%nat, (S m). reflexivity.
    + cbn [map].
      destruct n as [|n].
      * cbn [repeat app] in H. destruct m as [|m]; [discriminate|].
        cbn [repeat] in H. injection H as Hg Hl.
        assert (Dx : dir_key x = false).
        { unfold key_le in E. unfold dir_key in *.
          destruct (fst (fst x)), (fst (fst g));
            try discriminate; reflexivity. }
        destruct IH as (n' & m' & IH'); [exists 0%nat, m; exact Hl|].
        destruct n' as [|n'].
        -- exists 0%nat, (S m'). cbn [repeat app] in *. now rewrite IH', Hg.
        -- exfalso.
           assert (Hall : Forall (fun b => b = false)
                                 (map dir_key (insert_asc x l))).
           { rewrite Forall_forall. intros b Hb.
             apply in_map_iff in Hb as (y & <- & Hy).
             apply (Permutation_in _ (insert_asc_perm x l)) in Hy.
             destruct Hy as [<-|Hy]; [exact Dx|].
             assert (Hm : In (dir_key y) (map dir_key l))
               by (apply in_map; exact Hy).
             rewrite Hl in Hm. now apply repeat_spec in Hm. }
           rewrite IH' in Hall. inversion Hall. discriminate.
      * cbn [repeat app] in H. injection H as Hg Hl.
        destruct IH as (n' & m' & IH'); [exists n, m; exact Hl|].
        exists (S n'), m'. cbn [repeat app]. now rewrite Hg, IH'.
Qed.

Lemma sort_keyed_dirs_first (l : list keyed) :
  dirs_first (map dir_key (sort_keyed l)).
Proof.
  induction l as [|x l IH]; [exists 0%nat, 0%nat; reflexivity|].
  unfold sort_keyed in *. cbn [fold_right].
  now apply insert_asc_dirs_first.
Qed.

Lemma all_some_map {A B} (f : A -> option B) (l : list A) (r : list B) :
  all_some (map f l) = Some r -> map Some r = map f l.
Proof.
  revert r; induction l as [|x l IH]; intros r H; cbn in *.
  - now inversion H.
  - destruct (f x) as [y|]; [|discriminate].
    destruct (all_some (map f l)) as [r'|]; [|discriminate].
    inversion H; subst. cbn. now rewrite (IH r' eq_refl).
Qed.

Lemma all_some_total {A B} (f : A -> option B) (l : list A) :
  Forall (fun x => f x <> None) l -> exists r, all_some (map f l) = Some r.
Proof.
  induction 1 as [|x l Hx _ (r & IH)]; [exists []; reflexivity|].
  cbn. destruct (f x) as [y|]; [|congruence].
  rewrite IH. eauto.
Qed.

Lemma all_some_none {A B} (f : A -> option B) (l : list A) (x : A) :
  In x l -> f x = None -> all_some (map f l) = None.
Proof.
  induction l as [|y l IH]; intros Hin Hx; [contradiction|].
  cbn. destruct Hin as [->|Hin].
  - now rewrite Hx.
  - destruct (f y); [|reflexivity]. now rewrite (IH Hin Hx).
Qed.

Section Listing.
Variable lower : string -> string.
Variable path_of : string -> string.
Variable iso : Z -> option string.

(** [stat()] refused is all that makes the key, or the item, raise. *)
Lemma key_refused (e : entry) : key lower e = None <-> refused e = true.
Proof.
  unfold key, is_dir, refused.
  destruct (e_stat e) as [[| |] sz t| |]; split; congruence.
Qed.

Lemma describe_item (e : entry) :
  refused e = false ->
  exists (i : item) (d : bool),
    describe path_of iso e = Some i /\
    key lower e = Some (negb d, lower (e_name e)) /\
    item_name i = e_name e /\ item_is_dir i = d.
Proof.
  unfold describe, key, is_dir, is_file, refused.
  destruct (e_stat e) as [[| |] sz t| |]; intros H; try discriminate;
    try destruct (iso t); eauto 10.
Qed.

(** X22. The listing of a directory. If [stat()] is refused for one of
    the entries, the request fails as a whole (the sort key raises): no
    listing is given. Otherwise every entry is listed exactly once, also a
    link whose target is missing; directories come first, then everything
    else; and each entry's key (not a directory, then the lowered name) is
    at most the key of the entry after it. *)
Theorem files_list_orders_entries (entries : list entry) :
  if existsb refused entries
  then files_list lower path_of iso (Dir entries) = ListError
  else
    exists (shown : list entry) (items : list item),
      files_list lower path_of iso (Dir entries) = Listing items /\
      Permutation shown entries /\
      map Some items = map (describe path_of iso) shown /\
      map item_name items = map e_name shown /\
      dirs_first (map item_is_dir items) /\
      Sorted (in_order lower) shown.
Proof.
  destruct (existsb refused entries) eqn:R.
  - apply existsb_exists in R as (e & Hin & He).
    apply key_refused in He.
    cbn [files_list]. unfold sorted_by_key.
    rewrite (all_some_none (with_key lower) entries e Hin);
      [reflexivity|].
    unfold with_key. now rewrite He.
  - assert (Hok : Forall (fun e => refused e = false) entries).
    { rewrite Forall_forall. intros e Hin.
      destruct (refused e) eqn:E; [|reflexivity].
      assert (existsb refused entries = true)
        by (apply existsb_exists; eauto).
      congruence. }
    destruct (all_some_total (with_key lower) entries) as (ks & Hks).
    { eapply Forall_impl; [|exact Hok]. intros e He. unfold with_key.
      destruct (key lower e) eqn:K; [discriminate|].
      apply key_refused in K. congruence. }
    pose proof (all_some_map _ _ _ Hks) as Hmap.
    (* every keyed entry carries the key of its entry *)
    assert (Hkeys : Forall (fun a : keyed => key lower (snd a) = Some (fst a)) ks
                    /\ map snd ks = entries).
    { clear -Hmap. revert ks Hmap.
      induction entries as [|e l IH]; intros [|a ks] H; try discriminate;
        [split; [constructor | reflexivity]|].
      cbn [map] in H. injection H as Ha Hl.
      destruct (IH ks Hl) as [F E]. unfold with_key in Ha.
      destruct (key lower e) as [k|] eqn:K; [|discriminate].
      inversion Ha; subst a. cbn [fst snd map]. split; [|now rewrite E].
      constructor; [exact K | exact F]. }
    destruct Hkeys as [Hkeys Hsnd].
    set (sorted := sort_keyed ks).
    pose proof (sort_keyed_perm ks) as Hperm. fold sorted in Hperm.
    assert (Hkeys' : Forall (fun a : keyed => key lower (snd a) = Some (fst a))
                            sorted).
    { rewrite Forall_forall in *. intros a Ha. apply Hkeys.
      now apply (Permutation_in _ Hperm). }
    assert (Hshown : Permutation (map snd sorted) entries).
    { rewrite <- Hsnd. now apply Permutation_map. }
    assert (Hok' : Forall (fun e => refused e = false) (map snd sorted)).
    { rewrite Forall_forall in *. intros e He. apply Hok.
      now apply (Permutation_in _ Hshown). }
    destruct (all_some_total (describe path_of iso) (map snd sorted))
      as (items & Hitems).
    { eapply Forall_impl; [|exact Hok']. intros e He.
      destruct (describe_item e He) as (i & d & -> & _). discriminate. }
    pose proof (all_some_map _ _ _ Hitems) as Hdesc.
    exists (map snd sorted), items.
    split.
    { cbn [files_list]. unfold sorted_by_key. rewrite Hks. fold sorted.
      now rewrite Hitems. }
    split; [exact Hshown|]. split; [exact Hdesc|].
    (* names and directory flags of the items, entry by entry *)
    assert (Hfields : map item_name items = map e_name (map snd sorted) /\
                      map item_is_dir items = map dir_key sorted).
    { clear -Hdesc Hkeys' Hok'. revert items Hdesc.
      induction sorted as [|a l IH]; intros [|i items] H; try discriminate;
        [split; reflexivity|].
      cbn [map] in H. injection H as Hi Hl.
      inversion Hkeys' as [|? ? Ka Kl]; subst.
      inversion Hok' as [|? ? Oa Ol]; subst.
      destruct (IH Kl Ol items Hl) as [E1 E2].
      destruct (describe_item (snd a) Oa) as (i' & d & Hd & Hk & Hn & Hdir).
      rewrite Hd in Hi. inversion Hi; subst i'.
      rewrite Ka in Hk. inversion Hk as [Hfst].
      cbn [map]. rewrite E1, E2, Hn, Hdir.
      split; [reflexivity|]. f_equal. unfold dir_key.
      rewrite Hfst. cbn [fst]. now rewrite negb_involutive. }
    destruct Hfields as [Hnames Hdirs].
    split; [exact Hnames|]. split.
    { rewrite Hdirs. apply sort_keyed_dirs_first. }
    pose proof (sort_keyed_sorted ks) as Hs. fold sorted in Hs.
    clear -Hs Hkeys'.
    induction Hs as [|a l Hs IH Hh]; [constructor|].
    inversion Hkeys' as [|? ? Ka Kl]; subst.
    cbn [map]. constructor; [now apply IH|].
    destruct Hh as [|b l Hab]; [constructor|].
    inversion Kl as [|? ? Kb _]; subst.
    cbn [map]. constructor. unfold in_order. now rewrite Ka, Kb.
Qed.

End Listing.

(** A listing with upper and lower case names, a file first in [iterdir]
    order, and a link whose target is missing. *)
Example files_list_sample :
  let lower := fun s : string =>
                 if (s =? "Zed")%string then "zed"%string else s in
  let iso := fun t : Z => Some (str_of_int t) in
  let e n st := {| e_name := n; e_stat := st |} in
  files_list lower (fun n => n) iso
             (Dir [e "b.txt"%string (Found Regular 3 10);
                   e "Zed"%string (Found Directory 0 13);
                   e "a.txt"%string Gone;
                   e "docs"%string (Found Directory 0 12)])
  = Listing [Item "docs" "docs" true None "12";
             Item "Zed" "Zed" true None "13";
             Denied "a.txt" "a.txt" false;
             Item "b.txt" "b.txt" false (Some 3%Z) "10"].
Proof. reflexivity. Qed.

(** The same directory without search permission: every [stat()] is
    refused, and the request fails. *)
Example files_list_refused :
  let e n := {| e_name := n; e_stat := Refused |} in
  files_list (fun s => s) (fun n => n) (fun _ => None)
             (Dir [e "b.txt"%string; e "docs"%string])
  = ListError.
Proof. reflexivity. Qed.

End FilesSpec.

Module AudioSpec.
Import PyStr PyStrFacts Server Audio.
Local Open Scope string_scope.

Lemma take_length (n : nat) (s : string) :
  String.length (take n s) = Nat.min n (String.length s).
Proof.
  revert s; induction n as [|n IH]; intros [|c s]; cbn; auto.
Qed.

Lemma take_prefix (n : nat) (s : string) :
  exists rest, s = take n s ++ rest.
Proof.
  revert s; induction n as [|n IH]; intros s.
  - exists s. reflexivity.
  - destruct s as [|c s]; [exists ""; reflexivity|].
    destruct (IH s) as (rest & Hr). exists rest. cbn. now rewrite <- Hr.
Qed.

Lemma take_all (n : nat) (s : string) :
  (String.length s <= n)%nat -> take n s = s.
Proof.
  revert s; induction n as [|n IH]; intros [|c s] H; cbn in *;
    try reflexivity; try lia.
  rewrite IH by lia. reflexivity.
Qed.

(** X23. [audio_speak] never speaks more than 200 characters: what it
    hands to the synthesiser is the beginning of the text, as long as the
    text or 200 characters, whichever is less. A missing or empty text is
    refused and nothing is spoken. *)
Theorem audio_speak_cuts_text (text : option string) :
  let t := match text with Some t => t | None => "" end in
  match audio_speak text with
  | NoText => t = ""
  | Spoken said =>
      said <> "" /\
      String.length said = Nat.min 200 (String.length t) /\
      (exists rest, t = said ++ rest)
  end.
Proof.
  intros t. unfold audio_speak. fold t.
  destruct (take 200 t =? "") eqn:E.
  - apply String.eqb_eq in E. destruct t; [reflexivity | discriminate].
  - apply String.eqb_neq in E. repeat split.
    + exact E.
    + apply take_length.
    + apply take_prefix.
Qed.

(** X24. The volume handed to the mixer is always between 0 and 100: a
    value in that range is passed as it is, a lower one becomes 0, a higher
    one 100, and a body without [volume] gives 50. The recording duration
    is never above 30 seconds and the call's timeout is five seconds more;
    a duration that is missing or not an integer counts as 5, and nothing
    bounds the duration from below. *)
Theorem audio_levels_are_bounded (volume : option Z) (duration : int_arg) :
  let v := match volume with Some v => v | None => 50%Z end in
  (0 <= audio_vol volume <= 100)%Z /\
  audio_vol volume
  = (if (v <? 0)%Z then 0 else if (100 <? v)%Z then 100 else v)%Z /\
  let d := match duration with IntArg z => z | _ => 5%Z end in
  (fst (audio_rec duration) <= 30)%Z /\
  fst (audio_rec duration) = (if (30 <? d)%Z then 30 else d)%Z /\
  snd (audio_rec duration) = (fst (audio_rec duration) + 5)%Z.
Proof.
  intros v. unfold audio_vol, audio_rec. fold v. cbn [fst snd].
  repeat split; try lia.
  - destruct (v <? 0)%Z eqn:E1; [apply Z.ltb_lt in E1; lia|].
    apply Z.ltb_ge in E1.
    destruct (100 <? v)%Z eqn:E2;
      [apply Z.ltb_lt in E2 | apply Z.ltb_ge in E2]; lia.
  - destruct (30 <? _)%Z eqn:E;
      [apply Z.ltb_lt in E | apply Z.ltb_ge in E]; lia.
Qed.

(** *** What [run_cmd] returns *)

(** X25. [run_cmd] reports a command that cannot be run as the triple
    (nothing, "error", 1), and never returns text with white space at
    either end: the output and the error text of a command that ran are
    empty or begin and end with a character that is not white space. *)
Theorem run_cmd_returns_trimmed (r : proc_result) :
  match r, run_cmd r with
  | Raised, res => res = (None, "error", 1%Z)
  | Exited o e c, (out, err, code) =>
      out = Some (strip o) /\ err = strip e /\ code = c /\
      (strip o = "" \/
       starts_word (strip o) = true /\
       exists last, last_char (strip o) = Some last /\ is_space last = false) /\
      (strip e = "" \/
       starts_word (strip e) = true /\
       exists last, last_char (strip e) = Some last /\ is_space last = false)
  end.
Proof.
  assert (G : forall s, strip s = "" \/
                        starts_word (strip s) = true /\
                        exists last, last_char (strip s) = Some last /\
                                     is_space last = false).
  { intros s. destruct (strip_starts s) as [H|H]; [now left|right].
    split; [exact H|].
    pose proof (rstrip_last (lstrip s)) as R. fold (strip s) in R.
    destruct (last_char (strip s)) as [c|] eqn:E; [eauto|].
    destruct (strip s) as [|c s']; [discriminate|].
    exfalso. clear -E. revert c E.
    induction s' as [|d s' IH]; intros c E; [discriminate|].
    cbn [last_char] in E. apply (IH d). exact E. }
  destruct r as [o e c|]; cbn [run_cmd]; [|reflexivity].
  repeat split; apply G.
Qed.

End AudioSpec.
